(** * SparsePage: CSR page assembly and transformation (src/data/data.cc)

    A shallow embedding of the [SparsePage] operations of
    [src/data/data.cc] (lines 1015-1269): transpose, sortedness check,
    sort, reindex, row-major append, append from an adapter batch and the
    CSC merge, together with the properties the specification states about
    them.  A second part covers functions of the meta information in the
    same file: [Gather], [LoadFeatureType], [MetaInfo::SetFeatureInfo],
    [MetaInfo::GetFeatureInfo] and [MetaInfo::Extend]. *)

From Stdlib Require Import ZArith Lia Floats.SpecFloat.
From stdpp Require Import base tactics option list numbers sorting strings pretty.

Local Open Scope Z_scope.

(** ** Machine integers

    [bst_idx_t], [size_t] and [uint64_t] are 64-bit unsigned, the entry's
    [bst_feature_t] index and [bst_uint] are 32-bit unsigned; values are
    kept in [Z] and every arithmetic result is reduced explicitly. *)

Definition wrap64 (z : Z) : Z := z mod 2 ^ 64.
Definition wrap32 (z : Z) : Z := z mod 2 ^ 32.

(** ** Floating-point values

    [float] values are IEEE-754 data, taken as the Standard Library's
    [spec_float]: signed zeros, signed infinities, NaN and finite numbers.
    [SFeqb] is the IEEE equality ([NaN] differs from everything, the two
    zeros are equal). *)

(** [std::isinf]. *)
Definition isinf (x : spec_float) : bool :=
  match x with S754_infinity _ => true | _ => false end.

(** Modelled from the spec: [common::CheckNAN] is declared in
    [common/math.h], which is not among the sources; it is the test for
    NaN of the Validity Filter (section 4.3). *)
Definition CheckNAN (x : spec_float) : bool :=
  match x with S754_nan => true | _ => false end.

(** [std::isfinite]: neither infinite nor NaN. *)
Definition isfinite (x : spec_float) : bool :=
  match x with S754_infinity _ | S754_nan => false | _ => true end.

(** The C++ operator [!=] on floats. *)
Definition float_ne (x y : spec_float) : bool := negb (SFeqb x y).

(** The values 1, 2, 5 and 6 as single-precision data. *)
Definition f32_1 : spec_float := S754_finite false 8388608 (-23).
Definition f32_2 : spec_float := S754_finite false 8388608 (-22).
Definition f32_5 : spec_float := S754_finite false 10485760 (-21).
Definition f32_6 : spec_float := S754_finite false 12582912 (-21).

(** ** Entry Store *)

(** Modelled from the spec: [Entry] is declared in [xgboost/data.h], which
    is not among the sources; the spec gives it as a pair of a column index
    and a value.  The index is 32 bits wide, as the [static_cast<bst_uint>]
    in [GetTranspose] shows. *)
Record Entry : Type := mkEntry { index : Z; fvalue : spec_float }.

(** The constructor [Entry(index, fvalue)] narrows its first argument to
    the 32-bit index type. *)
Definition Entry_ctor (i : Z) (v : spec_float) : Entry := mkEntry (wrap32 i) v.

(** A value-initialised entry, what [std::vector::resize] fills with. *)
Definition Entry_default : Entry := mkEntry 0 (S754_zero false).

(** Modelled from the spec: [Entry::CmpIndex] orders by column index
    ascending, [Entry::CmpValue] by value ascending (section 3). *)
Definition CmpIndex (a b : Entry) : bool := index a <? index b.
Definition CmpValue (a b : Entry) : bool := SFltb (fvalue a) (fvalue b).

(** ** Failures

    A [CHECK] that fails, an exception rethrown after a parallel region and
    a step whose behaviour C++ leaves undefined all end the operation; the
    operations that can end this way return a [result]. *)

Inductive error : Type :=
  | InfInData            (* CHECK(valid) << error::InfInData() *)
  | CheckKeyGE           (* CHECK_GE(key, builder_base_row_offset) *)
  | CheckTransposeSize   (* CHECK_EQ(transpose.offset.Size(), num_columns + 1) *)
  | CheckOffsetSizeEQ    (* CHECK_EQ(self_offset.size(), other_offset.size()) *)
  | CheckBegLE           (* CHECK_LE(beg, data.size()) *)
  | CheckPtrLT           (* CHECK_LT(ptr, offset.size()) *)
  | AtOutOfRange         (* std::vector::at past the end *)
  | GroupBelowBase       (* the builder rejects a group id below its base *)
  | Undefined.           (* undefined behaviour *)

Inductive result (A : Type) : Type :=
  | Ok (a : A)
  | Err (e : error).
Arguments Ok {A} a.
Arguments Err {A} e.

Global Instance result_ret : MRet result := λ A a, Ok a.
Global Instance result_bind : MBind result := λ A B f m,
  match m with Ok a => f a | Err e => Err e end.

(** A loop whose body can fail: the first failure ends it. *)
Definition foldlM {A B : Type} (f : A → B → result A) (a : A) (l : list B)
    : result A :=
  foldl (λ r x, r ≫= λ a, f a x) (Ok a) l.

Definition is_Err {A} (r : result A) : Prop :=
  match r with Ok _ => False | Err _ => True end.

(** ** Sparse Page *)

(** Modelled from the spec: [SparsePage] is declared in [xgboost/data.h],
    which is not among the sources.  Section 3 gives its fields: the row
    offsets into [data], the entries, and the global row that local row 0
    stands for. *)
Record SparsePage : Type := mkPage {
  offset : list Z;
  data : list Entry;
  base_rowid : Z
}.

(** Modelled from the spec: a page is created empty, with the single
    offset 0, no data and base row 0 (section 3). *)
Definition SparsePage_new : SparsePage := mkPage [0] [] 0.

(** Modelled from the spec: [Size()] is the number of local rows, one
    less than the number of offsets (section 3); a page without offsets
    has no rows. *)
Definition Size (p : SparsePage) : nat :=
  match offset p with
  | [] => 0%nat
  | _ :: _ => (length (offset p) - 1)%nat
  end.

(** [offset.back()]; the back of an empty vector is undefined. *)
Definition back (l : list Z) : option Z := last l.

(** [v[i]] on a vector of offsets, for an index in range. *)
Definition vec_get (l : list Z) (i : nat) : Z := default 0 (l !! i).

(** The shape invariant of the specification (section 3). *)
Definition shape_invariant (p : SparsePage) : Prop :=
  back (offset p) = Some (Z.of_nat (length (data p))) ∧
  length (offset p) = (Size p + 1)%nat.

(** Row [i] of a page as the half-open slice of [data] that
    [offset[i], offset[i+1]] delimit (the span built by [page[i]] and the
    iterator pairs [h_data.begin() + beg, h_data.begin() + end]). *)
Definition row_slice (off : list Z) (d : list Entry) (i : nat) : list Entry :=
  let beg := vec_get off i in
  let en := vec_get off (S i) in
  take (Z.to_nat (en - beg)) (drop (Z.to_nat beg) d).

(** The [(row, column, value)] triples a page holds, rows counted from
    [base_rowid]. *)
Definition triples (p : SparsePage) : list (Z * Z * spec_float) :=
  mjoin ((λ i, (λ e, (base_rowid p + Z.of_nat i, index e, fvalue e))
               <$> row_slice (offset p) (data p) i)
         <$> seq 0 (Size p)).

(** A triple with row and column exchanged. *)
Definition swap_triple (x : Z * Z * spec_float) : Z * Z * spec_float :=
  (x.1.2, x.1.1, x.2).

(** ** Parallel loops

    Modelled from the spec: [common::ParallelFor] is declared in
    [common/threading_utils.h], which is not among the sources.  The loop
    runs the body once for every index below [size]; [sched i] is the id
    of the worker that runs index [i] (what [omp_get_thread_num()] returns
    there).  Workers only touch disjoint locations (an element of the
    vector, or their own slot of a per-thread table), so the iterations
    commute and are composed in index order. *)
Definition ParallelFor {S : Type} (size : nat) (sched : nat → nat)
    (fn : nat → nat → S → S) (s : S) : S :=
  foldl (λ s i, fn i (sched i) s) s (seq 0 size).

(** ** Parallel Group Builder *)

Module ParallelGroupBuilder.

(** Modelled from the spec: [common::ParallelGroupBuilder] is declared in
    [common/group_data.h], which is not among the sources.  The state is
    the one of section 3 of the spec: the two target sequences, the base
    row offset, the table [budget[thread][group]] of counts and, after the
    count pass, the write cursor of every thread in every group.  Groups
    are numbered from the base row offset.  [is_row_major] is the third
    template argument, which [Push] sets from the batch
    (data.cc:1124-1126). *)
Record t : Type := mk {
  offset_vec : list Z;
  data_vec : list Entry;
  base_row_offset : nat;
  budget : list (list nat);
  cursor : list (list nat);
  is_row_major : bool
}.

Definition make (is_row_major : bool) (offset_vec : list Z)
    (data_vec : list Entry) (base_row_offset : nat) : t :=
  mk offset_vec data_vec base_row_offset [] [] is_row_major.

(** The counters [InitBudget] allocates for the hint [max_key].  The
    callers hand it two kinds of numbers (data.cc:1127-1138): for a
    row-major batch the number of lines, that is of rows to come; else
    the key of a group, counted like every key from group 0, of which
    the groups below the base are already there. *)
Definition full_size (is_row_major : bool) (base_row_offset max_key : nat)
    : nat :=
  if is_row_major then max_key
  else (max_key - Nat.min base_row_offset max_key)%nat.

(** Modelled from the spec: [InitBudget] allocates the zero-initialised
    counter table, one row of counters per thread. *)
Definition InitBudget (max_key num_threads : nat) (b : t) : t :=
  mk (offset_vec b) (data_vec b) (base_row_offset b)
     (replicate num_threads
        (replicate (full_size (is_row_major b) (base_row_offset b) max_key)
                   0%nat))
     [] (is_row_major b).

(** Modelled from the spec: [AddBudget] increments
    [budget[thread_id][group_id]] and rejects a group id below the base.
    The group count handed to [InitBudget] is only a hint (data.cc:1127
    "not required to be exact but prevents unnecessary resizing"): a
    thread's row of counters grows when a later group shows up. *)
Definition AddBudget (key threadid : nat) (b : t) : result t :=
  if decide (key < base_row_offset b)%nat then Err GroupBelowBase else
  match budget b !! threadid with
  | None => Err Undefined
  | Some trptr =>
      let g := (key - base_row_offset b)%nat in
      let trptr :=
        if decide (length trptr < g + 1)%nat
        then resize (g + 1) 0%nat trptr else trptr in
      Ok (mk (offset_vec b) (data_vec b) (base_row_offset b)
             (<[threadid := alter S g trptr]> (budget b)) (cursor b)
             (is_row_major b))
  end.

(** The count of one thread for one group; zero where the thread has no
    counter. *)
Definition count (trptr : list nat) (g : nat) : nat := default 0%nat (trptr !! g).

(** The entries all the threads of [table] contribute to group [g]. *)
Definition group_total (table : list (list nat)) (g : nat) : nat :=
  sum_list_with (λ trptr, count trptr g) table.

Definition num_groups (table : list (list nat)) : nat :=
  max_list_with length table.

(** Modelled from the spec: [InitStorage] totals every group over the
    threads, appends the prefix sums of the totals to the offset
    sequence, resizes the data to the new total and derives the write
    cursors: thread [t] starts in group [g] at the group's base offset
    plus the counts of the threads before [t] for that group. *)
Definition InitStorage (b : t) : t :=
  let top := Z.to_nat (default 0 (last (offset_vec b))) in
  let totals := group_total (budget b) <$> seq 0 (num_groups (budget b)) in
  let group_base g := (top + sum_list (take g totals))%nat in
  let new_offsets :=
    (λ g, Z.of_nat (group_base (S g))) <$> seq 0 (num_groups (budget b)) in
  mk (offset_vec b ++ new_offsets)
     (resize (top + sum_list totals) Entry_default (data_vec b))
     (base_row_offset b)
     (budget b)
     (imap (λ tid trptr,
              imap (λ g _, (group_base g + group_total (take tid (budget b)) g)%nat)
                   trptr)
           (budget b))
     (is_row_major b).

(** Modelled from the spec: [Push] writes the entry at the write cursor
    of the thread for the group and advances that cursor.  There is no
    bounds check: a write with no cursor or past the data is undefined. *)
Definition Push (key : nat) (value : Entry) (threadid : nat) (b : t) : result t :=
  if decide (key < base_row_offset b)%nat then Err Undefined else
  let g := (key - base_row_offset b)%nat in
  match cursor b !! threadid ≫= (.!! g) with
  | None => Err Undefined
  | Some pos =>
      if decide (pos < length (data_vec b))%nat
      then Ok (mk (offset_vec b) (<[pos := value]> (data_vec b))
                  (base_row_offset b) (budget b)
                  (alter (alter S g) threadid (cursor b))
                  (is_row_major b))
      else Err Undefined
  end.

End ParallelGroupBuilder.

Abbreviation PGB := ParallelGroupBuilder.t.

(** ** GetTranspose (data.cc:1015-1047) *)

(** [a + b] on [int]: a sum that does not fit the type is undefined. *)
Definition int_add (a b : Z) : result Z :=
  if decide (- 2 ^ 31 ≤ a + b < 2 ^ 31) then Ok (a + b) else Err Undefined.

(** [num_columns] and [n_threads] are [int]; the builder is declared
    without a third template argument and counts its groups from 0, where
    both readings of the hint agree. *)
Definition GetTranspose (num_columns : Z) (n_threads : Z) (sched : nat → nat)
    (p : SparsePage) : result SparsePage :=
  let transpose := SparsePage_new in
  let builder :=
    ParallelGroupBuilder.make false (offset transpose) (data transpose) 0 in
  let builder :=
    ParallelGroupBuilder.InitBudget
      (Z.to_nat (wrap64 num_columns)) (Z.to_nat n_threads) builder in
  let batch_size := Size p in
  builder ← ParallelFor batch_size sched
    (λ i tid r, b ← r;
       foldlM (λ b entry,
                 ParallelGroupBuilder.AddBudget (Z.to_nat (index entry)) tid b)
              b (row_slice (offset p) (data p) i))
    (Ok builder);
  let builder := ParallelGroupBuilder.InitStorage builder in
  builder ← ParallelFor batch_size sched
    (λ i tid r, b ← r;
       foldlM (λ b entry,
                 ParallelGroupBuilder.Push (Z.to_nat (index entry))
                   (Entry_ctor (wrap32 (wrap64 (base_rowid p + Z.of_nat i)))
                               (fvalue entry))
                   tid b)
              b (row_slice (offset p) (data p) i))
    (Ok builder);
  transpose_offset ←
    match data p with
    | [] =>
        size ← int_add num_columns 1;
        Ok (replicate (Z.to_nat (wrap64 size)) 0)
    | _ :: _ => Ok (ParallelGroupBuilder.offset_vec builder)
    end;
  size ← int_add num_columns 1;
  if decide (Z.of_nat (length transpose_offset) = wrap64 size)
  then Ok (mkPage transpose_offset (ParallelGroupBuilder.data_vec builder) 0)
  else Err CheckTransposeSize.

(** ** IsIndicesSorted (data.cc:1049-1064) *)

(** [std::is_sorted(first, last, comp)]: no element is [comp]-before its
    predecessor. *)
Fixpoint is_sorted (comp : Entry → Entry → bool) (l : list Entry) : bool :=
  match l with
  | [] => true
  | x :: l' =>
      match l' with
      | [] => true
      | y :: _ => negb (comp y x) && is_sorted comp l'
      end
  end.

(** Conversion to [int32_t] and addition on it, in two's complement. *)
Definition to_int32 (z : Z) : Z := (z + 2 ^ 31) mod 2 ^ 32 - 2 ^ 31.

Definition int32_add (a b : Z) : Z := to_int32 (a + b).

Definition IsIndicesSorted (n_threads : Z) (sched : nat → nat) (p : SparsePage)
    : bool :=
  let n_threads :=
    to_int32 (Z.max (Z.min (wrap64 n_threads) (Z.of_nat (Size p))) 1) in
  let is_sorted_tloc :=
    ParallelFor (Size p) sched
      (λ i tid tloc,
         alter (λ c, int32_add c
                  (Z.b2z (is_sorted CmpIndex (row_slice (offset p) (data p) i))))
               tid tloc)
      (replicate (Z.to_nat n_threads) 0) in
  bool_decide
    (foldl (λ acc c, wrap64 (acc + c)) 0 is_sorted_tloc = Z.of_nat (Size p)).

(** ** SortIndices, SortRows (data.cc:1066-1075, 1084-1092)

    [std::sort] is taken as a parameter: the standard fixes what it
    returns (an ordered rearrangement of the range), not which one. *)

(** Sorting the range [beg, en) of a vector in place. *)
Definition sort_range (std_sort : (Entry → Entry → bool) → list Entry → list Entry)
    (comp : Entry → Entry → bool) (beg en : Z) (h_data : list Entry)
    : list Entry :=
  list_inserts (Z.to_nat beg)
    (std_sort comp (take (Z.to_nat (en - beg)) (drop (Z.to_nat beg) h_data)))
    h_data.

Definition SortIndices (std_sort : (Entry → Entry → bool) → list Entry → list Entry)
    (sched : nat → nat) (p : SparsePage) : SparsePage :=
  let h_data :=
    ParallelFor (Size p) sched
      (λ i _ h_data,
         sort_range std_sort CmpIndex
           (vec_get (offset p) i) (vec_get (offset p) (S i)) h_data)
      (data p) in
  mkPage (offset p) h_data (base_rowid p).

Definition SortRows (std_sort : (Entry → Entry → bool) → list Entry → list Entry)
    (sched : nat → nat) (p : SparsePage) : SparsePage :=
  let h_data :=
    ParallelFor (Size p) sched
      (λ i _ h_data,
         if decide (vec_get (offset p) i < vec_get (offset p) (S i))
         then sort_range std_sort CmpValue
                (vec_get (offset p) i) (vec_get (offset p) (S i)) h_data
         else h_data)
      (data p) in
  mkPage (offset p) h_data (base_rowid p).

(** ** Reindex (data.cc:1077-1082) *)

(** [h_data[i].index += feature_offset]: the sum is formed in 64 bits and
    stored back into the 32-bit index. *)
Definition reindex_entry (feature_offset : Z) (e : Entry) : Entry :=
  mkEntry (wrap32 (wrap64 (index e + feature_offset))) (fvalue e).

Definition Reindex (feature_offset : Z) (sched : nat → nat) (p : SparsePage)
    : SparsePage :=
  let h_data :=
    ParallelFor (length (data p)) sched
      (λ i _ h_data, alter (reindex_entry feature_offset) i h_data) (data p) in
  mkPage (offset p) h_data (base_rowid p).

(** ** Push of another page (data.cc:1094-1110) *)

(** [std::memcpy(dst + dpos, src + spos, sizeof(Entry) * len)]; reading or
    writing outside either vector is undefined. *)
Definition memcpy (dst : list Entry) (dpos : nat) (src : list Entry)
    (spos len : nat) : result (list Entry) :=
  if decide (len = 0)%nat then Ok dst
  else if decide (spos + len ≤ length src ∧ dpos + len ≤ length dst)%nat
  then Ok (list_inserts dpos (take len (drop spos src)) dst)
  else Err Undefined.

Definition Push_page (batch : SparsePage) (p : SparsePage) : result SparsePage :=
  match back (offset p) with
  | None => Err Undefined
  | Some top =>
      let data_vec :=
        resize (Z.to_nat (wrap64 (top + Z.of_nat (length (data batch)))))
               Entry_default (data p) in
      data_vec ←
        match data_vec, data batch with
        | _ :: _, _ :: _ =>
            memcpy data_vec (Z.to_nat top) (data batch) 0 (length (data batch))
        | _, _ => Ok data_vec
        end;
      let begin := length (offset p) in
      let offset_vec := resize (begin + Size batch) 0 (offset p) in
      let offset_vec :=
        foldl (λ offset_vec i,
                 <[(i + begin)%nat :=
                     wrap64 (top + vec_get (offset batch) (i + 1))]> offset_vec)
              offset_vec (seq 0 (Size batch)) in
      Ok (mkPage offset_vec data_vec (base_rowid p))
  end.

(** ** Push of an adapter batch (data.cc:1112-1209) *)

(** Modelled from the spec: [data::COOTuple] and the adapter batches are
    declared in [data/adapter.h], which is not among the sources.  A batch
    has [Size()] lines, a line a sequence of [(row_idx, column_idx, value)]
    tuples; both indices are 64-bit unsigned. *)
Record COOTuple : Type := mkCOO {
  row_idx : Z;
  column_idx : Z;
  value : spec_float
}.

Record AdapterBatch : Type := mkBatch {
  kIsRowMajor : bool;
  lines : list (list COOTuple)
}.

(** Modelled from the spec: [data::IsValidFunctor] is declared in
    [data/adapter.h], which is not among the sources; the Validity Filter
    keeps a value that is not NaN and not equal to [missing]. *)
Definition IsValidFunctor (missing : spec_float) (element : COOTuple) : bool :=
  negb (CheckNAN (value element)) && float_ne (value element) missing.

(** The lines [begin, end) that worker [tid] walks in both passes. *)
Definition thread_lines (batch : AdapterBatch) (thread_size nthread tid : nat)
    : list (list COOTuple) :=
  let batch_size := length (lines batch) in
  let begin := (tid * thread_size)%nat in
  let en :=
    if decide (tid ≠ nthread - 1)%nat then ((tid + 1) * thread_size)%nat
    else batch_size in
  take (en - begin) (drop begin (lines batch)).

(** What the first pass carries: the builder, the shared [valid] flag and
    [max_columns_vector]. *)
Record count_state : Type := mkCount {
  cs_builder : PGB;
  cs_valid : bool;
  cs_max_columns : list Z
}.

(** The body of the first pass for one tuple (data.cc:1161-1174). *)
Definition count_element (missing : spec_float) (base_rowid : Z)
    (builder_base_row_offset : nat) (tid : nat)
    (st : count_state) (element : COOTuple) : result count_state :=
  let valid :=
    if negb (isinf missing) && isinf (value element) then false
    else cs_valid st in
  let key := wrap64 (row_idx element - base_rowid) in
  if decide (key < Z.of_nat builder_base_row_offset) then Err CheckKeyGE else
  let max_columns_vector :=
    alter (λ max_columns_local,
             Z.max max_columns_local (wrap64 (column_idx element + 1)))
          tid (cs_max_columns st) in
  builder ←
    (if negb (CheckNAN (value element)) && float_ne (value element) missing
     then ParallelGroupBuilder.AddBudget (Z.to_nat key) tid (cs_builder st)
     else Ok (cs_builder st));
  Ok (mkCount builder valid max_columns_vector).

(** The body of the second pass for one tuple (data.cc:1198-1202). *)
Definition place_element (missing : spec_float) (base_rowid : Z) (tid : nat)
    (builder : PGB) (element : COOTuple) : result PGB :=
  let key := wrap64 (row_idx element - base_rowid) in
  if IsValidFunctor missing element
  then ParallelGroupBuilder.Push (Z.to_nat key)
         (Entry_ctor (column_idx element) (value element)) tid builder
  else Ok builder.

(** Both passes walk the threads' slices; a worker ends at its first
    failure and the failure is rethrown after the parallel region. *)
Definition for_each_thread {S : Type} (batch : AdapterBatch)
    (thread_size nthread : nat) (body : nat → S → COOTuple → result S) (s : S)
    : result S :=
  foldlM (λ s tid,
            foldlM (λ s line, foldlM (body tid) s line) s
                   (thread_lines batch thread_size nthread tid))
         s (seq 0 nthread).

(** The estimate of the number of rows handed to the builder
    (data.cc:1127-1138): the row of the last tuple of the last line, or
    the number of lines for a row-major batch. *)
Definition expected_rows (batch : AdapterBatch) (base_rowid : Z) : Z :=
  let expected_rows :=
    match last (lines batch) with
    | Some last_line =>
        match last last_line with
        | Some element => wrap64 (row_idx element - base_rowid)
        | None => 0
        end
    | None => 0
    end in
  let batch_size := length (lines batch) in
  if kIsRowMajor batch then Z.of_nat batch_size else expected_rows.

Definition Push (batch : AdapterBatch) (missing : spec_float) (nthread : Z)
    (p : SparsePage) : result (SparsePage * Z) :=
  let nthread := if kIsRowMajor batch then nthread else 1 in
  let builder_base_row_offset := Size p in
  let builder :=
    ParallelGroupBuilder.make (kIsRowMajor batch) (offset p) (data p)
      builder_base_row_offset in
  let expected_rows := expected_rows batch (base_rowid p) in
  let batch_size := length (lines batch) in
  let max_columns := 0 in
  if decide (batch_size = 0)%nat then Ok (p, max_columns) else
  if decide (nthread < 1) then Err Undefined else
  let thread_size := Z.to_nat (Z.of_nat batch_size / nthread) in
  let builder :=
    ParallelGroupBuilder.InitBudget
      (Z.to_nat expected_rows) (Z.to_nat nthread) builder in
  counted ←
    for_each_thread batch thread_size (Z.to_nat nthread)
      (λ tid st element,
         count_element missing (base_rowid p) builder_base_row_offset tid
           st element)
      (mkCount builder true (replicate (Z.to_nat nthread) 0));
  if negb (cs_valid counted) then Err InfInData else
  let max_columns := foldl Z.max max_columns (cs_max_columns counted) in
  let builder := ParallelGroupBuilder.InitStorage (cs_builder counted) in
  builder ←
    for_each_thread batch thread_size (Z.to_nat nthread)
      (λ tid b element, place_element missing (base_rowid p) tid b element)
      builder;
  Ok (mkPage (ParallelGroupBuilder.offset_vec builder)
             (ParallelGroupBuilder.data_vec builder) (base_rowid p),
      max_columns).

(** ** PushCSC (data.cc:1211-1269) *)

(** [v.at(i)]. *)
Definition at_ (v : list Z) (i : nat) : result Z :=
  match v !! i with Some x => Ok x | None => Err AtOutOfRange end.

(** What the merge loop carries: the fresh [offset] and [data] vectors and
    the counters [beg] and [ptr]. *)
Record merge_state : Type := mkMerge {
  ms_offset : list Z;
  ms_data : list Entry;
  ms_beg : Z;
  ms_ptr : nat
}.

(** One iteration of the loop over the features (data.cc:1241-1265). *)
Definition merge_feature (self_offset : list Z) (self_data : list Entry)
    (other_offset : list Z) (other_data : list Entry)
    (st : merge_state) (i : nat) : result merge_state :=
  self_beg ← at_ self_offset i;
  self_end ← at_ self_offset (i + 1);
  let self_length := wrap64 (self_end - self_beg) in
  if decide (Z.of_nat (length (ms_data st)) < ms_beg st) then Err CheckBegLE else
  data ← memcpy (ms_data st) (Z.to_nat (ms_beg st)) self_data
                (Z.to_nat self_beg) (Z.to_nat self_length);
  let beg := wrap64 (ms_beg st + self_length) in
  other_beg ← at_ other_offset i;
  other_end ← at_ other_offset (i + 1);
  let other_length := wrap64 (other_end - other_beg) in
  if decide (Z.of_nat (length data) < beg) then Err CheckBegLE else
  data ← memcpy data (Z.to_nat beg) other_data
                (Z.to_nat other_beg) (Z.to_nat other_length);
  let beg := wrap64 (beg + other_length) in
  if decide (ms_ptr st < length (ms_offset st))%nat
  then Ok (mkMerge (<[ms_ptr st := beg]> (ms_offset st)) data beg (S (ms_ptr st)))
  else Err CheckPtrLT.

Definition PushCSC (batch : SparsePage) (p : SparsePage) : result SparsePage :=
  let self_data := data p in
  let self_offset := offset p in
  let other_data := data batch in
  let other_offset := offset batch in
  match other_data with
  | [] => Ok (mkPage other_offset self_data (base_rowid p))
  | _ :: _ =>
      match self_data with
      | [] => Ok (mkPage other_offset other_data (base_rowid p))
      | _ :: _ =>
          if decide (length self_offset ≠ length other_offset)
          then Err CheckOffsetSizeEQ
          else
            match other_offset with
            | [] => Err Undefined
            | _ :: _ =>
                let offset := replicate (length other_offset) 0 in
                let data :=
                  replicate (length self_data + length other_data) Entry_default in
                let n_features := (length other_offset - 1)%nat in
                merged ←
                  foldlM (merge_feature self_offset self_data other_offset other_data)
                         (mkMerge offset data 0 1) (seq 0 n_features);
                Ok (mkPage (ms_offset merged) (ms_data merged) (base_rowid p))
            end
      end
  end.

(** ** Example inputs *)

(** A page with one entry in its first column, and an empty page of the
    same two columns. *)
Definition csc_one : SparsePage :=
  mkPage [0; 1; 1] [mkEntry 0 f32_1] 0.
Definition csc_none : SparsePage := mkPage [0; 0; 0] [] 0.

(** ** Sortedness of a row *)

(** A row is ascending by column index when no entry has a smaller index
    than an entry before it. *)
Definition ascending_by_index (row : list Entry) : Prop :=
  StronglySorted (λ a b, index a ≤ index b) row.

(** The sum of a vector of counters. *)
Definition zsum (l : list Z) : Z := foldr Z.add 0 l.
Global Arguments zsum : simpl never.

(** How many of the first [k] rows pass a test. *)
Definition count_rows (f : nat → bool) (k : nat) : Z :=
  zsum ((λ i, Z.b2z (f i)) <$> seq 0 k).

(** Two rows of two entries; the second row is out of order. *)
Definition page_unsorted_row : SparsePage :=
  mkPage [0; 2; 4]
         [mkEntry 0 (S754_zero false); mkEntry 2 (S754_zero false);
          mkEntry 3 (S754_zero false); mkEntry 1 (S754_zero false)] 0.

(** ** The two passes over a builder, as a run over events

    Both users of the builder walk the same sequence of records twice:
    once to count, once to place.  An event is one record of that walk:
    the worker that sees it, the group it goes to and the entry placed. *)

Record event : Type := mkEvent {
  ev_tid : nat;
  ev_key : nat;
  ev_entry : Entry
}.

Definition count_pass (b : PGB) (evs : list event) : result PGB :=
  foldlM (λ b ev, ParallelGroupBuilder.AddBudget (ev_key ev) (ev_tid ev) b) b evs.

Definition place_pass (b : PGB) (evs : list event) : result PGB :=
  foldlM (λ b ev,
            ParallelGroupBuilder.Push (ev_key ev) (ev_entry ev) (ev_tid ev) b)
         b evs.

Definition two_pass (is_row_major : bool) (offset_vec : list Z)
    (data_vec : list Entry) (base max_key num_threads : nat)
    (evs : list event) : result PGB :=
  b ← count_pass
         (ParallelGroupBuilder.InitBudget max_key num_threads
            (ParallelGroupBuilder.make is_row_major offset_vec data_vec base))
         evs;
  place_pass (ParallelGroupBuilder.InitStorage b) evs.

(** The entries worker [t] sends to group [base + g], in the order of the
    walk. *)
Definition cell_entries (base : nat) (evs : list event) (t g : nat) : list Entry :=
  ev_entry <$>
    filter (λ ev, ev_tid ev = t ∧ ev_key ev = (base + g)%nat) evs.

Definition cell_count (base : nat) (evs : list event) (t g : nat) : nat :=
  length (cell_entries base evs t g).

(** The entries the workers before [t] send to group [base + g]. *)
Definition before_threads (base : nat) (evs : list event) (t g : nat) : nat :=
  sum_list ((λ t', cell_count base evs t' g) <$> seq 0 t).

(** The entries sent to the groups before [base + g] by [T] workers. *)
Definition before_groups (base : nat) (evs : list event) (T g : nat) : nat :=
  sum_list ((λ g', before_threads base evs T g') <$> seq 0 g).

(** Where the slots of worker [t] in group [base + g] start. *)
Definition cell_start (base : nat) (evs : list event) (T top t g : nat) : nat :=
  (top + before_groups base evs T g + before_threads base evs t g)%nat.

(** The entries of group [base + g] in their final order: by worker, then
    by the order of the walk. *)
Definition group_entries (base : nat) (evs : list event) (T g : nat) : list Entry :=
  mjoin ((λ t, cell_entries base evs t g) <$> seq 0 T).

(** The events of [GetTranspose]: every entry of every row goes to the
    group of its column, as an entry that carries the row. *)
Definition transpose_events (sched : nat → nat) (p : SparsePage) : list event :=
  mjoin ((λ i,
            (λ entry,
               mkEvent (sched i) (Z.to_nat (index entry))
                 (Entry_ctor (wrap32 (wrap64 (base_rowid p + Z.of_nat i)))
                             (fvalue entry)))
            <$> row_slice (offset p) (data p) i)
         <$> seq 0 (Size p)).

(** All the tuples of a batch, line after line. *)
Definition batch_tuples (batch : AdapterBatch) : list COOTuple :=
  mjoin (lines batch).

(** The tuples the workers walk, each with the id of its worker, worker
    after worker. *)
Definition tagged_tuples (batch : AdapterBatch) (thread_size nthread : nat)
    : list (nat * COOTuple) :=
  mjoin ((λ tid, (λ element, (tid, element))
                 <$> mjoin (thread_lines batch thread_size nthread tid))
         <$> seq 0 nthread).

(** The row of a tuple relative to the page: [row_idx - base_rowid] in
    [size_t]. *)
Definition tuple_key (base_rowid : Z) (element : COOTuple) : Z :=
  wrap64 (row_idx element - base_rowid).

(** The entry [Push] builds from a tuple. *)
Definition tuple_entry (element : COOTuple) : Entry :=
  Entry_ctor (column_idx element) (value element).

(** The event of a tuple that passes the Validity Filter. *)
Definition tuple_event (base_rowid : Z) (x : nat * COOTuple) : event :=
  mkEvent x.1 (Z.to_nat (tuple_key base_rowid x.2)) (tuple_entry x.2).

(** The events of [Push]: every tuple that passes the Validity Filter. *)
Definition push_events (missing : spec_float) (base_rowid : Z)
    (xs : list (nat * COOTuple)) : list event :=
  tuple_event base_rowid
    <$> filter (λ x, IsValidFunctor missing x.2 = true) xs.

(** The admissibility test of the first pass: a tuple is inadmissible
    when [missing] is not infinite and its value is. *)
Definition admissible (missing : spec_float) (element : COOTuple) : bool :=
  negb (negb (isinf missing) && isinf (value element)).

(** The column count one tuple asks for: [column_idx + 1] in 64 bits. *)
Definition tuple_columns (element : COOTuple) : Z :=
  wrap64 (column_idx element + 1).

(** A per-thread table with [T] rows, row [t] of [len t] slots, whose
    slot [g] of row [t] holds [f t g]. *)
Definition table_is (tbl : list (list nat)) (T : nat) (len : nat → nat)
    (f : nat → nat → nat) : Prop :=
  length tbl = T ∧
  ∀ t, (t < T)%nat →
    ∃ row, tbl !! t = Some row ∧ length row = len t ∧
           ∀ g, (g < len t)%nat → row !! g = Some (f t g).

(** An event of worker [t] for group [base + g]. *)
Definition hits (base : nat) (ev : event) (t g : nat) : Prop :=
  ev_tid ev = t ∧ ev_key ev = (base + g)%nat.

(** The events a run of [T] workers from [base] may hold: no group lies
    below the base. *)
Definition events_above (base T : nat) (evs : list event) : Prop :=
  Forall (λ ev, (ev_tid ev < T)%nat ∧ (base ≤ ev_key ev)%nat) evs.

(** The events whose groups are among the first [G] from [base]. *)
Definition events_below (base G : nat) (evs : list event) : Prop :=
  Forall (λ ev, (ev_key ev - base < G)%nat) evs.

(** The events every worker has a slot for, when worker [t] has [len t]
    slots. *)
Definition events_fit (base T : nat) (len : nat → nat) (evs : list event)
    : Prop :=
  Forall (λ ev, (ev_tid ev < T)%nat ∧ (base ≤ ev_key ev)%nat ∧
                (ev_key ev - base < len (ev_tid ev))%nat) evs.

(** What holds during the placement pass once the events [pre] of the
    walk [all] are placed: every cursor stands after the entries its
    worker has placed in its group, the data below [top] is what it was,
    and every placed entry sits in its cell. *)
Definition placed (base T : nat) (len : nat → nat) (top : nat)
    (all pre : list event) (d0 : list Entry) (b : PGB) : Prop :=
  ParallelGroupBuilder.base_row_offset b = base ∧
  table_is (ParallelGroupBuilder.cursor b) T len
    (λ t g, (cell_start base all T top t g + cell_count base pre t g)%nat) ∧
  length (ParallelGroupBuilder.data_vec b) = length d0 ∧
  (∀ q, (q < top)%nat → ParallelGroupBuilder.data_vec b !! q = d0 !! q) ∧
  (∀ t g j x, (t < T)%nat →
     cell_entries base pre t g !! j = Some x →
     ParallelGroupBuilder.data_vec b !! (cell_start base all T top t g + j)%nat
     = Some x).

(** The triple an event leaves in the page built from it: the group is the
    row, the entry gives column and value. *)
Definition ev_triple (ev : event) : Z * Z * spec_float :=
  (Z.of_nat (ev_key ev), index (ev_entry ev), fvalue (ev_entry ev)).

(** One row holding one entry, on a page that starts at global row 1. *)
Definition page_from_row_1 : SparsePage :=
  mkPage [0; 1] [mkEntry 0 f32_1] 1.

(** One line with one tuple at row 0, column 0: an infinite value, and
    the value 1. *)
Definition batch_infinite : AdapterBatch :=
  mkBatch true [[mkCOO 0 0 (S754_infinity false)]].
Definition batch_one : AdapterBatch :=
  mkBatch true [[mkCOO 0 0 f32_1]].

(** A page that already holds one (empty) row. *)
Definition page_one_row : SparsePage := mkPage [0; 0] [] 0.

(** One line at row 0 with the values 1, NaN, 0 and 0 in columns 0 to 3
    (the example of section 8 of the specification), row-major and
    column-major. *)
Definition tuples_1_nan_0_0 : list COOTuple :=
  [mkCOO 0 0 f32_1; mkCOO 0 1 S754_nan;
   mkCOO 0 2 (S754_zero false); mkCOO 0 3 (S754_zero false)].
Definition batch_1_nan_0_0 (row_major : bool) : AdapterBatch :=
  mkBatch row_major [tuples_1_nan_0_0].

(** A worker keeps the largest column count among the tuples it saw
    ([max_columns_local], data.cc:1167). *)
Definition keep_max (cols : COOTuple → Z) (m : list Z) (x : nat * COOTuple)
    : list Z :=
  alter (λ c, Z.max c (cols x.2)) x.1 m.

(** ** Well-formed pages *)

(** The offsets of a page as the specification gives them (section 3):
    they begin at zero, never descend and end at the size of the data. *)
Definition well_formed (p : SparsePage) : Prop :=
  offset p !! 0%nat = Some 0 ∧
  (∀ i a b, offset p !! i = Some a → offset p !! S i = Some b → a ≤ b) ∧
  back (offset p) = Some (Z.of_nat (length (data p))).

(** ** The inputs of the examples of the specification (section 8) *)

(** Two batches of one line each: the value 5 at (row 0, column 0), then
    the value 6 at (row 1, column 1). *)
Definition batch_5 : AdapterBatch := mkBatch true [[mkCOO 0 0 f32_5]].
Definition batch_6 : AdapterBatch := mkBatch true [[mkCOO 1 1 f32_6]].

(** One row with the entries (0, 1.0) and (2, 2.0). *)
Definition page_row_0_2 : SparsePage :=
  mkPage [0; 2] [mkEntry 0 f32_1; mkEntry 2 f32_2] 0.

(** A page of two columns whose second column holds (row 1, 2.0). *)
Definition csc_other : SparsePage := mkPage [0; 0; 1] [mkEntry 1 f32_2] 0.


(** ** An instance of [std::sort] for the examples *)

(** Merge sort by [comp]: an element goes before another unless [comp]
    puts the other first. *)
Definition merge_sort_by (comp : Entry → Entry → bool) (l : list Entry)
    : list Entry :=
  @merge_sort Entry (λ a b, comp b a = false)
    (λ a b, decide (comp b a = false)) l.


(** ** The entries of a line *)




(** * Meta information (data.cc:202-883) *)

(** ** Gather (data.cc:370-385)

    [Gather(in, ridxs, stride)] copies, for every index of [ridxs] in
    turn, the [stride] elements of [in] that start at [ridx * stride].
    The positions are computed in 64 bits; [operator[]] past the end of a
    vector is undefined. *)
Definition Gather {T : Type} (T_default : T) (in_ : list T) (ridxs : list Z)
    (stride : Z) : result (list T) :=
  match in_ with
  | [] => Ok []
  | _ :: _ =>
      let size := length ridxs in
      let out :=
        replicate (Z.to_nat (wrap64 (Z.of_nat size * stride))) T_default in
      foldlM (λ out i,
                let ridx := vec_get ridxs i in
                foldlM (λ out j,
                          match in_ !! Z.to_nat (wrap64 (ridx * stride + Z.of_nat j)) with
                          | None => Err Undefined
                          | Some x =>
                              let pos :=
                                Z.to_nat (wrap64 (Z.of_nat i * stride + Z.of_nat j)) in
                              if decide (pos < length out)%nat
                              then Ok (<[pos := x]> out)
                              else Err Undefined
                          end)
                       out (seq 0 (Z.to_nat stride)))
             out (seq 0 size)
  end.

(** The block of [stride] elements that row [ridx] names. *)
Definition gathered_row {T : Type} (in_ : list T) (stride : Z) (ridx : Z)
    : list T :=
  take (Z.to_nat stride) (drop (Z.to_nat (ridx * stride)) in_).


(** ** Feature information and [MetaInfo::Extend] (data.cc:278-299, 654-785)

    A failing [CHECK] or [LOG(FATAL)] of this part is a [fatal]; the
    object a failing member function leaves behind is not modelled. *)
Inductive fatal : Type :=
  | FeatureTypeUnknown   (* LOG(FATAL) << "All feature_types must be one of ..." *)
  | FeatureInfoLength    (* CHECK_EQ(size, this->num_col_), CHECK_EQ(result.size(), n_columns) *)
  | FeatureInfoNull      (* CHECK(info) *)
  | FeatureInfoUnknown   (* LOG(FATAL) << "Unknown feature info ..." *)
  | ColumnsInconsistent  (* CHECK_EQ(this->num_col_, that.num_col_) *)
  | GroupPtrEmpty        (* CHECK_NE(that.group_ptr_.size(), 0) *)
  | CalleeFailed         (* a failure inside a function of another file *)
  | ReadOutside.         (* undefined behaviour: a read outside an array *)

Inductive checked (A : Type) : Type :=
  | Done (a : A)
  | Fatal (f : fatal).
Arguments Done {A} a.
Arguments Fatal {A} f.

Global Instance checked_ret : MRet checked := λ A a, Done a.
Global Instance checked_bind : MBind checked := λ A B f m,
  match m with Done a => f a | Fatal e => Fatal e end.

Definition is_Fatal {A} (r : checked A) : Prop :=
  match r with Done _ => False | Fatal _ => True end.

(** A range-for whose body can fail: the first failure ends it. *)
Definition for_each {A B : Type} (f : A → B → checked A) (a : A) (l : list B)
    : checked A :=
  foldl (λ r x, r ≫= λ a, f a x) (Done a) l.

(** The two feature types [LoadFeatureType] produces. *)
Inductive FeatureType : Type := kNumerical | kCategorical.

Global Instance FeatureType_eq_dec : EqDecision FeatureType.
Proof. solve_decision. Defined.

(** [LoadFeatureType(type_names, types)]: the pair of the new contents of
    [*types] and the returned flag. *)
Definition LoadFeatureType (type_names : list string) (types : list FeatureType)
    : checked (list FeatureType * bool) :=
  let types : list FeatureType := [] in
  let has_cat := false in
  for_each (λ '(types, has_cat) elem,
              if decide (elem = "int") then
                Done (types ++ [kNumerical], has_cat)
              else if decide (elem = "float") then
                Done (types ++ [kNumerical], has_cat)
              else if decide (elem = "i") then
                Done (types ++ [kNumerical], has_cat)
              else if decide (elem = "q") then
                Done (types ++ [kNumerical], has_cat)
              else if decide (elem = "c") then
                Done (types ++ [kCategorical], true)
              else Fatal FeatureTypeUnknown)
           (types, has_cat) type_names.

(** The fields of [MetaInfo] that [SetFeatureInfo], [GetFeatureInfo] and
    [Extend] read or write.  [num_row_] and [num_col_] are 64-bit,
    [group_ptr_] holds 32-bit values (the table at data.cc:214-230).  A
    [HostDeviceVector] is the list of its host values; the two tensors are
    kept abstract. *)
Record MetaInfo (Tensor : Type) : Type := mkMetaInfo {
  num_row_ : Z;
  num_col_ : Z;
  labels : Tensor;
  weights_ : list spec_float;
  labels_lower_bound_ : list spec_float;
  labels_upper_bound_ : list spec_float;
  base_margin_ : Tensor;
  group_ptr_ : list Z;
  feature_names : list string;
  feature_type_names : list string;
  feature_types : list FeatureType;
  has_categorical_ : bool;
  feature_weights : list spec_float
}.
Arguments mkMetaInfo {Tensor}.
Arguments num_row_ {Tensor}.
Arguments num_col_ {Tensor}.
Arguments labels {Tensor}.
Arguments weights_ {Tensor}.
Arguments labels_lower_bound_ {Tensor}.
Arguments labels_upper_bound_ {Tensor}.
Arguments base_margin_ {Tensor}.
Arguments group_ptr_ {Tensor}.
Arguments feature_names {Tensor}.
Arguments feature_type_names {Tensor}.
Arguments feature_types {Tensor}.
Arguments has_categorical_ {Tensor}.
Arguments feature_weights {Tensor}.

(** [std::copy(info, info + size, ...)] on the array of C strings [info]
    points to; [None] is the null pointer. *)
Definition copy_strings (info : option (list string)) (size : Z)
    : checked (list string) :=
  match info with
  | None => if decide (size = 0) then Done [] else Fatal ReadOutside
  | Some strs =>
      if decide (size ≤ Z.of_nat (length strs))
      then Done (take (Z.to_nat size) strs)
      else Fatal ReadOutside
  end.

Section feature_info.
Context {Tensor : Type}.
(** Functions of other files: [MetaInfo::IsColumnSplit],
    [collective::AllgatherStrings] followed by [collective::SafeColl], and
    the value of [collective::GetRank]. *)
Context (IsColumnSplit : MetaInfo Tensor → bool).
Context (AllgatherStrings : list string → checked (list string)).
Context (GetRank : Z).

(** The lambda [gather_columns] of [SetFeatureInfo]. *)
Definition gather_columns (is_col_split : bool) (n_columns : Z)
    (inputs : list string) : checked (list string) :=
  if is_col_split then
    result ← AllgatherStrings inputs;
    if decide (Z.of_nat (length result) = n_columns)
    then Done result
    else Fatal FeatureInfoLength
  else Done inputs.

(** [MetaInfo::SetFeatureInfo(key, info, size)]; [size] is a 64-bit
    unsigned number. *)
Definition SetFeatureInfo (key : string) (info : option (list string))
    (size : Z) (this : MetaInfo Tensor) : checked (MetaInfo Tensor) :=
  let is_col_split := IsColumnSplit this in
  _ ← (if decide (size ≠ 0 ∧ num_col_ this ≠ 0 ∧ is_col_split = false) then
         if decide (size = num_col_ this) then
           match info with
           | Some _ => Done tt
           | None => Fatal FeatureInfoNull
           end
         else Fatal FeatureInfoLength
       else Done tt);
  if decide (key = "feature_type") then
    names ← copy_strings info size;
    names ← gather_columns is_col_split (num_col_ this) names;
    '(h_feature_types, has_cat) ← LoadFeatureType names (feature_types this);
    Done (mkMetaInfo (num_row_ this) (num_col_ this) (labels this)
            (weights_ this) (labels_lower_bound_ this)
            (labels_upper_bound_ this) (base_margin_ this) (group_ptr_ this)
            (feature_names this) names h_feature_types has_cat
            (feature_weights this))
  else if decide (key = "feature_name") then
    names ← (if is_col_split then
               strs ← copy_strings info size;
               Done ((λ elem, pretty GetRank +:+ "." +:+ elem)
                       <$> (strs : list string))
             else copy_strings info size);
    names ← gather_columns is_col_split (num_col_ this) names;
    Done (mkMetaInfo (num_row_ this) (num_col_ this) (labels this)
            (weights_ this) (labels_lower_bound_ this)
            (labels_upper_bound_ this) (base_margin_ this) (group_ptr_ this)
            names (feature_type_names this) (feature_types this)
            (has_categorical_ this) (feature_weights this))
  else Fatal FeatureInfoUnknown.

(** [MetaInfo::GetFeatureInfo(field, out_str_vecs)]: the new contents of
    [*out_str_vecs], resized and then overwritten from the start. *)
Definition GetFeatureInfo (field : string) (out_str_vecs : list string)
    (this : MetaInfo Tensor) : checked (list string) :=
  if decide (field = "feature_type") then
    let str_vecs := resize (length (feature_type_names this)) EmptyString out_str_vecs in
    Done (list_inserts 0 (feature_type_names this) str_vecs)
  else if decide (field = "feature_name") then
    let str_vecs := resize (length (feature_names this)) EmptyString out_str_vecs in
    Done (list_inserts 0 (feature_names this) str_vecs)
  else Fatal FeatureInfoUnknown.

End feature_info.

Section extend.
Context {Tensor : Type}.
(** Functions of other files: [linalg::Stack], [data::CheckFeatureTypes]
    and [common::IsCatOp]. *)
Context (Stack : Tensor → Tensor → checked Tensor).
Context (CheckFeatureTypes : list FeatureType → list FeatureType → checked ()).
Context (IsCatOp : FeatureType → bool).

(** The loop [group_ptr[i] += this->group_ptr_.back()] for [i] from 1 in
    32-bit arithmetic, on the copy of [that.group_ptr_]. *)
Definition shift_group_ptr (this_back : Z) (group_ptr : list Z) : list Z :=
  foldl (λ group_ptr i,
           <[i := wrap32 (vec_get group_ptr i + this_back)]> group_ptr)
        group_ptr (seq 1 (length group_ptr - 1)).

(** [MetaInfo::Extend(that, accumulate_rows, check_column)]. *)
Definition Extend (that : MetaInfo Tensor) (accumulate_rows check_column : bool)
    (this : MetaInfo Tensor) : checked (MetaInfo Tensor) :=
  let num_row :=
    if accumulate_rows then wrap64 (num_row_ this + num_row_ that)
    else num_row_ this in
  num_col ← (if decide (num_col_ this ≠ 0) then
               if check_column then
                 if decide (num_col_ this = num_col_ that)
                 then Done (num_col_ this)
                 else Fatal ColumnsInconsistent
               else Done (Z.max (num_col_ this) (num_col_ that))
             else Done (num_col_ this));
  let num_col := num_col_ that in
  labels' ← Stack (labels this) (labels that);
  let weights := weights_ this ++ weights_ that in
  let labels_lower_bound := labels_lower_bound_ this ++ labels_lower_bound_ that in
  let labels_upper_bound := labels_upper_bound_ this ++ labels_upper_bound_ that in
  base_margin ← Stack (base_margin_ this) (base_margin_ that);
  group_ptr ← match group_ptr_ this with
              | [] => Done (group_ptr_ that)
              | _ :: _ =>
                  if decide (length (group_ptr_ that) ≠ 0%nat) then
                    let group_ptr :=
                      shift_group_ptr (default 0 (back (group_ptr_ this)))
                                      (group_ptr_ that) in
                    Done (group_ptr_ this ++ drop 1 group_ptr)
                  else Fatal GroupPtrEmpty
              end;
  let names :=
    if decide (feature_names that ≠ []) then feature_names that
    else feature_names this in
  _ ← (if decide (feature_types this ≠ [])
       then CheckFeatureTypes (feature_types this) (feature_types that)
       else Done tt);
  '(type_names, types, has_cat) ←
    (if decide (feature_type_names that ≠ []) then
       '(h_feature_types, has_cat) ←
         LoadFeatureType (feature_type_names that) (feature_types this);
       Done (feature_type_names that, h_feature_types, has_cat)
     else if decide (feature_types that ≠ []) then
       let ft := feature_types that in
       Done (feature_type_names this, ft, existsb IsCatOp ft)
     else
       Done (feature_type_names this, feature_types this,
             has_categorical_ this));
  let weights' :=
    if decide (feature_weights that ≠ []) then feature_weights that
    else feature_weights this in
  Done (mkMetaInfo num_row num_col labels' weights labels_lower_bound
          labels_upper_bound base_margin group_ptr names type_names types
          has_cat weights').

End extend.

(** Example inputs. *)
Definition meta_empty : MetaInfo (list Z) :=
  mkMetaInfo 0 0 [] [] [] [] [] [] [] [] [] false [].

(** The names [LoadFeatureType] accepts, and the type each of them stands
    for. *)
Definition feature_type_name (elem : string) : Prop :=
  elem ∈ ["int"; "float"; "i"; "q"; "c"].

Global Instance feature_type_name_dec elem : Decision (feature_type_name elem).
Proof. unfold feature_type_name. apply _. Defined.

Definition type_of_name (elem : string) : FeatureType :=
  if decide (elem = "c") then kCategorical else kNumerical.

Definition meta_two_columns : MetaInfo (list Z) :=
  mkMetaInfo 3 2 [] [] [] [] [] [] [] [] [] false [].

Definition meta_two_types : MetaInfo (list Z) :=
  mkMetaInfo 3 2 [] [] [] [] [] [] [] ["q"; "c"] [kNumerical; kCategorical]
             true [].

Definition meta_two_names : MetaInfo (list Z) :=
  mkMetaInfo 3 2 [] [] [] [] [] [] ["0.a"; "0.a"] [] [] false [].

(** Group pointers as the ranking code expects them: they start at 0 and
    never decrease; the sizes of the groups are the differences of
    neighbours. *)
Definition valid_group_ptr (group_ptr : list Z) : Prop :=
  group_ptr !! 0%nat = Some 0 ∧ StronglySorted Z.le group_ptr.

Definition group_sizes (group_ptr : list Z) : list Z :=
  zip_with Z.sub (drop 1 group_ptr) group_ptr.

Definition meta_groups_2_1 : MetaInfo (list Z) :=
  mkMetaInfo 3 2 [] [] [] [] [] [0; 2; 3] [] [] [] false [].

Definition meta_groups_4 : MetaInfo (list Z) :=
  mkMetaInfo 4 5 [] [] [] [] [] [0; 4] [] [] [] false [].

Definition meta_groups_2_1_4 : MetaInfo (list Z) :=
  mkMetaInfo 7 5 [] [] [] [] [] [0; 2; 3; 7] [] [] [] false [].

Definition stack_lists (a b : list Z) : checked (list Z) := Done (a ++ b).

Definition same_types (a b : list FeatureType) : checked () :=
  if decide (a = b) then Done tt else Fatal CalleeFailed.

Definition is_cat (t : FeatureType) : bool := bool_decide (t = kCategorical).

(** A column-major batch of one column: an entry in row 1 and a NaN in
    row 4. *)
Definition batch_column_gap : AdapterBatch :=
  mkBatch false [[mkCOO 1 0 f32_1; mkCOO 4 0 S754_nan]].

(** A page of [n] rows that hold no entry. *)
Definition page_empty_rows (n : nat) : SparsePage :=
  mkPage (replicate (S n) 0) [] 0.

(** A row-major batch of one line with an entry in the last column that
    64 bits can number, and one in column 5. *)
Definition batch_last_column : AdapterBatch :=
  mkBatch true [[mkCOO 0 (2 ^ 64 - 1) f32_1; mkCOO 0 5 f32_2]].

(** * Properties *)

Lemma wrap32_wrap64 z : wrap32 (wrap64 z) = wrap32 z.
Proof.
  unfold wrap32, wrap64.
  apply Z.mod_mod_divide. exists (2 ^ 32). reflexivity.
Qed.

Section parallel_for.
Context {A : Type}.

(** A loop that rewrites element [i] at iteration [i] is a map. *)
Lemma foldl_alter_seq (f : A → A) (l : list A) (n : nat) :
  foldl (λ h i, alter f i h) l (seq 0 n) = (f <$> take n l) ++ drop n l.
Proof.
  induction n as [|n IH].
  - by rewrite take_0, drop_0.
  - rewrite seq_S, foldl_app, IH. cbn [foldl Nat.add].
    destruct (decide (n < length l)%nat) as [Hlt|Hge].
    + destruct (lookup_lt_is_Some_2 l n Hlt) as [x Hx].
      rewrite (take_S_r _ _ _ Hx), fmap_app, <- app_assoc.
      rewrite (drop_S _ _ _ Hx). cbn.
      rewrite alter_app_r_alt by (rewrite length_fmap, length_take; lia).
      rewrite length_fmap, length_take.
      replace (n - n `min` length l)%nat with 0%nat by lia.
      done.
    + rewrite !take_ge, !drop_ge, !app_nil_r by lia.
      apply list_eq. intros j. rewrite list_lookup_alter.
      case_decide as Hj; [|done]. subst j.
      rewrite !lookup_ge_None_2; [done|rewrite length_fmap; lia].
Qed.

Lemma ParallelFor_alter (f : A → A) (sched : nat → nat) (l : list A) :
  ParallelFor (length l) sched (λ i _ h, alter f i h) l = f <$> l.
Proof.
  unfold ParallelFor. rewrite foldl_alter_seq.
  by rewrite firstn_all, drop_all, app_nil_r.
Qed.
End parallel_for.

(** C10. [Reindex] touches nothing but the column indices: the offset
    array, [base_rowid], the number of rows and the number of entries are
    those of the page it started from, and the entry at every position
    keeps its value while its index becomes the old index plus
    [feature_offset], reduced to the 32 bits of the index field. *)
Theorem Reindex_frame (feature_offset : Z) (sched : nat → nat) (p : SparsePage) :
  offset (Reindex feature_offset sched p) = offset p ∧
  base_rowid (Reindex feature_offset sched p) = base_rowid p ∧
  Size (Reindex feature_offset sched p) = Size p ∧
  length (data (Reindex feature_offset sched p)) = length (data p) ∧
  ∀ i e, data p !! i = Some e →
    ∃ e', data (Reindex feature_offset sched p) !! i = Some e' ∧
          fvalue e' = fvalue e ∧
          index e' = wrap32 (index e + feature_offset).
Proof.
  unfold Reindex, Size. cbn [offset data base_rowid].
  rewrite ParallelFor_alter.
  repeat split; [by rewrite length_fmap|].
  intros i e Hi. exists (reindex_entry feature_offset e).
  rewrite list_lookup_fmap, Hi. cbn.
  by rewrite wrap32_wrap64.
Qed.

(** ** Failures of the result monad *)

Lemma bind_Ok {A B} (f : A → result B) (a : A) : Ok a ≫= f = f a.
Proof. reflexivity. Qed.

Lemma bind_Err {A B} (f : A → result B) (e : error) : Err e ≫= f = Err e.
Proof. reflexivity. Qed.

Lemma bind_Ok_inv {A B} (f : A → result B) (m : result A) (b : B) :
  m ≫= f = Ok b → ∃ a, m = Ok a ∧ f a = Ok b.
Proof. destruct m as [a|e]; [eauto | discriminate]. Qed.

Lemma foldlM_nil {A B} (f : A → B → result A) a : foldlM f a [] = Ok a.
Proof. reflexivity. Qed.

Lemma foldl_Err {A B} (f : A → B → result A) e l :
  foldl (λ r x, r ≫= λ a, f a x) (Err e) l = Err e.
Proof. induction l; [done | by cbn]. Qed.

Lemma foldlM_cons {A B} (f : A → B → result A) a x l :
  foldlM f a (x :: l) = f a x ≫= λ a', foldlM f a' l.
Proof.
  unfold foldlM. cbn [foldl]. rewrite bind_Ok.
  destruct (f a x) as [a'|e]; [done | apply foldl_Err].
Qed.

Lemma foldlM_app {A B} (f : A → B → result A) a l1 l2 :
  foldlM f a (l1 ++ l2) = foldlM f a l1 ≫= λ a', foldlM f a' l2.
Proof.
  revert a. induction l1 as [|x l1 IH]; intros a; [done|].
  cbn [app]. rewrite !foldlM_cons.
  destruct (f a x) as [a'|e]; [apply IH | done].
Qed.

(** ** Push of an adapter batch: the empty batch *)

(** C6. Pushing a batch with zero lines returns 0 and hands back the page
    it was given: [offset], [data] and [base_rowid] are unchanged,
    whatever the sentinel and the thread count. *)
Theorem Push_empty_batch (batch : AdapterBatch) (missing : spec_float)
    (nthread : Z) (p : SparsePage) :
  length (lines batch) = 0%nat →
  Push batch missing nthread p = Ok (p, 0).
Proof.
  intros Hlen. unfold Push. rewrite Hlen.
  by rewrite decide_True by reflexivity.
Qed.

Lemma Push_empty_batch_witness :
  length (lines (mkBatch true [])) = 0%nat ∧
  Push (mkBatch true []) S754_nan 4
       (mkPage [0; 1] [mkEntry 3 (S754_zero false)] 7)
  = Ok (mkPage [0; 1] [mkEntry 3 (S754_zero false)] 7, 0).
Proof.
  split; [reflexivity|].
  apply (Push_empty_batch (mkBatch true []) S754_nan 4). reflexivity.
Defined.

(** ** PushCSC: the degenerate branches *)

(** What the first branch does (data.cc:1218-1221): the incoming offsets
    replace the page's, the page's data stays. *)
Lemma PushCSC_other_empty (batch p : SparsePage) :
  data batch = [] →
  PushCSC batch p = Ok (mkPage (offset batch) (data p) (base_rowid p)).
Proof. intros Hd. unfold PushCSC. by rewrite Hd. Qed.

(** What the second branch does (data.cc:1226-1230): an empty page takes
    over the incoming data and offsets. *)
Lemma PushCSC_self_empty (batch p : SparsePage) :
  data p = [] →
  PushCSC batch p = Ok (mkPage (offset batch) (data batch) (base_rowid p)).
Proof.
  intros Hd. unfold PushCSC. rewrite Hd. by destruct (data batch).
Qed.

(** C3. Merging the empty two-column page [csc_none] into the non-empty
    page [csc_one] does not keep the offsets of [csc_one]: they become
    those of the empty page, [0; 0; 0], while the entry stays in [data]. *)
Theorem PushCSC_empty_other_overwrites_offsets :
  data csc_none = [] ∧ data csc_one ≠ [] ∧
  ∃ p', PushCSC csc_none csc_one = Ok p' ∧
        data p' = data csc_one ∧
        offset p' = [0; 0; 0] ∧ offset p' ≠ offset csc_one.
Proof.
  split; [reflexivity|]. split; [discriminate|].
  eexists. split; [reflexivity|]. cbn. repeat split. discriminate.
Qed.

(** C1. Both [csc_one] and [csc_none] satisfy the shape invariant, and
    after [csc_one.PushCSC(csc_none)] the page does not: it holds one
    entry while its last offset is 0. *)
Theorem PushCSC_breaks_shape_invariant :
  shape_invariant csc_one ∧ shape_invariant csc_none ∧
  ∃ p', PushCSC csc_none csc_one = Ok p' ∧
        length (data p') = 1%nat ∧ back (offset p') = Some 0 ∧
        ¬ shape_invariant p'.
Proof.
  split; [by split|]. split; [by split|].
  eexists. split; [reflexivity|]. cbn. repeat split.
  intros [Hback _]. cbn in Hback. discriminate.
Qed.

(** ** Push of another page *)

Section vector_writes.
Context {A : Type}.

(** Copying [k] over the tail of a vector that was just grown by
    [length k] slots. *)
Lemma list_inserts_at_end (l k junk : list A) :
  length junk = length k →
  list_inserts (length l) k (l ++ junk) = l ++ k.
Proof.
  intros Hlen.
  rewrite <- (Nat.add_0_r (length l)), list_inserts_app_r.
  f_equal. rewrite <- (app_nil_r junk), list_inserts_0_r by done.
  apply app_nil_r.
Qed.

(** Filling the slots after [l] one by one, slot [i] with [f i]. *)
Lemma foldl_insert_tail (f : nat → A) (d : A) (l : list A) (n k : nat) :
  (k ≤ n)%nat →
  foldl (λ v i, <[(i + length l)%nat := f i]> v) (l ++ replicate n d) (seq 0 k)
  = l ++ (f <$> seq 0 k) ++ replicate (n - k) d.
Proof.
  induction k as [|k IH]; intros Hk.
  - by rewrite Nat.sub_0_r.
  - rewrite seq_S, foldl_app, IH by lia. cbn [foldl Nat.add].
    rewrite fmap_app, <- app_assoc. cbn [fmap list_fmap app].
    rewrite Nat.add_comm, insert_app_r.
    f_equal.
    replace k with (length (f <$> seq 0 k) + 0)%nat at 1
      by (rewrite length_fmap, length_seq; lia).
    rewrite insert_app_r. f_equal.
    replace (n - k)%nat with (S (n - S k)) by lia. done.
Qed.
End vector_writes.

Lemma Size_length (p : SparsePage) :
  offset p ≠ [] → length (offset p) = (Size p + 1)%nat.
Proof.
  unfold Size. destruct (offset p) as [|o os]; [done|]. cbn. lia.
Qed.

Lemma Size_drop (p : SparsePage) : Size p = length (drop 1 (offset p)).
Proof.
  unfold Size. destruct (offset p) as [|o os]; [done|].
  cbn. rewrite drop_0. lia.
Qed.

(** The offsets of [batch] past the first, read the way the loop of
    [Push] reads them. *)
Lemma shifted_offsets (f : Z → Z) (batch : SparsePage) :
  (λ i, f (vec_get (offset batch) (i + 1))) <$> seq 0 (Size batch)
  = f <$> drop 1 (offset batch).
Proof.
  apply list_eq. intros i. rewrite !list_lookup_fmap, lookup_drop.
  destruct (decide (i < Size batch)%nat) as [Hlt|Hge].
  - rewrite lookup_seq_lt by done. cbn.
    rewrite Size_drop, length_drop in Hlt.
    destruct (lookup_lt_is_Some_2 (offset batch) (1 + i)) as [o Ho]; [lia|].
    unfold vec_get. replace (i + 1)%nat with (S i) by lia. change (1 + i)%nat with (S i) in Ho. by rewrite Ho.
  - rewrite lookup_seq_ge by lia.
    rewrite Size_drop, length_drop in Hge.
    rewrite lookup_ge_None_2 by lia. done.
Qed.

Lemma wrap64_small z : 0 ≤ z < 2 ^ 64 → wrap64 z = z.
Proof. intros. unfold wrap64. by apply Z.mod_small. Qed.

(** What [Push] of a page computes on a page whose data ends where its
    last offset says: the data and the shifted offsets of [batch] are
    appended. *)
Lemma Push_page_eq (batch p : SparsePage) (top : Z) :
  back (offset p) = Some top →
  top = Z.of_nat (length (data p)) →
  Z.of_nat (length (data p)) + Z.of_nat (length (data batch)) < 2 ^ 64 →
  Push_page batch p
  = Ok (mkPage (offset p ++ ((λ o, wrap64 (top + o)) <$> drop 1 (offset batch)))
               (data p ++ data batch) (base_rowid p)).
Proof.
  intros Hback Htop Hfit. unfold Push_page. rewrite Hback.
  assert (Hn : Z.to_nat (wrap64 (top + Z.of_nat (length (data batch))))
               = (length (data p) + length (data batch))%nat).
  { rewrite wrap64_small by lia. lia. }
  rewrite Hn, (resize_ge (data p)) by lia.
  replace (length (data p) + length (data batch) - length (data p))%nat
    with (length (data batch)) by lia.
  set (grown := data p ++ replicate (length (data batch)) Entry_default).
  assert (Hcopy :
    match grown, data batch with
    | _ :: _, _ :: _ =>
        memcpy grown (Z.to_nat top) (data batch) 0 (length (data batch))
    | _, _ => Ok grown
    end = Ok (data p ++ data batch)).
  { destruct (data batch) as [|e es] eqn:Hb.
    - subst grown. cbn. rewrite !app_nil_r. by destruct (data p).
    - assert (Hg : grown ≠ []).
      { subst grown. destruct (data p); discriminate. }
      destruct grown as [|g gs] eqn:Hgrown; [done|].
      unfold memcpy. rewrite decide_False by (cbn; lia).
      rewrite decide_True.
      + rewrite drop_0, firstn_all, <- Hgrown. subst grown top.
        rewrite Nat2Z.id. f_equal.
        apply list_inserts_at_end. by rewrite length_replicate.
      + rewrite <- Hgrown. subst grown top.
        rewrite length_app, length_replicate, Nat2Z.id. cbn. lia. }
  rewrite Hcopy, bind_Ok.
  assert (Hoff :
    foldl (λ offset_vec i,
             <[(i + length (offset p))%nat :=
                 wrap64 (top + vec_get (offset batch) (i + 1))]> offset_vec)
          (resize (length (offset p) + Size batch) 0 (offset p))
          (seq 0 (Size batch))
    = offset p ++ ((λ o, wrap64 (top + o)) <$> drop 1 (offset batch))).
  { rewrite (resize_ge (offset p)) by lia.
    replace (length (offset p) + Size batch - length (offset p))%nat
      with (Size batch) by lia.
    rewrite (foldl_insert_tail
               (λ i, wrap64 (top + vec_get (offset batch) (i + 1))) 0)
      by done.
    rewrite Nat.sub_diag, app_nil_r.
    by rewrite (shifted_offsets (λ o, wrap64 (top + o))). }
  by rewrite Hoff.
Qed.

(** C7. On a page [p] whose data ends where its last offset says,
    [p.Push(batch)] succeeds; the new data is the old data followed by the
    entries of [batch], the new offsets are the old ones followed by
    [batch.offset[1..]], each with the former [p.offset.back()] added in
    64-bit arithmetic (which is the plain sum when the offsets of [batch]
    lie within its data), and [base_rowid] stays.  [batch] is a constant
    reference that is only read: nothing of it is part of the result. *)
Theorem Push_page_appends (batch p : SparsePage) (top : Z) :
  back (offset p) = Some top →
  top = Z.of_nat (length (data p)) →
  Z.of_nat (length (data p)) + Z.of_nat (length (data batch)) < 2 ^ 64 →
  ∃ p', Push_page batch p = Ok p' ∧
        data p' = data p ++ data batch ∧
        offset p' = offset p ++ ((λ o, wrap64 (top + o)) <$> drop 1 (offset batch)) ∧
        base_rowid p' = base_rowid p ∧
        (Forall (λ o, 0 ≤ o ≤ Z.of_nat (length (data batch))) (offset batch) →
         offset p' = offset p ++ (Z.add top <$> drop 1 (offset batch))).
Proof.
  intros Hback Htop Hfit. rewrite (Push_page_eq batch p top) by done.
  eexists. split; [reflexivity|]. cbn [data offset base_rowid].
  repeat split.
  intros Hwf. f_equal.
  apply Forall_fmap_ext_1, Forall_drop.
  eapply Forall_impl; [exact Hwf|]. intros o Ho. cbn beta in *.
  apply wrap64_small. lia.
Qed.

Lemma Push_page_appends_witness :
  back (offset csc_one) = Some 1 ∧
  1 = Z.of_nat (length (data csc_one)) ∧
  Z.of_nat (length (data csc_one)) + Z.of_nat (length (data csc_one)) < 2 ^ 64 ∧
  ∃ p', Push_page csc_one csc_one = Ok p' ∧
        data p' = data csc_one ++ data csc_one ∧
        offset p' = [0; 1; 1; 2; 2].
Proof.
  split; [reflexivity|]. split; [reflexivity|]. split; [cbn; lia|].
  destruct (Push_page_appends csc_one csc_one 1)
    as (p' & Hpush & Hdata & _ & _ & Hoff);
    [reflexivity | reflexivity | cbn; lia |].
  exists p'. split; [exact Hpush|]. split; [exact Hdata|].
  apply Hoff. repeat constructor; cbn; lia.
Defined.

(** ** IsIndicesSorted *)

Global Instance index_le_trans : Transitive (λ a b : Entry, index a ≤ index b).
Proof. intros a b c ??. lia. Qed.

Lemma is_sorted_CmpIndex (l : list Entry) :
  is_sorted CmpIndex l = true ↔ ascending_by_index l.
Proof.
  unfold ascending_by_index. split.
  - intros H. apply Sorted_StronglySorted; [apply _|].
    induction l as [|x [|y l] IH]; [constructor | repeat constructor |].
    cbn [is_sorted] in H. apply andb_prop in H as [Hxy Hrest].
    constructor; [by apply IH|]. constructor.
    unfold CmpIndex in Hxy. apply negb_true_iff, Z.ltb_ge in Hxy. done.
  - intros H. apply StronglySorted_Sorted in H.
    induction H as [|x l Hs IH Hhd]; [done|].
    destruct l as [|y l]; [done|].
    cbn [is_sorted]. apply andb_true_intro. split; [|exact IH].
    inversion Hhd; subst. unfold CmpIndex.
    apply negb_true_iff, Z.ltb_ge. done.
Qed.

Section counters.

Lemma zsum_nil : zsum [] = 0.
Proof. reflexivity. Qed.

Lemma zsum_cons x l : zsum (x :: l) = x + zsum l.
Proof. reflexivity. Qed.

Lemma zsum_app l1 l2 : zsum (l1 ++ l2) = zsum l1 + zsum l2.
Proof.
  induction l1 as [|x l1 IH]; cbn [app]; [done|].
  rewrite !zsum_cons, IH. lia.
Qed.

Lemma zsum_replicate_0 n : zsum (replicate n 0) = 0.
Proof. induction n as [|n IH]; [done|]. cbn [replicate]. by rewrite zsum_cons, IH. Qed.

Lemma zsum_nonneg l : Forall (λ c, 0 ≤ c) l → 0 ≤ zsum l.
Proof. induction 1; [done|]. rewrite zsum_cons. lia. Qed.

Lemma zsum_elem_le l t c :
  Forall (λ c, 0 ≤ c) l → l !! t = Some c → c ≤ zsum l.
Proof.
  intros Hl. revert t. induction Hl as [|x l Hx Hl IH]; intros [|t] Ht;
    simplify_eq/=; rewrite zsum_cons.
  - pose proof (zsum_nonneg l Hl). lia.
  - specialize (IH _ Ht). lia.
Qed.

Lemma zsum_alter (f : Z → Z) l t c :
  l !! t = Some c → zsum (alter f t l) = zsum l + (f c - c).
Proof.
  revert t. induction l as [|x l IH]; intros [|t] Ht; simplify_eq/=;
    rewrite !zsum_cons.
  - lia.
  - rewrite (IH _ Ht). lia.
Qed.

Lemma to_int32_small z : - 2 ^ 31 ≤ z < 2 ^ 31 → to_int32 z = z.
Proof. intros. unfold to_int32. rewrite Z.mod_small; lia. Qed.

Lemma int32_add_small a b :
  - 2 ^ 31 ≤ a + b < 2 ^ 31 → int32_add a b = a + b.
Proof. intros. unfold int32_add, to_int32. rewrite Z.mod_small; lia. Qed.

(** [std::accumulate] into a [size_t] over counters that are not
    negative and whose sum fits. *)
Lemma accumulate_zsum l acc :
  Forall (λ c, 0 ≤ c) l → 0 ≤ acc → acc + zsum l < 2 ^ 64 →
  foldl (λ acc c, wrap64 (acc + c)) acc l = acc + zsum l.
Proof.
  intros Hl. revert acc. induction Hl as [|x l Hx Hl IH]; intros acc ? Hfit.
  - cbn. rewrite zsum_nil. lia.
  - rewrite zsum_cons in *. cbn [foldl].
    pose proof (zsum_nonneg l Hl).
    rewrite wrap64_small by lia. rewrite IH by lia. lia.
Qed.

Variable f : nat → bool.

Lemma count_rows_S k : count_rows f (S k) = count_rows f k + Z.b2z (f k).
Proof.
  unfold count_rows. rewrite seq_S, fmap_app, zsum_app. cbn.
  rewrite zsum_cons, zsum_nil. lia.
Qed.

Lemma count_rows_bound k : 0 ≤ count_rows f k ≤ Z.of_nat k.
Proof.
  induction k as [|k IH]; [done|].
  rewrite count_rows_S. destruct (f k); cbn; lia.
Qed.

Lemma count_rows_all k :
  count_rows f k = Z.of_nat k ↔ ∀ i, (i < k)%nat → f i = true.
Proof.
  induction k as [|k IH].
  - split; [intros _ i; lia | done].
  - rewrite count_rows_S. pose proof (count_rows_bound k).
    split.
    + intros Hc i Hi. destruct (f k) eqn:Hk; cbn in Hc; [|lia].
      destruct (decide (i = k)) as [->|]; [done|].
      apply IH; lia.
    + intros Hall. rewrite (Hall k) by lia.
      rewrite (proj2 IH) by (intros; apply Hall; lia). cbn. lia.
Qed.

(** The per-thread counters after the first [k] iterations: none is
    negative and together they count the rows that passed. *)
Lemma tloc_counts (sched : nat → nat) (n k : nat) :
  Z.of_nat k < 2 ^ 31 →
  (∀ i, (i < k)%nat → (sched i < n)%nat) →
  let tloc :=
    ParallelFor k sched
      (λ i tid tloc, alter (λ c, int32_add c (Z.b2z (f i))) tid tloc)
      (replicate n 0) in
  length tloc = n ∧ Forall (λ c, 0 ≤ c) tloc ∧ zsum tloc = count_rows f k.
Proof.
  intros Hk Hsched. cbn zeta. unfold ParallelFor.
  induction k as [|k IH].
  - cbn. rewrite length_replicate, zsum_replicate_0.
    split; [done|]. split; [|done].
    apply Forall_replicate. lia.
  - rewrite seq_S, foldl_app. cbn [foldl Nat.add].
    destruct IH as (Hlen & Hpos & Hsum); [lia | intros; apply Hsched; lia |].
    set (tloc := foldl _ _ _) in *.
    destruct (lookup_lt_is_Some_2 tloc (sched k)) as [c Hc].
    { rewrite Hlen. apply Hsched. lia. }
    assert (0 ≤ c) by (eapply Forall_lookup_1 in Hpos; [|exact Hc]; done).
    pose proof (zsum_elem_le _ _ _ Hpos Hc).
    pose proof (count_rows_bound k).
    assert (Hadd : int32_add c (Z.b2z (f k)) = c + Z.b2z (f k)).
    { apply int32_add_small. destruct (f k); cbn; lia. }
    split; [by rewrite length_alter|]. split.
    + apply Forall_alter; [done|]. intros x Hx. simplify_eq.
      rewrite Hadd. destruct (f k); cbn; lia.
    + rewrite (zsum_alter _ _ _ _ Hc), Hadd, count_rows_S. lia.
Qed.

End counters.

(** C9. On a page with fewer than 2^31 rows (the counters are [int32_t])
    and for every thread count and every assignment of rows to the
    workers of the clamped thread count, [IsIndicesSorted] returns true
    exactly when every row slice is ascending by column index; so one
    unsorted row makes it false. *)
Theorem IsIndicesSorted_iff (n_threads : Z) (sched : nat → nat) (p : SparsePage) :
  Z.of_nat (Size p) < 2 ^ 31 →
  (∀ i, (i < Size p)%nat →
        Z.of_nat (sched i)
        < Z.max (Z.min (wrap64 n_threads) (Z.of_nat (Size p))) 1) →
  IsIndicesSorted n_threads sched p = true ↔
  ∀ i, (i < Size p)%nat →
       ascending_by_index (row_slice (offset p) (data p) i).
Proof.
  intros Hsize Hsched. unfold IsIndicesSorted.
  rewrite (to_int32_small (Z.max _ 1)) by lia.
  set (n := Z.to_nat (Z.max (Z.min (wrap64 n_threads) (Z.of_nat (Size p))) 1)).
  set (f i := is_sorted CmpIndex (row_slice (offset p) (data p) i)).
  destruct (tloc_counts f sched n (Size p)) as (_ & Hpos & Hsum);
    [done | intros i Hi; specialize (Hsched i Hi); lia |].
  cbn zeta in Hpos, Hsum. fold f.
  set (tloc := ParallelFor _ _ _ _) in *.
  pose proof (count_rows_bound f (Size p)).
  rewrite bool_decide_eq_true.
  rewrite accumulate_zsum by (done || lia).
  rewrite Z.add_0_l, Hsum, count_rows_all.
  subst f. cbn beta.
  split; intros Hall i Hi; apply is_sorted_CmpIndex, Hall, Hi.
Qed.

Lemma IsIndicesSorted_iff_witness :
  Z.of_nat (Size page_unsorted_row) < 2 ^ 31 ∧
  (∀ i, (i < Size page_unsorted_row)%nat →
        Z.of_nat (id i)
        < Z.max (Z.min (wrap64 4) (Z.of_nat (Size page_unsorted_row))) 1) ∧
  (IsIndicesSorted 4 id page_unsorted_row = true ↔
   ∀ i, (i < Size page_unsorted_row)%nat →
        ascending_by_index
          (row_slice (offset page_unsorted_row) (data page_unsorted_row) i)).
Proof.
  assert (Hbound :
    Z.max (Z.min (wrap64 4) (Z.of_nat (Size page_unsorted_row))) 1 = 2)
    by reflexivity.
  assert (Hsched : ∀ i, (i < Size page_unsorted_row)%nat →
    Z.of_nat (id i)
    < Z.max (Z.min (wrap64 4) (Z.of_nat (Size page_unsorted_row))) 1).
  { intros i Hi. rewrite Hbound. cbn in Hi. unfold id. lia. }
  split; [cbn; lia|]. split; [exact Hsched|].
  apply (IsIndicesSorted_iff 4 id page_unsorted_row); [cbn; lia | exact Hsched].
Defined.

(** The counter of one worker on rows that are all in order: the number
    of rows, reduced to [int32_t]. *)
Lemma one_worker_counter (f : nat → bool) (k : nat) :
  (∀ i, (i < k)%nat → f i = true) →
  ParallelFor k (λ _, 0%nat)
    (λ i tid tloc, alter (λ c, int32_add c (Z.b2z (f i))) tid tloc) [0]
  = [to_int32 (Z.of_nat k)].
Proof.
  unfold ParallelFor. induction k as [|k IH]; intros Hf; [done|].
  rewrite seq_S, foldl_app, IH by (intros; apply Hf; lia).
  cbn [foldl Nat.add alter list_alter]. rewrite (Hf k) by lia.
  f_equal. unfold int32_add, to_int32. cbn [Z.b2z].
  replace ((Z.of_nat k + 2 ^ 31) mod 2 ^ 32 - 2 ^ 31 + 1 + 2 ^ 31)
    with ((Z.of_nat k + 2 ^ 31) mod 2 ^ 32 + 1) by lia.
  rewrite Zplus_mod_idemp_l. do 2 f_equal. lia.
Qed.

Lemma Size_page_empty_rows (n : nat) : Size (page_empty_rows n) = n.
Proof.
  unfold Size, page_empty_rows. cbn [offset replicate length].
  rewrite length_replicate. lia.
Qed.

(** [IsIndicesSorted] on one thread, for a page of [n] empty rows. *)
Lemma IsIndicesSorted_empty_rows (n : nat) :
  (1 ≤ n)%nat →
  IsIndicesSorted 1 (λ _, 0%nat) (page_empty_rows n)
  = bool_decide (wrap64 (0 + to_int32 (Z.of_nat n)) = Z.of_nat n).
Proof.
  intros Hn. unfold IsIndicesSorted. rewrite Size_page_empty_rows.
  assert (Hthreads :
    to_int32 (Z.max (Z.min (wrap64 1) (Z.of_nat n)) 1) = 1).
  { change (wrap64 1) with 1. rewrite Z.min_l, Z.max_l by lia. done. }
  rewrite Hthreads. change (replicate (Z.to_nat 1) 0) with [0].
  rewrite (one_worker_counter
             (λ i, is_sorted CmpIndex
                     (row_slice (offset (page_empty_rows n))
                                (data (page_empty_rows n)) i)) n).
  - done.
  - intros i _. unfold page_empty_rows, row_slice. cbn [data].
    by rewrite drop_nil, take_nil.
Qed.

(** The claim as the specification words it, for every page, fails on a
    page of 2^31 rows: every row (each is empty) is ascending, yet on one
    thread the [int32_t] counter of that thread has wrapped when the sum
    is compared with the number of rows, and [IsIndicesSorted] returns
    false. *)
Lemma IsIndicesSorted_iff_large_page :
  let p := page_empty_rows (Z.to_nat (2 ^ 31)) in
  (∀ i, (i < Size p)%nat →
        ascending_by_index (row_slice (offset p) (data p) i)) ∧
  IsIndicesSorted 1 (λ _, 0%nat) p = false.
Proof.
  cbv zeta. split.
  - intros i _. unfold page_empty_rows, row_slice. cbn [data].
    rewrite drop_nil, take_nil. constructor.
  - rewrite IsIndicesSorted_empty_rows by lia.
    rewrite Z2Nat.id by lia. done.
Qed.

(** ** Where the cells of a two-pass run lie *)

Lemma sum_seq_S (f : nat → nat) (k : nat) :
  sum_list (f <$> seq 0 (S k)) = (sum_list (f <$> seq 0 k) + f k)%nat.
Proof. rewrite seq_S, fmap_app, sum_list_with_app. cbn. lia. Qed.

Lemma sum_seq_le (f : nat → nat) (k k' : nat) :
  (k ≤ k')%nat → (sum_list (f <$> seq 0 k) ≤ sum_list (f <$> seq 0 k'))%nat.
Proof.
  induction 1 as [|k' _ IH]; [done|]. rewrite sum_seq_S. lia.
Qed.

Section cells.
Variables (base : nat) (evs : list event) (T top : nat).

Abbreviation cnt := (cell_count base evs).
Abbreviation W := (before_threads base evs).
Abbreviation S_ := (before_groups base evs T).
Abbreviation start := (cell_start base evs T top).

Lemma before_threads_S t g : W (S t) g = (W t g + cnt t g)%nat.
Proof. apply (sum_seq_S (λ t', cell_count base evs t' g)). Qed.

Lemma before_threads_mono t t' g : (t ≤ t')%nat → (W t g ≤ W t' g)%nat.
Proof. apply (sum_seq_le (λ t', cell_count base evs t' g)). Qed.

Lemma before_groups_S g : S_ (S g) = (S_ g + W T g)%nat.
Proof. apply (sum_seq_S (λ g', before_threads base evs T g')). Qed.

Lemma before_groups_mono g g' : (g ≤ g')%nat → (S_ g ≤ S_ g')%nat.
Proof. apply (sum_seq_le (λ g', before_threads base evs T g')). Qed.

(** A cell ends where the next cell of its group starts, and the last
    cell of a group ends where the next group starts. *)
Lemma cell_end_in_group t g :
  (t < T)%nat → (start t g + cnt t g ≤ top + S_ (S g))%nat.
Proof.
  intros Ht. unfold cell_start. rewrite before_groups_S.
  pose proof (before_threads_mono (S t) T g ltac:(lia)) as Hm.
  rewrite before_threads_S in Hm. lia.
Qed.

Lemma cell_end_le t g G :
  (t < T)%nat → (g < G)%nat → (start t g + cnt t g ≤ top + S_ G)%nat.
Proof.
  intros Ht Hg. pose proof (cell_end_in_group t g Ht).
  pose proof (before_groups_mono (S g) G ltac:(lia)). lia.
Qed.

Lemma cell_start_ge t g : (top ≤ start t g)%nat.
Proof. unfold cell_start. lia. Qed.

Lemma cell_before t g t' g' :
  (t < T)%nat →
  (g < g')%nat ∨ (g = g' ∧ (t < t')%nat) →
  (start t g + cnt t g ≤ start t' g')%nat.
Proof.
  intros Ht [Hg|[-> Htt]].
  - pose proof (cell_end_in_group t g Ht).
    pose proof (before_groups_mono (S g) g' ltac:(lia)).
    unfold cell_start at 2. lia.
  - unfold cell_start.
    pose proof (before_threads_mono (S t) t' g' ltac:(lia)) as Hm.
    rewrite before_threads_S in Hm. lia.
Qed.

(** Distinct cells do not overlap. *)
Lemma cell_disjoint t g t' g' :
  (t < T)%nat → (t' < T)%nat → (t, g) ≠ (t', g') →
  (start t g + cnt t g ≤ start t' g')%nat ∨
  (start t' g' + cnt t' g' ≤ start t g)%nat.
Proof.
  intros Ht Ht' Hne.
  destruct (Nat.lt_total g g') as [?|[->|?]].
  - left. apply cell_before; auto.
  - destruct (Nat.lt_total t t') as [?|[->|?]]; [| done |].
    + left. apply cell_before; auto.
    + right. apply cell_before; auto.
  - right. apply cell_before; auto.
Qed.

End cells.

(** ** The count pass *)

Global Instance hits_dec base ev t g : Decision (hits base ev t g).
Proof. unfold hits. apply _. Defined.

Lemma hits_unique base ev t g t' g' :
  hits base ev t g → hits base ev t' g' → t' = t ∧ g' = g.
Proof. unfold hits. intros [??] [??]. lia. Qed.

Lemma cell_entries_cons base ev evs t g :
  cell_entries base (ev :: evs) t g =
  (if decide (hits base ev t g) then [ev_entry ev] else [])
  ++ cell_entries base evs t g.
Proof.
  unfold cell_entries. rewrite filter_cons.
  fold (hits base ev t g). by destruct (decide (hits base ev t g)).
Qed.

Lemma cell_entries_app base evs1 evs2 t g :
  cell_entries base (evs1 ++ evs2) t g =
  cell_entries base evs1 t g ++ cell_entries base evs2 t g.
Proof. unfold cell_entries. by rewrite filter_app, fmap_app. Qed.

Lemma cell_count_nil base t g : cell_count base [] t g = 0%nat.
Proof. reflexivity. Qed.

Lemma cell_count_cons base ev evs t g :
  cell_count base (ev :: evs) t g =
  ((if decide (hits base ev t g) then 1 else 0) + cell_count base evs t g)%nat.
Proof.
  unfold cell_count. rewrite cell_entries_cons, length_app.
  by destruct (decide (hits base ev t g)).
Qed.

Lemma cell_count_app base evs1 evs2 t g :
  cell_count base (evs1 ++ evs2) t g =
  (cell_count base evs1 t g + cell_count base evs2 t g)%nat.
Proof. unfold cell_count. by rewrite cell_entries_app, length_app. Qed.

(** A worker with no slot for a group has no event for it. *)
Lemma cell_count_unfit base T len evs t g :
  events_fit base T len evs → (len t ≤ g)%nat → cell_count base evs t g = 0%nat.
Proof.
  intros Hfit Hg. induction Hfit as [|ev evs (_ & Hk & Hlen) _ IH]; [done|].
  rewrite cell_count_cons, IH. rewrite decide_False; [done|].
  intros [<- Hkey]. lia.
Qed.

Lemma table_is_ext tbl T len f f' :
  (∀ t g, (t < T)%nat → (g < len t)%nat → f t g = f' t g) →
  table_is tbl T len f → table_is tbl T len f'.
Proof.
  intros Hext [Hlen Hrows]. split; [done|]. intros t Ht.
  destruct (Hrows t Ht) as (row & Hrow & Hlenr & Hslots).
  exists row. repeat split; [done..|]. intros g Hg.
  rewrite <- Hext by done. by apply Hslots.
Qed.

Lemma table_is_len_ext tbl T len len' f :
  (∀ t, (t < T)%nat → len t = len' t) →
  table_is tbl T len f → table_is tbl T len' f.
Proof.
  intros Hext [Hlen Hrows]. split; [done|]. intros t Ht.
  destruct (Hrows t Ht) as (row & Hrow & Hlenr & Hslots).
  exists row. rewrite <- Hext by done. by repeat split.
Qed.

Lemma table_is_replicate T G x :
  table_is (replicate T (replicate G x)) T (λ _, G) (λ _ _, x).
Proof.
  split; [by rewrite length_replicate|]. intros t Ht.
  exists (replicate G x). split; [by apply lookup_replicate_2|].
  split; [by rewrite length_replicate|]. intros g Hg.
  by apply lookup_replicate_2.
Qed.

Lemma table_is_lookup tbl T len f t g :
  table_is tbl T len f → (t < T)%nat → (g < len t)%nat →
  tbl !! t ≫= (.!! g) = Some (f t g).
Proof.
  intros [_ Hrows] Ht Hg.
  destruct (Hrows t Ht) as (row & -> & _ & Hslots). cbn. by apply Hslots.
Qed.

(** Rewriting one slot of one row. *)
Lemma table_is_alter tbl T len f h t g :
  table_is tbl T len f → (t < T)%nat → (g < len t)%nat →
  table_is (alter (alter h g) t tbl) T len
    (λ t' g', if decide (t' = t ∧ g' = g) then h (f t g) else f t' g').
Proof.
  intros [Hlen Hrows] Ht Hg. split; [by rewrite length_alter|].
  intros t' Ht'. destruct (Hrows t' Ht') as (row & Hrow & Hlenr & Hslots).
  destruct (decide (t' = t)) as [->|Hne].
  - exists (alter h g row). rewrite list_lookup_alter_eq, Hrow.
    split; [done|]. split; [by rewrite length_alter|].
    intros g' Hg'. destruct (decide (g' = g)) as [->|Hneg].
    + rewrite decide_True by done.
      by rewrite list_lookup_alter_eq, (Hslots g Hg).
    + rewrite decide_False by (intros [_ ?]; done).
      rewrite list_lookup_alter_ne by done. by apply Hslots.
  - exists row. rewrite list_lookup_alter_ne by done.
    repeat split; [done..|]. intros g' Hg'.
    rewrite decide_False by (intros [? _]; done). by apply Hslots.
Qed.

(** Growing one row with zeros, where the row holds counts that are zero
    past its end. *)
Lemma table_is_grow tbl T len f t n :
  table_is tbl T len f → (t < T)%nat → (len t ≤ n)%nat →
  (∀ g, (len t ≤ g)%nat → f t g = 0%nat) →
  table_is (alter (resize n 0%nat) t tbl) T
    (λ t', if decide (t' = t) then n else len t') f.
Proof.
  intros [Hlen Hrows] Ht Hn Hzero. split; [by rewrite length_alter|].
  intros t' Ht'. destruct (Hrows t' Ht') as (row & Hrow & Hlenr & Hslots).
  destruct (decide (t' = t)) as [->|Hne].
  - exists (resize n 0%nat row). rewrite list_lookup_alter_eq, Hrow.
    split; [done|]. split; [by rewrite length_resize|].
    intros g Hg. destruct (decide (g < len t)%nat).
    + rewrite lookup_resize by lia. by apply Hslots.
    + rewrite lookup_resize_new by lia. by rewrite Hzero by lia.
  - exists row. by rewrite list_lookup_alter_ne by done.
Qed.

Lemma AddBudget_table (b : PGB) T len f ev :
  let base := ParallelGroupBuilder.base_row_offset b in
  let g := (ev_key ev - base)%nat in
  table_is (ParallelGroupBuilder.budget b) T len f →
  (∀ t g, (len t ≤ g)%nat → f t g = 0%nat) →
  (ev_tid ev < T)%nat → (base ≤ ev_key ev)%nat →
  ∃ tbl,
    ParallelGroupBuilder.AddBudget (ev_key ev) (ev_tid ev) b
    = Ok (ParallelGroupBuilder.mk
            (ParallelGroupBuilder.offset_vec b) (ParallelGroupBuilder.data_vec b)
            base tbl (ParallelGroupBuilder.cursor b)
            (ParallelGroupBuilder.is_row_major b)) ∧
    table_is tbl T
      (λ t, if decide (t = ev_tid ev) then (len t `max` (g + 1))%nat else len t)
      (λ t g', ((if decide (hits base ev t g') then 1 else 0) + f t g')%nat).
Proof.
  intros base g Htbl Hzero Ht Hk. unfold ParallelGroupBuilder.AddBudget.
  fold base. rewrite decide_False by lia.
  pose proof Htbl as [Hlen Hrows].
  destruct (Hrows _ Ht) as (row & Hrow & Hlenr & Hslots).
  rewrite Hrow. fold g.
  eexists. split; [reflexivity|].
  set (n := (len (ev_tid ev) `max` (g + 1))%nat).
  assert (Hrow' :
    (if decide (length row < g + 1)%nat then resize (g + 1) 0%nat row else row)
    = resize n 0%nat row).
  { subst n. rewrite Hlenr. case_decide.
    - by rewrite Nat.max_r by lia.
    - rewrite Nat.max_l by lia. by rewrite <- Hlenr, resize_all. }
  rewrite Hrow'.
  assert (Hins :
    <[ev_tid ev := alter S g (resize n 0%nat row)]> (ParallelGroupBuilder.budget b)
    = alter (alter S g) (ev_tid ev)
        (alter (resize n 0%nat) (ev_tid ev) (ParallelGroupBuilder.budget b))).
  { apply list_eq. intros t.
    destruct (decide (ev_tid ev = t)) as [<-|Hne].
    - rewrite list_lookup_insert_eq by lia.
      by rewrite !list_lookup_alter_eq, Hrow.
    - rewrite list_lookup_insert_ne by done.
      by rewrite !list_lookup_alter_ne by done. }
  rewrite Hins.
  pose proof (table_is_grow _ _ _ _ (ev_tid ev) n Htbl Ht ltac:(lia)
                (Hzero (ev_tid ev))) as Hgrown.
  apply (table_is_len_ext _ _
           (λ t', if decide (t' = ev_tid ev) then n else len t')).
  { intros t _. destruct (decide (t = ev_tid ev)) as [->|]; reflexivity. }
  eapply table_is_ext; [|apply table_is_alter; [exact Hgrown | done |]].
  - intros t g' Htt Hg'. cbn beta. unfold hits.
    destruct (decide (t = ev_tid ev ∧ g' = g)) as [[-> ->]|Hne].
    + rewrite decide_True by (subst g; lia). done.
    + rewrite decide_False by (subst g; intros [??]; apply Hne; lia). done.
  - cbn beta. rewrite decide_True by done. lia.
Qed.

(** The count pass over events that lie above the base succeeds; it
    leaves every worker with a slot for each of its events and with the
    number of its events for every group. *)
Lemma count_pass_table (evs : list event) : ∀ (b : PGB) T len f,
  let base := ParallelGroupBuilder.base_row_offset b in
  table_is (ParallelGroupBuilder.budget b) T len f →
  (∀ t g, (len t ≤ g)%nat → f t g = 0%nat) →
  events_above base T evs →
  ∃ tbl len',
    count_pass b evs
    = Ok (ParallelGroupBuilder.mk
            (ParallelGroupBuilder.offset_vec b) (ParallelGroupBuilder.data_vec b)
            base tbl (ParallelGroupBuilder.cursor b)
            (ParallelGroupBuilder.is_row_major b)) ∧
    table_is tbl T len' (λ t g, (f t g + cell_count base evs t g)%nat) ∧
    (∀ t, (len t ≤ len' t)%nat) ∧
    events_fit base T len' evs ∧
    (∀ G, (∀ t, (len t ≤ G)%nat) → events_below base G evs →
          ∀ t, (len' t ≤ G)%nat).
Proof.
  induction evs as [|ev evs IH]; intros b T len f base Htbl Hzero Habove.
  - exists (ParallelGroupBuilder.budget b), len.
    split; [by destruct b|]. split.
    { eapply table_is_ext; [|exact Htbl]. intros.
      rewrite cell_count_nil. lia. }
    split; [done|]. split; [constructor|]. intros G HG _. exact HG.
  - apply Forall_cons in Habove as [[Ht Hk] Habove].
    destruct (AddBudget_table b T len f ev Htbl Hzero Ht Hk)
      as (tbl1 & Hadd & Htbl1).
    fold base in Hadd, Htbl1.
    unfold count_pass in *. rewrite foldlM_cons, Hadd, bind_Ok.
    set (b1 := ParallelGroupBuilder.mk _ _ _ tbl1 _ _).
    set (len1 := λ t, if decide (t = ev_tid ev)
                      then (len t `max` (ev_key ev - base + 1))%nat else len t)
      in Htbl1.
    destruct (IH b1 T len1 _ Htbl1) as (tbl2 & len2 & Hrun & Htbl2 & Hmono & Hfit & Hup).
    { intros t g Hg. subst len1. cbn beta in *.
      rewrite decide_False.
      - rewrite Hzero; [done|]. case_decide; lia.
      - intros [<- Hkey]. rewrite decide_True in Hg by done. lia. }
    { exact Habove. }
    cbn in Hrun, Htbl2, Hfit. exists tbl2, len2. split; [exact Hrun|].
    assert (Hlen1 : ∀ t, (len t ≤ len1 t)%nat).
    { intros t. subst len1. cbn beta. case_decide; lia. }
    split; [|split; [|split]].
    + eapply table_is_ext; [|exact Htbl2].
      intros t g _ _. cbn beta. rewrite cell_count_cons. lia.
    + intros t. specialize (Hmono t). specialize (Hlen1 t). lia.
    + constructor; [|exact Hfit]. split; [done|]. split; [done|].
      specialize (Hmono (ev_tid ev)). subst len1. cbn beta in Hmono.
      rewrite decide_True in Hmono by done. lia.
    + intros G HG Hbelow. apply Forall_cons in Hbelow as [Hev Hbelow].
      apply Hup; [|exact Hbelow].
      intros t. subst len1. cbn beta. specialize (HG t). case_decide; lia.
Qed.

(** ** InitStorage *)

Lemma sum_list_with_lookup {A} (h : A → nat) (h' : nat → nat) (l : list A) :
  (∀ i x, l !! i = Some x → h x = h' i) →
  sum_list_with h l = sum_list (h' <$> seq 0 (length l)).
Proof.
  induction l as [|x l IH] using rev_ind; intros Hl; [done|].
  rewrite sum_list_with_app, length_app. cbn [length].
  rewrite Nat.add_1_r, sum_seq_S, IH.
  - cbn. rewrite (Hl (length l) x); [lia|].
    by rewrite lookup_app_r, Nat.sub_diag by lia.
  - intros i y Hi. apply Hl. by apply lookup_app_l_Some.
Qed.

(** No row is longer than [num_groups]; rows of one length give it. *)
Lemma table_is_num_groups_ge tbl T len f t :
  table_is tbl T len f → (t < T)%nat →
  (len t ≤ ParallelGroupBuilder.num_groups tbl)%nat.
Proof.
  intros [Hlen Hrows] Ht. destruct (Hrows t Ht) as (row & Hrow & <- & _).
  unfold ParallelGroupBuilder.num_groups.
  apply list_elem_of_lookup_2 in Hrow. clear -Hrow.
  induction Hrow as [row tbl|row r tbl _ IH]; cbn; lia.
Qed.

Lemma table_is_num_groups_le tbl T len f G :
  table_is tbl T len f → (∀ t, (t < T)%nat → (len t ≤ G)%nat) →
  (ParallelGroupBuilder.num_groups tbl ≤ G)%nat.
Proof.
  intros [Hlen Hrows] HG. unfold ParallelGroupBuilder.num_groups.
  assert (Hall : Forall (λ row, (length row ≤ G)%nat) tbl).
  { apply Forall_lookup_2. intros t row Hrow.
    assert (Ht : (t < T)%nat) by (rewrite <- Hlen; by eapply lookup_lt_Some).
    destruct (Hrows t Ht) as (row' & Hrow' & Hlenr & _).
    simplify_eq. rewrite Hlenr. by apply HG. }
  clear -Hall. induction Hall as [|r rs Hr Hall IH]; cbn; lia.
Qed.

Lemma table_is_group_total tbl T len f t g :
  table_is tbl T len f → (t ≤ T)%nat →
  (∀ t' g, (len t' ≤ g)%nat → f t' g = 0%nat) →
  ParallelGroupBuilder.group_total (take t tbl) g
  = sum_list ((λ t', f t' g) <$> seq 0 t).
Proof.
  intros [Hlen Hrows] Ht Hzero. unfold ParallelGroupBuilder.group_total.
  rewrite (sum_list_with_lookup _ (λ t', f t' g)).
  - by rewrite length_take, Hlen, Nat.min_l.
  - intros i row Hi. apply lookup_take_Some in Hi as [Hi Hlt].
    destruct (Hrows i) as (row' & Hrow' & Hlenr & Hslots); [lia|].
    simplify_eq. unfold ParallelGroupBuilder.count.
    destruct (decide (g < len i)%nat).
    + by rewrite (Hslots g).
    + rewrite lookup_ge_None_2 by lia. cbn. by rewrite Hzero by lia.
Qed.

Lemma take_fmap_seq {A} (f : nat → A) (k n : nat) :
  (k ≤ n)%nat → take k (f <$> seq 0 n) = f <$> seq 0 k.
Proof.
  intros Hk. rewrite <- fmap_take, take_seq. by rewrite Nat.min_l.
Qed.

Lemma InitStorage_cells (b : PGB) (T : nat) (len : nat → nat) (evs : list event) :
  let base := ParallelGroupBuilder.base_row_offset b in
  let top := Z.to_nat (default 0 (last (ParallelGroupBuilder.offset_vec b))) in
  let G := ParallelGroupBuilder.num_groups (ParallelGroupBuilder.budget b) in
  table_is (ParallelGroupBuilder.budget b) T len (cell_count base evs) →
  events_fit base T len evs →
  ∃ cur,
    ParallelGroupBuilder.InitStorage b
    = ParallelGroupBuilder.mk
        (ParallelGroupBuilder.offset_vec b
         ++ ((λ g, Z.of_nat (top + before_groups base evs T (S g))) <$> seq 0 G))
        (resize (top + before_groups base evs T G) Entry_default
                (ParallelGroupBuilder.data_vec b))
        base (ParallelGroupBuilder.budget b) cur
        (ParallelGroupBuilder.is_row_major b) ∧
    table_is cur T len (cell_start base evs T top).
Proof.
  intros base top G Htbl Hfit. unfold ParallelGroupBuilder.InitStorage.
  fold top G.
  assert (Hzero : ∀ t g, (len t ≤ g)%nat → cell_count base evs t g = 0%nat).
  { intros t g. by apply (cell_count_unfit base T). }
  assert (Htotal : ∀ g,
    ParallelGroupBuilder.group_total (ParallelGroupBuilder.budget b) g
    = before_threads base evs T g).
  { intros g.
    rewrite <- (take_ge (ParallelGroupBuilder.budget b) T)
      by (destruct Htbl as [-> _]; lia).
    by rewrite (table_is_group_total _ T len (cell_count base evs)). }
  assert (Htotals :
    ParallelGroupBuilder.group_total (ParallelGroupBuilder.budget b) <$> seq 0 G
    = before_threads base evs T <$> seq 0 G).
  { apply list_fmap_ext. intros _ g _. apply Htotal. }
  rewrite Htotals.
  eexists. split.
  - f_equal. f_equal. apply list_eq. intros g. rewrite !list_lookup_fmap.
    destruct (seq 0 G !! g) as [g'|] eqn:Hg; [|done]. cbn. do 2 f_equal.
    apply lookup_seq in Hg as [-> Hg].
    rewrite take_fmap_seq by lia. done.
  - split; [rewrite length_imap; by destruct Htbl|].
    intros t Ht. pose proof Htbl as [Hlen Hrows].
    destruct (Hrows t Ht) as (row & Hrow & Hlenr & Hslots).
    eexists. rewrite list_lookup_imap, Hrow. split; [reflexivity|].
    split; [by rewrite length_imap|]. intros g Hg.
    rewrite list_lookup_imap, (Hslots g Hg). cbn. f_equal.
    pose proof (table_is_num_groups_ge _ _ _ _ t Htbl Ht). fold G in H.
    unfold cell_start. rewrite take_fmap_seq by lia.
    by rewrite (table_is_group_total _ T len (cell_count base evs)) by (done || lia).
Qed.

(** ** The placement pass *)

Lemma Push_placed base T len G top all pre ev post d0 (b : PGB) :
  all = pre ++ ev :: post →
  events_fit base T len all →
  (∀ t, (t < T)%nat → (len t ≤ G)%nat) →
  length d0 = (top + before_groups base all T G)%nat →
  placed base T len top all pre d0 b →
  ∃ b',
    ParallelGroupBuilder.Push (ev_key ev) (ev_entry ev) (ev_tid ev) b = Ok b' ∧
    ParallelGroupBuilder.offset_vec b' = ParallelGroupBuilder.offset_vec b ∧
    placed base T len top all (pre ++ [ev]) d0 b'.
Proof.
  intros Hall Hfit HG Hd0 (Hbase & Hcur & Hlen & Hold & Hcells).
  assert (Hev : (ev_tid ev < T)%nat ∧ (base ≤ ev_key ev)%nat ∧
                (ev_key ev - base < len (ev_tid ev))%nat).
  { rewrite Hall in Hfit. apply Forall_app in Hfit as [_ Hfit].
    by apply Forall_cons in Hfit as [? _]. }
  destruct Hev as (Ht & Hk & Hfit_ev).
  set (t := ev_tid ev) in *. set (g := (ev_key ev - base)%nat) in *.
  assert (Hg : (g < G)%nat) by (specialize (HG t Ht); lia).
  assert (Hhit : hits base ev t g) by (unfold hits; subst t g; lia).
  set (pos := (cell_start base all T top t g + cell_count base pre t g)%nat).
  assert (Hpos : (pos < cell_start base all T top t g + cell_count base all t g)%nat).
  { subst pos. rewrite Hall, !cell_count_app, cell_count_cons.
    rewrite decide_True by done. lia. }
  assert (Hin : (pos < length (ParallelGroupBuilder.data_vec b))%nat).
  { rewrite Hlen, Hd0.
    pose proof (cell_end_le base all T top t g G Ht Hg). lia. }
  unfold ParallelGroupBuilder.Push. rewrite Hbase.
  rewrite decide_False by lia. fold g.
  rewrite (table_is_lookup _ _ _ _ t g Hcur Ht Hfit_ev). fold pos.
  rewrite decide_True by done.
  eexists. split; [reflexivity|]. split; [reflexivity|].
  split; [done|]. cbn [ParallelGroupBuilder.cursor ParallelGroupBuilder.data_vec].
  split; [|split; [|split]].
  - eapply table_is_ext; [|apply (table_is_alter _ _ _ _ S t g Hcur Ht Hfit_ev)].
    intros t' g' Ht' Hg'. cbn beta.
    rewrite cell_count_app, cell_count_cons, cell_count_nil.
    destruct (decide (t' = t ∧ g' = g)) as [[-> ->]|Hne].
    + rewrite decide_True by done. lia.
    + rewrite decide_False; [lia|].
      intros Hhit'. apply Hne. eapply hits_unique; eauto.
  - by rewrite length_insert.
  - intros q Hq. rewrite list_lookup_insert_ne; [by apply Hold|].
    pose proof (cell_start_ge base all T top t g). lia.
  - intros t' g' j x Ht' Hj.
    rewrite cell_entries_app, cell_entries_cons in Hj.
    destruct (decide (hits base ev t' g')) as [Hhit'|Hmiss].
    + destruct (hits_unique _ _ _ _ _ _ Hhit Hhit') as [-> ->].
      cbn in Hj. rewrite ?app_nil_r in Hj.
      apply lookup_app_Some in Hj as [Hj|[Hge Hj]].
      * rewrite list_lookup_insert_ne; [by apply Hcells|].
        apply lookup_lt_Some in Hj. fold (cell_count base pre t g) in Hj.
        lia.
      * apply list_lookup_singleton_Some in Hj as [Hj ->].
        fold (cell_count base pre t g) in Hge, Hj.
        replace (cell_start base all T top t g + j)%nat with pos by lia.
        by apply list_lookup_insert_eq.
    + cbn in Hj. rewrite ?app_nil_r in Hj.
      rewrite list_lookup_insert_ne; [by apply Hcells|].
      apply lookup_lt_Some in Hj. fold (cell_count base pre t' g') in Hj.
      assert (cell_count base pre t' g' ≤ cell_count base all t' g')%nat
        by (rewrite Hall, cell_count_app; lia).
      destruct (cell_disjoint base all T top t g t' g' Ht Ht') as [?|?]; [|lia..].
      intros [= -> ->]. done.
Qed.

Lemma place_pass_placed base T len G top all d0 (post : list event) :
  ∀ pre (b : PGB),
    all = pre ++ post →
    events_fit base T len all →
    (∀ t, (t < T)%nat → (len t ≤ G)%nat) →
    length d0 = (top + before_groups base all T G)%nat →
    placed base T len top all pre d0 b →
    ∃ b',
      place_pass b post = Ok b' ∧
      ParallelGroupBuilder.offset_vec b' = ParallelGroupBuilder.offset_vec b ∧
      placed base T len top all all d0 b'.
Proof.
  induction post as [|ev post IH]; intros pre b Hall Hfit HG Hd0 Hinv.
  - rewrite app_nil_r in Hall. subst pre. by exists b.
  - destruct (Push_placed _ _ _ _ _ _ _ _ _ _ _ Hall Hfit HG Hd0 Hinv)
      as (b1 & Hpush & Hoff & Hinv1).
    destruct (IH (pre ++ [ev]) b1) as (b' & Hrun & Hoff' & Hinv');
      [by rewrite <- app_assoc | done..|].
    exists b'. unfold place_pass in *.
    rewrite foldlM_cons, Hpush, bind_Ok. split; [done|].
    split; [congruence | done].
Qed.

(** ** The data a two-pass run leaves *)

Ltac pgb_simpl :=
  cbn [ParallelGroupBuilder.offset_vec ParallelGroupBuilder.data_vec
       ParallelGroupBuilder.base_row_offset ParallelGroupBuilder.budget
       ParallelGroupBuilder.cursor ParallelGroupBuilder.is_row_major].

Tactic Notation "pgb_simpl" "in" hyp(H) :=
  cbn [ParallelGroupBuilder.offset_vec ParallelGroupBuilder.data_vec
       ParallelGroupBuilder.base_row_offset ParallelGroupBuilder.budget
       ParallelGroupBuilder.cursor ParallelGroupBuilder.is_row_major] in H.

Section blocks.
Context {A : Type}.
Implicit Types (f : nat → list A).

Lemma mjoin_seq_S f n :
  mjoin (f <$> seq 0 (S n)) = mjoin (f <$> seq 0 n) ++ f n.
Proof. rewrite seq_S, fmap_app, join_app. cbn. by rewrite app_nil_r. Qed.

Lemma length_mjoin_seq f n :
  length (mjoin (f <$> seq 0 n)) = sum_list ((λ i, length (f i)) <$> seq 0 n).
Proof.
  induction n as [|n IH]; [done|].
  rewrite mjoin_seq_S, length_app, IH.
  by rewrite (sum_seq_S (λ i, length (f i))).
Qed.

(** An element of the concatenation of blocks lies in one block, after
    the blocks before it. *)
Lemma lookup_mjoin_seq f n q x :
  mjoin (f <$> seq 0 n) !! q = Some x →
  ∃ i j, (i < n)%nat ∧ f i !! j = Some x ∧
         q = (sum_list ((λ i', length (f i')) <$> seq 0 i) + j)%nat.
Proof.
  induction n as [|n IH]; [done|].
  rewrite mjoin_seq_S. intros [Hq|[Hge Hq]]%lookup_app_Some.
  - destruct (IH Hq) as (i & j & Hi & Hj & ->). exists i, j. auto with lia.
  - exists n, (q - length (mjoin (f <$> seq 0 n)))%nat.
    split; [lia|]. split; [done|]. rewrite <- length_mjoin_seq. lia.
Qed.

(** Block [i] of a concatenation is the slice that starts after the
    blocks before it. *)
Lemma mjoin_seq_slice f n i :
  (i < n)%nat →
  take (length (f i))
       (drop (sum_list ((λ i', length (f i')) <$> seq 0 i)) (mjoin (f <$> seq 0 n)))
  = f i.
Proof.
  intros Hi. rewrite <- length_mjoin_seq.
  replace n with (S i + (n - S i))%nat by lia.
  rewrite seq_app, fmap_app, join_app, mjoin_seq_S, <- app_assoc.
  rewrite drop_app_length. by rewrite take_app_length.
Qed.

End blocks.

Lemma length_group_entries base evs T g :
  length (group_entries base evs T g) = before_threads base evs T g.
Proof. unfold group_entries. by rewrite length_mjoin_seq. Qed.

Lemma length_groups base evs T G :
  length (mjoin (group_entries base evs T <$> seq 0 G))
  = before_groups base evs T G.
Proof.
  rewrite length_mjoin_seq. unfold before_groups. f_equal.
  apply list_fmap_ext. intros _ g _. apply length_group_entries.
Qed.

Lemma placed_all_data base T len G top all d0 (b : PGB) :
  length d0 = (top + before_groups base all T G)%nat →
  placed base T len top all all d0 b →
  ParallelGroupBuilder.data_vec b
  = take top d0 ++ mjoin (group_entries base all T <$> seq 0 G).
Proof.
  intros Hd0 (_ & _ & Hlen & Hold & Hcells).
  apply list_eq. intros q.
  destruct (decide (q < top)%nat) as [Hq|Hq].
  - rewrite lookup_app_l by (rewrite length_take; lia).
    rewrite lookup_take_lt by done. by apply Hold.
  - rewrite lookup_app_r by (rewrite length_take; lia).
    rewrite length_take, Nat.min_l by lia.
    destruct (mjoin (group_entries base all T <$> seq 0 G) !! (q - top)%nat)
      as [x|] eqn:Hx.
    + apply lookup_mjoin_seq in Hx as (g & j & Hg & Hj & Hq').
      apply lookup_mjoin_seq in Hj as (t & j' & Ht & Hj' & ->).
      rewrite <- (Hcells t g j' x Ht Hj'). f_equal.
      unfold cell_start, before_groups, before_threads, cell_count.
      assert (Heq :
        sum_list ((λ i', length (group_entries base all T i')) <$> seq 0 g)
        = sum_list ((λ g', before_threads base all T g') <$> seq 0 g)).
      { f_equal. apply list_fmap_ext. intros _ g' _.
        apply length_group_entries. }
      unfold before_threads, cell_count in Heq. lia.
    + apply lookup_ge_None in Hx. rewrite length_groups in Hx.
      apply lookup_ge_None. lia.
Qed.

(** The two passes over events that lie above the base succeed.  With
    [G] the number of groups the run ends with (the least number that is
    at least the [G0] allocated and leaves no event past it), the offsets
    grow
    by the running sizes of the groups and the data by the groups, one
    after the other, each ordered by worker and then by the order of the
    walk. *)
Lemma two_pass_least (is_row_major : bool) (offset_vec : list Z)
    (data_vec : list Entry) (base max_key T : nat) (evs : list event) :
  let top := Z.to_nat (default 0 (last offset_vec)) in
  let G0 := ParallelGroupBuilder.full_size is_row_major base max_key in
  (1 ≤ T)%nat →
  events_above base T evs →
  ∃ b G,
    two_pass is_row_major offset_vec data_vec base max_key T evs = Ok b ∧
    (G0 ≤ G)%nat ∧
    events_below base G evs ∧
    (∀ G', (G0 ≤ G')%nat → events_below base G' evs → (G ≤ G')%nat) ∧
    ParallelGroupBuilder.offset_vec b
    = offset_vec
      ++ ((λ g, Z.of_nat (top + before_groups base evs T (S g))) <$> seq 0 G) ∧
    ParallelGroupBuilder.data_vec b
    = resize top Entry_default data_vec
      ++ mjoin (group_entries base evs T <$> seq 0 G).
Proof.
  intros top G0 HT Habove. unfold two_pass.
  unfold ParallelGroupBuilder.InitBudget, ParallelGroupBuilder.make.
  pgb_simpl. fold G0.
  set (b0 := ParallelGroupBuilder.mk offset_vec data_vec base
               (replicate T (replicate G0 0%nat)) [] is_row_major).
  destruct (count_pass_table evs b0 T (λ _, G0) (λ _ _, 0%nat))
    as (tbl & len & Hcount & Htbl & Hmono & Hfit & Hup);
    [apply table_is_replicate | done | exact Habove |].
  subst b0. pgb_simpl in Hcount. pgb_simpl in Htbl. pgb_simpl in Hfit.
  pgb_simpl in Hup.
  rewrite Hcount, bind_Ok.
  set (b1 := ParallelGroupBuilder.mk offset_vec data_vec base tbl []
               is_row_major).
  set (G := ParallelGroupBuilder.num_groups tbl).
  destruct (InitStorage_cells b1 T len evs Htbl Hfit) as (cur & Hinit & Hcur).
  subst b1. pgb_simpl in Hinit. pgb_simpl in Hcur.
  fold top G in Hinit, Hcur. rewrite Hinit.
  assert (HG : ∀ t, (t < T)%nat → (len t ≤ G)%nat).
  { intros t Ht. by eapply table_is_num_groups_ge. }
  set (d0 := resize (top + before_groups base evs T G) Entry_default data_vec).
  assert (Hd0 : length d0 = (top + before_groups base evs T G)%nat)
    by apply length_resize.
  match goal with |- context [place_pass ?b2 evs] =>
    destruct (place_pass_placed base T len G top evs d0 evs [] b2)
      as (b' & Hrun & Hoff & Hinv);
      [reflexivity | exact Hfit | exact HG | exact Hd0 | |]
  end.
  { split; [reflexivity|]. split; [|split; [|split]].
    - eapply table_is_ext; [|exact Hcur]. intros.
      rewrite cell_count_nil. lia.
    - reflexivity.
    - reflexivity.
    - intros t g j x _ Hj. done. }
  exists b', G. split; [exact Hrun|].
  split; [specialize (Hmono 0%nat); specialize (HG 0%nat); lia|].
  split.
  { eapply Forall_impl; [exact Hfit|]. intros ev (Ht & _ & Hlen).
    specialize (HG _ Ht). cbn beta in *. lia. }
  split.
  { intros G' HG' Hbelow.
    eapply table_is_num_groups_le; [exact Htbl|].
    intros t _. by apply (Hup G'). }
  split; [exact Hoff|].
  rewrite (placed_all_data _ _ _ _ _ _ _ _ Hd0 Hinv).
  subst d0. by rewrite take_resize_add.
Qed.

Lemma two_pass_spec (is_row_major : bool) (offset_vec : list Z)
    (data_vec : list Entry) (base max_key T : nat) (evs : list event) :
  let top := Z.to_nat (default 0 (last offset_vec)) in
  let G0 := ParallelGroupBuilder.full_size is_row_major base max_key in
  (1 ≤ T)%nat →
  events_above base T evs →
  ∃ b G,
    two_pass is_row_major offset_vec data_vec base max_key T evs = Ok b ∧
    (G0 ≤ G)%nat ∧
    events_below base G evs ∧
    (events_below base G0 evs → G = G0) ∧
    ParallelGroupBuilder.offset_vec b
    = offset_vec
      ++ ((λ g, Z.of_nat (top + before_groups base evs T (S g))) <$> seq 0 G) ∧
    ParallelGroupBuilder.data_vec b
    = resize top Entry_default data_vec
      ++ mjoin (group_entries base evs T <$> seq 0 G).
Proof.
  intros top G0 HT Habove.
  destruct (two_pass_least is_row_major offset_vec data_vec base max_key T evs
              HT Habove)
    as (b & G & Hrun & HG0 & Hbelow & Hleast & Hoff & Hdata).
  exists b, G. split; [exact Hrun|]. split; [exact HG0|].
  split; [exact Hbelow|]. split; [|by split].
  intros Hbelow0. apply Nat.le_antisymm; [|exact HG0].
  by apply Hleast.
Qed.

(** ** GetTranspose as a two-pass run *)

Lemma foldlM_fmap {A B C} (f : A → C → result A) (g : B → C) a (l : list B) :
  foldlM f a (g <$> l) = foldlM (λ a x, f a (g x)) a l.
Proof.
  revert a. induction l as [|x l IH]; intros a; [done|].
  cbn [fmap list_fmap]. rewrite !foldlM_cons.
  destruct (f a (g x)); [apply IH | done].
Qed.

Lemma foldlM_ext {A B} (f f' : A → B → result A) a (l : list B) :
  (∀ a x, f a x = f' a x) → foldlM f a l = foldlM f' a l.
Proof.
  intros Hext. revert a. induction l as [|x l IH]; intros a; [done|].
  rewrite !foldlM_cons, Hext. destruct (f' a x); [apply IH | done].
Qed.

(** A parallel loop whose iteration [i] folds a failing step over the
    records [L i] is one fold over all the records. *)
Lemma ParallelFor_foldlM {A B} (f : A → B → result A) (L : nat → nat → list B)
    (sched : nat → nat) (n : nat) (a : A) :
  ParallelFor n sched (λ i tid r, r ≫= λ b, foldlM f b (L i tid)) (Ok a)
  = foldlM f a (mjoin ((λ i, L i (sched i)) <$> seq 0 n)).
Proof.
  unfold ParallelFor. induction n as [|n IH]; [done|].
  rewrite seq_S, foldl_app, IH. cbn [foldl Nat.add].
  rewrite fmap_app, join_app, foldlM_app. cbn. by rewrite app_nil_r.
Qed.

Lemma ParallelFor_ext {S} (fn fn' : nat → nat → S → S) (sched : nat → nat)
    (n : nat) (s : S) :
  (∀ i tid s, fn i tid s = fn' i tid s) →
  ParallelFor n sched fn s = ParallelFor n sched fn' s.
Proof.
  intros Hext. unfold ParallelFor. revert s.
  induction (seq 0 n) as [|i l IH]; intros s; [done|].
  cbn. rewrite Hext. apply IH.
Qed.

Lemma transpose_count_loop (sched : nat → nat) (p : SparsePage) (b : PGB) :
  ParallelFor (Size p) sched
    (λ i tid r, b ← r;
       foldlM (λ b entry,
                 ParallelGroupBuilder.AddBudget (Z.to_nat (index entry)) tid b)
              b (row_slice (offset p) (data p) i))
    (Ok b)
  = count_pass b (transpose_events sched p).
Proof.
  unfold count_pass, transpose_events.
  rewrite <- (ParallelFor_foldlM
    (λ b ev, ParallelGroupBuilder.AddBudget (ev_key ev) (ev_tid ev) b)
    (λ i tid, (λ entry,
        mkEvent tid (Z.to_nat (index entry))
          (Entry_ctor (wrap32 (wrap64 (base_rowid p + Z.of_nat i))) (fvalue entry)))
      <$> row_slice (offset p) (data p) i)).
  apply ParallelFor_ext. intros i tid [b'|e]; [|done]. cbn.
  by rewrite foldlM_fmap.
Qed.

Lemma transpose_place_loop (sched : nat → nat) (p : SparsePage) (b : PGB) :
  ParallelFor (Size p) sched
    (λ i tid r, b ← r;
       foldlM (λ b entry,
                 ParallelGroupBuilder.Push (Z.to_nat (index entry))
                   (Entry_ctor (wrap32 (wrap64 (base_rowid p + Z.of_nat i)))
                               (fvalue entry))
                   tid b)
              b (row_slice (offset p) (data p) i))
    (Ok b)
  = place_pass b (transpose_events sched p).
Proof.
  unfold place_pass, transpose_events.
  rewrite <- (ParallelFor_foldlM
    (λ b ev, ParallelGroupBuilder.Push (ev_key ev) (ev_entry ev) (ev_tid ev) b)
    (λ i tid, (λ entry,
        mkEvent tid (Z.to_nat (index entry))
          (Entry_ctor (wrap32 (wrap64 (base_rowid p + Z.of_nat i))) (fvalue entry)))
      <$> row_slice (offset p) (data p) i)).
  apply ParallelFor_ext. intros i tid [b'|e]; [|done]. cbn.
  by rewrite foldlM_fmap.
Qed.

Lemma int_add_fits (a b : Z) :
  - 2 ^ 31 ≤ a + b < 2 ^ 31 → int_add a b = Ok (a + b).
Proof. intros. unfold int_add. by rewrite decide_True. Qed.

Lemma GetTranspose_two_pass (num_columns n_threads : Z) (sched : nat → nat)
    (p : SparsePage) :
  - 2 ^ 31 ≤ num_columns + 1 < 2 ^ 31 →
  GetTranspose num_columns n_threads sched p
  = builder ← two_pass false [0] [] 0 (Z.to_nat (wrap64 num_columns))
                       (Z.to_nat n_threads) (transpose_events sched p);
    let transpose_offset :=
      match data p with
      | [] => replicate (Z.to_nat (wrap64 (num_columns + 1))) 0
      | _ :: _ => ParallelGroupBuilder.offset_vec builder
      end in
    if decide (Z.of_nat (length transpose_offset) = wrap64 (num_columns + 1))
    then Ok (mkPage transpose_offset (ParallelGroupBuilder.data_vec builder) 0)
    else Err CheckTransposeSize.
Proof.
  intros Hfits. unfold GetTranspose, two_pass.
  cbn [offset data SparsePage_new].
  rewrite transpose_count_loop, (int_add_fits _ _ Hfits).
  destruct (count_pass _ _) as [b|e]; [|done]. cbn.
  rewrite transpose_place_loop.
  destruct (place_pass _ _) as [b'|e]; [|done]. cbn.
  by destruct (data p).
Qed.

(** ** What GetTranspose returns *)

Lemma row_slice_nil off i : row_slice off [] i = [].
Proof. unfold row_slice. by rewrite drop_nil, take_nil. Qed.

Lemma mjoin_nils {A B} (l : list B) : mjoin ((λ _, @nil A) <$> l) = [].
Proof. induction l as [|x l IH]; [done|]. cbn. exact IH. Qed.

Lemma transpose_events_nil sched p : data p = [] → transpose_events sched p = [].
Proof.
  intros Hd. unfold transpose_events. rewrite <- (mjoin_nils (seq 0 (Size p))).
  f_equal. apply list_fmap_ext. intros _ i _. by rewrite Hd, row_slice_nil.
Qed.

Lemma sum_seq_zero (f : nat → nat) n :
  (∀ i, (i < n)%nat → f i = 0%nat) → sum_list (f <$> seq 0 n) = 0%nat.
Proof.
  induction n as [|n IH]; intros Hf; [done|].
  rewrite sum_seq_S, IH, Hf by auto with lia. done.
Qed.

Lemma before_groups_nil base T g : before_groups base [] T g = 0%nat.
Proof.
  unfold before_groups. apply sum_seq_zero. intros g' _.
  unfold before_threads. by apply sum_seq_zero.
Qed.

Lemma before_groups_0 base evs T : before_groups base evs T 0 = 0%nat.
Proof. reflexivity. Qed.

(** The offsets a run appends, read back. *)
Lemma run_offsets_lookup (F : nat → nat) (head : list Z) (G g : nat) :
  (g < G)%nat →
  (head ++ ((λ g, Z.of_nat (F (S g))) <$> seq 0 G)) !! (length head + g)%nat
  = Some (Z.of_nat (F (S g))).
Proof.
  intros Hg. rewrite lookup_app_r by lia.
  replace (length head + g - length head)%nat with g by lia.
  rewrite list_lookup_fmap, lookup_seq_lt by done. done.
Qed.

Lemma transpose_events_above (n_threads : Z) sched p :
  (∀ i, (i < Size p)%nat → (sched i < Z.to_nat n_threads)%nat) →
  events_above 0 (Z.to_nat n_threads) (transpose_events sched p).
Proof.
  intros Hsched. unfold events_above, transpose_events.
  apply Forall_forall. intros ev Hev.
  apply list_elem_of_join in Hev as (evs & Hev & Hevs).
  apply list_elem_of_fmap in Hevs as (i & -> & Hi).
  apply elem_of_seq in Hi.
  apply list_elem_of_fmap in Hev as (entry & -> & Hentry).
  cbn. split; [apply Hsched; lia | lia].
Qed.

Lemma transpose_events_below (num_columns : Z) sched p :
  (∀ i e, (i < Size p)%nat → e ∈ row_slice (offset p) (data p) i →
          0 ≤ index e < num_columns) →
  events_below 0 (Z.to_nat num_columns) (transpose_events sched p).
Proof.
  intros Hidx. unfold events_below, transpose_events.
  apply Forall_forall. intros ev Hev.
  apply list_elem_of_join in Hev as (evs & Hev & Hevs).
  apply list_elem_of_fmap in Hevs as (i & -> & Hi).
  apply elem_of_seq in Hi.
  apply list_elem_of_fmap in Hev as (entry & -> & Hentry).
  cbn. specialize (Hidx i entry ltac:(lia) Hentry). lia.
Qed.

Lemma GetTranspose_spec (num_columns n_threads : Z) (sched : nat → nat)
    (p : SparsePage) :
  let G := Z.to_nat num_columns in
  let T := Z.to_nat n_threads in
  let evs := transpose_events sched p in
  0 ≤ num_columns < 2 ^ 31 - 1 →
  1 ≤ n_threads →
  (∀ i, (i < Size p)%nat → (sched i < T)%nat) →
  (∀ i e, (i < Size p)%nat → e ∈ row_slice (offset p) (data p) i →
          0 ≤ index e < num_columns) →
  ∃ t,
    GetTranspose num_columns n_threads sched p = Ok t ∧
    base_rowid t = 0 ∧
    offset t = 0 :: ((λ g, Z.of_nat (before_groups 0 evs T (S g))) <$> seq 0 G) ∧
    data t = mjoin (group_entries 0 evs T <$> seq 0 G).
Proof.
  intros G T evs Hcols HT Hsched Hidx.
  rewrite GetTranspose_two_pass by lia.
  rewrite (wrap64_small num_columns), (wrap64_small (num_columns + 1)) by lia.
  fold G T evs.
  destruct (two_pass_spec false [0] [] 0 G T evs)
    as (b & G' & Hrun & _ & _ & HG & Hoff & Hdata);
    [lia | by apply transpose_events_above |].
  cbn [ParallelGroupBuilder.full_size] in HG.
  rewrite Nat.min_0_l, Nat.sub_0_r in HG.
  rewrite (HG (transpose_events_below num_columns sched p Hidx)) in *.
  clear HG G'.
  rewrite Hrun, bind_Ok. cbn zeta.
  cbn [last default Z.to_nat Nat.add resize app] in Hoff, Hdata.
  assert (Hsame :
    match data p with
    | [] => replicate (Z.to_nat (num_columns + 1)) 0
    | _ :: _ => ParallelGroupBuilder.offset_vec b
    end = ParallelGroupBuilder.offset_vec b).
  { destruct (data p) eqn:Hd; [|done].
    rewrite Hoff. subst evs. rewrite (transpose_events_nil sched p Hd).
    replace (Z.to_nat (num_columns + 1)) with (S G) by lia.
    cbn [replicate]. f_equal.
    apply list_eq. intros g. rewrite list_lookup_fmap.
    destruct (decide (g < G)%nat).
    - rewrite lookup_replicate_2, lookup_seq_lt by done.
      cbn [fmap option_fmap option_map Nat.add].
      by rewrite before_groups_nil.
    - rewrite lookup_seq_ge by lia. apply lookup_ge_None.
      rewrite length_replicate. lia. }
  rewrite Hsame, Hoff. cbn [length].
  rewrite length_fmap, length_seq.
  rewrite decide_True by lia.
  eexists. split; [reflexivity|]. cbn [base_rowid offset data].
  rewrite Hdata. done.
Qed.

(** ** The triples of a transposed page *)

Section buckets.
Context {A : Type}.

Lemma mjoin_seq_perm (f f' : nat → list A) (n : nat) :
  (∀ i, (i < n)%nat → f i ≡ₚ f' i) →
  mjoin (f <$> seq 0 n) ≡ₚ mjoin (f' <$> seq 0 n).
Proof.
  induction n as [|n IH]; intros Hf; [done|].
  rewrite !mjoin_seq_S. f_equiv; [apply IH|apply Hf]; auto with lia.
Qed.

Lemma mjoin_seq_ext (f f' : nat → list A) (n : nat) :
  (∀ i, (i < n)%nat → f i = f' i) →
  mjoin (f <$> seq 0 n) = mjoin (f' <$> seq 0 n).
Proof.
  induction n as [|n IH]; intros Hf; [done|].
  rewrite !mjoin_seq_S. f_equal; [apply IH|apply Hf]; auto with lia.
Qed.

Lemma fmap_mjoin_seq {B} (h : A → B) (f : nat → list A) (n : nat) :
  h <$> mjoin (f <$> seq 0 n) = mjoin ((λ i, h <$> f i) <$> seq 0 n).
Proof.
  induction n as [|n IH]; [done|].
  by rewrite !mjoin_seq_S, fmap_app, IH.
Qed.

(** Sorting a list into the buckets its elements name, and putting the
    buckets one after the other, rearranges the list. *)
Lemma bucket_perm (k : A → nat) (n : nat) : ∀ l : list A,
  Forall (λ x, (k x < n)%nat) l →
  mjoin ((λ i, filter (λ x, k x = i) l) <$> seq 0 n) ≡ₚ l.
Proof.
  induction n as [|n IH]; intros l Hl.
  - destruct l as [|x l]; [done|]. apply Forall_cons in Hl as [? _]. lia.
  - rewrite mjoin_seq_S.
    etransitivity; [|apply (filter_app_complement (λ x, k x = n) l)].
    rewrite (comm app (filter _ l)). f_equiv.
    etransitivity; [|apply (IH (filter (λ x, ¬ k x = n) l))].
    + apply mjoin_seq_perm. intros i Hi.
      rewrite list_filter_filter.
      apply reflexive_eq, list_filter_iff. intros x. split; [|tauto].
      intros ->. split; [done|lia].
    + apply Forall_forall. intros x [Hne Hx]%list_elem_of_filter.
      eapply Forall_forall in Hl; [|exact Hx]. cbn in Hl. lia.
Qed.

End buckets.

Lemma group_entries_perm base evs T g :
  Forall (λ ev, (ev_tid ev < T)%nat) evs →
  group_entries base evs T g
  ≡ₚ ev_entry <$> filter (λ ev, ev_key ev = (base + g)%nat) evs.
Proof.
  intros Htid. unfold group_entries, cell_entries.
  rewrite <- (fmap_mjoin_seq ev_entry
                (λ t, filter (λ ev, ev_tid ev = t ∧ ev_key ev = (base + g)%nat) evs)).
  apply fmap_Permutation.
  etransitivity;
    [|apply (bucket_perm ev_tid T
               (filter (λ ev, ev_key ev = (base + g)%nat) evs))].
  - apply reflexive_eq, mjoin_seq_ext. intros t _.
    by rewrite list_filter_filter.
  - apply Forall_forall. intros ev [_ Hev]%list_elem_of_filter.
    eapply Forall_forall in Htid; [|exact Hev]. done.
Qed.

(** The triples read off the groups of a run from base 0 are the triples
    of its events. *)
Lemma groups_triples (evs : list event) (T G : nat) :
  events_above 0 T evs → events_below 0 G evs →
  mjoin ((λ g, (λ e, (Z.of_nat g, index e, fvalue e))
               <$> group_entries 0 evs T g) <$> seq 0 G)
  ≡ₚ ev_triple <$> evs.
Proof.
  intros Habove Hbelow.
  etransitivity; [|apply fmap_Permutation, (bucket_perm ev_key G evs)].
  - rewrite fmap_mjoin_seq. apply mjoin_seq_perm. intros g Hg.
    rewrite group_entries_perm.
    + rewrite <- list_fmap_compose. apply reflexive_eq.
      apply list_fmap_ext. intros _ ev [Hk _]%list_elem_of_lookup_2%list_elem_of_filter.
      cbn. unfold ev_triple. by rewrite Hk.
    + eapply Forall_impl; [exact Habove|]. by intros ev [? _].
  - eapply Forall_impl; [exact Hbelow|]. intros ev ?. cbn beta in *. lia.
Qed.

(** ** Transposing twice *)

Lemma wrap32_small z : 0 ≤ z < 2 ^ 32 → wrap32 z = z.
Proof. intros. unfold wrap32. by apply Z.mod_small. Qed.

(** The rows of a page whose offsets are the running sizes of blocks and
    whose data is the blocks one after the other. *)
Lemma block_page_rows (f : nat → list Entry) (G : nat) (base_rowid : Z) (g : nat) :
  let F g := sum_list ((λ g', length (f g')) <$> seq 0 g) in
  (g < G)%nat →
  row_slice (0 :: ((λ g, Z.of_nat (F (S g))) <$> seq 0 G))
            (mjoin (f <$> seq 0 G)) g
  = f g.
Proof.
  intros F Hg. unfold row_slice, vec_get.
  assert (Hlook : ∀ g', (g' ≤ G)%nat →
    (0 :: ((λ g, Z.of_nat (F (S g))) <$> seq 0 G)) !! g' = Some (Z.of_nat (F g'))).
  { intros [|g'] Hg'; [done|]. rewrite lookup_cons.
    rewrite list_lookup_fmap, lookup_seq_lt by lia. done. }
  rewrite !Hlook by lia. cbn [default from_option id].
  subst F. cbn beta. rewrite (sum_seq_S (λ g', length (f g'))).
  set (n := sum_list _). set (m := length (f g)).
  replace (Z.to_nat (Z.of_nat (n + m) - Z.of_nat n)) with m by lia.
  rewrite Nat2Z.id. by apply mjoin_seq_slice.
Qed.

Lemma before_groups_lengths base evs T g :
  before_groups base evs T g
  = sum_list ((λ g', length (group_entries base evs T g')) <$> seq 0 g).
Proof.
  unfold before_groups. f_equal. apply list_fmap_ext. intros _ g' _.
  by rewrite length_group_entries.
Qed.

(** The triples of a page built by a run from base 0. *)
Lemma run_page_triples (evs : list event) (T G : nat) (t : SparsePage) :
  events_above 0 T evs → events_below 0 G evs →
  base_rowid t = 0 →
  offset t = 0 :: ((λ g, Z.of_nat (before_groups 0 evs T (S g))) <$> seq 0 G) →
  data t = mjoin (group_entries 0 evs T <$> seq 0 G) →
  Size t = G ∧ triples t ≡ₚ ev_triple <$> evs.
Proof.
  intros Habove Hbelow Hbase Hoff Hdata.
  assert (HSize : Size t = G).
  { unfold Size. rewrite Hoff. cbn [length]. rewrite length_fmap, length_seq. lia. }
  split; [done|].
  unfold triples. rewrite HSize, Hbase, <- (groups_triples evs T G Habove Hbelow).
  apply reflexive_eq, mjoin_seq_ext. intros g Hg.
  rewrite Hoff, Hdata. rewrite Z.add_0_l.
  f_equal.
  rewrite (list_fmap_ext _ (λ g, Z.of_nat
             (sum_list ((λ g', length (group_entries 0 evs T g')) <$> seq 0 (S g))))
             (seq 0 G) )
    by (intros; cbn beta; by rewrite before_groups_lengths).
  by apply (block_page_rows (group_entries 0 evs T) G 0).
Qed.

Lemma elem_of_row_slice off d i e : e ∈ row_slice off d i → e ∈ d.
Proof.
  unfold row_slice. intros He.
  eapply elem_of_sublist in He; [|apply sublist_take].
  eapply elem_of_sublist; [exact He | apply sublist_drop].
Qed.

(** The triples of the events of [GetTranspose]: those of the page, row
    and column exchanged. *)
Lemma transpose_events_triples (sched : nat → nat) (p : SparsePage) :
  0 ≤ base_rowid p →
  base_rowid p + Z.of_nat (Size p) ≤ 2 ^ 32 →
  Forall (λ e, 0 ≤ index e) (data p) →
  ev_triple <$> transpose_events sched p = swap_triple <$> triples p.
Proof.
  intros Hbase Hrows Hidx. unfold transpose_events, triples.
  rewrite !fmap_mjoin_seq. apply mjoin_seq_ext. intros i Hi.
  rewrite <- !list_fmap_compose. apply list_fmap_ext.
  intros _ e He%list_elem_of_lookup_2%elem_of_row_slice.
  eapply Forall_forall in Hidx; [|exact He].
  cbn. unfold ev_triple, swap_triple, Entry_ctor. cbn.
  rewrite Z2Nat.id by done.
  rewrite wrap32_wrap64.
  rewrite (wrap32_small (base_rowid p + Z.of_nat i)) by lia.
  by rewrite wrap32_small by lia.
Qed.

Lemma wrap32_idemp z : wrap32 (wrap32 z) = wrap32 z.
Proof. unfold wrap32. apply Z.mod_mod. lia. Qed.

Lemma group_entries_from_events base evs T G e :
  e ∈ mjoin (group_entries base evs T <$> seq 0 G) →
  ∃ ev, ev ∈ evs ∧ e = ev_entry ev.
Proof.
  intros (grp & He & (g & -> & _)%list_elem_of_fmap)%list_elem_of_join.
  unfold group_entries in He.
  apply list_elem_of_join in He as (cell & He & (t & -> & _)%list_elem_of_fmap).
  unfold cell_entries in He.
  apply list_elem_of_fmap in He as (ev & -> & [_ Hev]%list_elem_of_filter).
  by exists ev.
Qed.

Lemma transpose_events_rows (sched : nat → nat) (p : SparsePage) ev :
  ev ∈ transpose_events sched p →
  ∃ i, (i < Size p)%nat ∧
       index (ev_entry ev) = wrap32 (wrap64 (base_rowid p + Z.of_nat i)).
Proof.
  unfold transpose_events.
  intros (evs & Hev & (i & -> & Hi%elem_of_seq)%list_elem_of_fmap)%list_elem_of_join.
  apply list_elem_of_fmap in Hev as (entry & -> & _).
  exists i. split; [lia|]. unfold Entry_ctor. cbn [ev_entry index].
  apply wrap32_idemp.
Qed.

Lemma swap_triple_involutive x : swap_triple (swap_triple x) = x.
Proof. by destruct x as [[r c] v]. Qed.

(** One transposition: the result starts at row 0, has one row per
    column, holds the triples of the page with row and column exchanged,
    and its indices are the global rows of the page. *)
Lemma GetTranspose_triples (num_columns n_threads : Z) (sched : nat → nat)
    (p : SparsePage) :
  0 ≤ base_rowid p →
  base_rowid p + Z.of_nat (Size p) ≤ 2 ^ 32 →
  0 ≤ num_columns < 2 ^ 31 - 1 →
  1 ≤ n_threads →
  (∀ i, (i < Size p)%nat → (sched i < Z.to_nat n_threads)%nat) →
  Forall (λ e, 0 ≤ index e < num_columns) (data p) →
  ∃ t,
    GetTranspose num_columns n_threads sched p = Ok t ∧
    base_rowid t = 0 ∧
    Size t = Z.to_nat num_columns ∧
    triples t ≡ₚ swap_triple <$> triples p ∧
    Forall (λ e, base_rowid p ≤ index e < base_rowid p + Z.of_nat (Size p))
           (data t).
Proof.
  intros Hbase Hrows Hcols HT Hsched Hidx.
  assert (Hidx' : ∀ i e, (i < Size p)%nat →
            e ∈ row_slice (offset p) (data p) i → 0 ≤ index e < num_columns).
  { intros i e _ He%elem_of_row_slice.
    eapply Forall_forall in Hidx; [|exact He]. done. }
  destruct (GetTranspose_spec num_columns n_threads sched p Hcols HT Hsched Hidx')
    as (t & Hrun & Hbase_t & Hoff & Hdata).
  pose proof (transpose_events_above n_threads sched p Hsched) as Habove.
  pose proof (transpose_events_below num_columns sched p Hidx') as Hbelow.
  destruct (run_page_triples _ _ _ t Habove Hbelow Hbase_t Hoff Hdata)
    as [HSize Htr].
  exists t. split; [done|]. split; [done|]. split; [done|]. split.
  - rewrite Htr. apply reflexive_eq, transpose_events_triples; [done..|].
    eapply Forall_impl; [exact Hidx|]. cbn. lia.
  - apply Forall_forall. intros e He. rewrite Hdata in He.
    apply group_entries_from_events in He as (ev & Hev & ->).
    apply transpose_events_rows in Hev as (i & Hi & ->).
    rewrite wrap32_wrap64, wrap32_small; lia.
Qed.

(** C8. For a page [p] that starts at global row 0, with fewer than
    2^31 - 1 rows and [num_columns] below 2^31 - 1 (each count is passed
    as an [int] and incremented) and every column index in
    [0, num_columns), both transpositions succeed, whatever the thread
    counts and the assignments of rows to workers, and
    [GetTranspose(GetTranspose(p, num_columns), numRows(p))] holds the
    same (row, column, value) triples as [p], up to order. *)
Theorem GetTranspose_round_trip (num_columns n1 n2 : Z)
    (sched1 sched2 : nat → nat) (p : SparsePage) :
  base_rowid p = 0 →
  Z.of_nat (Size p) < 2 ^ 31 - 1 →
  0 ≤ num_columns < 2 ^ 31 - 1 →
  1 ≤ n1 → 1 ≤ n2 →
  (∀ i, (i < Size p)%nat → (sched1 i < Z.to_nat n1)%nat) →
  (∀ g, (g < Z.to_nat num_columns)%nat → (sched2 g < Z.to_nat n2)%nat) →
  Forall (λ e, 0 ≤ index e < num_columns) (data p) →
  ∃ t r,
    GetTranspose num_columns n1 sched1 p = Ok t ∧
    GetTranspose (Z.of_nat (Size p)) n2 sched2 t = Ok r ∧
    triples r ≡ₚ triples p.
Proof.
  intros Hbase Hsize Hcols Hn1 Hn2 Hs1 Hs2 Hidx.
  destruct (GetTranspose_triples num_columns n1 sched1 p)
    as (t & Ht & Hbase_t & HSize_t & Htr_t & Hidx_t); [lia..|done|done|].
  destruct (GetTranspose_triples (Z.of_nat (Size p)) n2 sched2 t)
    as (r & Hr & _ & _ & Htr_r & _); [lia..| | |].
  - intros g Hg. apply Hs2. lia.
  - eapply Forall_impl; [exact Hidx_t|]. cbn. lia.
  - exists t, r. split; [done|]. split; [done|].
    rewrite Htr_r, Htr_t, <- list_fmap_compose.
    apply reflexive_eq. rewrite <- (list_fmap_id (triples p)) at 2.
    apply list_fmap_ext. intros _ x _. apply swap_triple_involutive.
Qed.

Lemma GetTranspose_round_trip_witness :
  base_rowid csc_one = 0 ∧
  Z.of_nat (Size csc_one) < 2 ^ 31 - 1 ∧
  0 ≤ 1 < 2 ^ 31 - 1 ∧ 1 ≤ 2 ∧ 1 ≤ 3 ∧
  (∀ i, (i < Size csc_one)%nat → (Nat.modulo i 2 < Z.to_nat 2)%nat) ∧
  (∀ g, (g < Z.to_nat 1)%nat → (Nat.modulo g 3 < Z.to_nat 3)%nat) ∧
  Forall (λ e, 0 ≤ index e < 1) (data csc_one) ∧
  ∃ t r,
    GetTranspose 1 2 (λ i, Nat.modulo i 2) csc_one = Ok t ∧
    GetTranspose (Z.of_nat (Size csc_one)) 3 (λ g, Nat.modulo g 3) t = Ok r ∧
    triples r ≡ₚ triples csc_one.
Proof.
  assert (H1 : ∀ i, (i < Size csc_one)%nat → (Nat.modulo i 2 < Z.to_nat 2)%nat).
  { intros i _. apply Nat.mod_upper_bound. cbn. lia. }
  assert (H2 : ∀ g, (g < Z.to_nat 1)%nat → (Nat.modulo g 3 < Z.to_nat 3)%nat).
  { intros g _. apply Nat.mod_upper_bound. cbn. lia. }
  assert (H3 : Forall (λ e, 0 ≤ index e < 1) (data csc_one)).
  { repeat constructor; cbn; lia. }
  repeat (split; [first [reflexivity | done | lia | cbn; lia]|]).
  apply (GetTranspose_round_trip 1 2 3 _ _ csc_one);
    first [reflexivity | done | lia | cbn; lia].
Defined.

(** On [page_from_row_1], whose only column index is below 1, the second
    transposition fails: the transposed page carries the global row 1 as
    its index, and a page of one row has no group for it.  So no round
    trip gives back the triples of the page. *)
Lemma GetTranspose_round_trip_needs_base_0 :
  Forall (λ e, 0 ≤ index e < 1) (data page_from_row_1) ∧
  (∃ t, GetTranspose 1 1 (λ _, 0%nat) page_from_row_1 = Ok t ∧
        GetTranspose (Z.of_nat (Size page_from_row_1)) 1 (λ _, 0%nat) t
        = Err CheckTransposeSize) ∧
  ¬ ∃ t r,
      GetTranspose 1 1 (λ _, 0%nat) page_from_row_1 = Ok t ∧
      GetTranspose (Z.of_nat (Size page_from_row_1)) 1 (λ _, 0%nat) t = Ok r ∧
      triples r ≡ₚ triples page_from_row_1.
Proof.
  split; [repeat constructor; cbn; lia|]. split.
  - eexists. split; [vm_compute; reflexivity|]. vm_compute. reflexivity.
  - intros (t & r & Ht & Hr & _).
    vm_compute in Ht. injection Ht as <-.
    vm_compute in Hr. discriminate.
Qed.

(** With [INT_MAX] columns the sum [num_columns + 1] of data.cc:1045 does
    not fit [int]: no call returns a page. *)
Lemma GetTranspose_int_max (n_threads : Z) (sched : nat → nat)
    (p : SparsePage) :
  is_Err (GetTranspose (2 ^ 31 - 1) n_threads sched p).
Proof.
  assert (Hover : int_add (2 ^ 31 - 1) 1 = Err Undefined) by reflexivity.
  unfold GetTranspose. cbv zeta. rewrite Hover.
  destruct (ParallelFor _ _ _ _) as [b|e]; [|exact I]. rewrite bind_Ok.
  destruct (ParallelFor _ _ _ _) as [b'|e]; [|exact I]. rewrite bind_Ok.
  destruct (data p); exact I.
Qed.

(** ** Push of an adapter batch: the two passes *)

Lemma foldlM_mjoin {A B} (f : A → B → result A) (a : A) (ls : list (list B)) :
  foldlM f a (mjoin ls) = foldlM (λ a l, foldlM f a l) a ls.
Proof.
  revert a. induction ls as [|l ls IH]; intros a; [done|].
  cbn [mjoin list_join]. rewrite foldlM_app, foldlM_cons.
  destruct (foldlM f a l); [apply IH | done].
Qed.

(** Both passes are one walk over the tagged tuples. *)
Lemma for_each_thread_tagged {S} (batch : AdapterBatch) (thread_size nthread : nat)
    (body : nat → S → COOTuple → result S) (s : S) :
  for_each_thread batch thread_size nthread body s
  = foldlM (λ s x, body x.1 s x.2) s (tagged_tuples batch thread_size nthread).
Proof.
  unfold for_each_thread, tagged_tuples.
  rewrite foldlM_mjoin, foldlM_fmap. apply foldlM_ext. intros s' tid.
  rewrite foldlM_fmap, foldlM_mjoin. done.
Qed.

(** The workers' slices cover the lines of the batch, in order. *)
Lemma thread_lines_prefix (batch : AdapterBatch) (thread_size nthread k : nat) :
  (k ≤ nthread - 1)%nat →
  mjoin (thread_lines batch thread_size nthread <$> seq 0 k)
  = take (k * thread_size) (lines batch).
Proof.
  induction k as [|k IH]; intros Hk; [done|].
  rewrite mjoin_seq_S, IH by lia. unfold thread_lines.
  rewrite decide_True by lia.
  replace ((k + 1) * thread_size - k * thread_size)%nat with thread_size by lia.
  rewrite take_take_drop. f_equal. lia.
Qed.

Lemma thread_lines_partition (batch : AdapterBatch) (thread_size nthread : nat) :
  (1 ≤ nthread)%nat →
  mjoin (thread_lines batch thread_size nthread <$> seq 0 nthread)
  = lines batch.
Proof.
  intros HT. replace nthread with (S (nthread - 1)) at 2 by lia.
  rewrite mjoin_seq_S, thread_lines_prefix by lia. unfold thread_lines.
  rewrite decide_False by lia.
  rewrite (take_ge (drop _ _)) by (rewrite length_drop; lia).
  apply take_drop.
Qed.

Lemma mjoin_mjoin_seq {A} (f : nat → list (list A)) (n : nat) :
  mjoin ((λ i, mjoin (f i)) <$> seq 0 n) = mjoin (mjoin (f <$> seq 0 n)).
Proof.
  induction n as [|n IH]; [done|].
  by rewrite !mjoin_seq_S, join_app, IH.
Qed.

Lemma tagged_tuples_all (batch : AdapterBatch) (thread_size nthread : nat) :
  (1 ≤ nthread)%nat →
  snd <$> tagged_tuples batch thread_size nthread = batch_tuples batch.
Proof.
  intros HT. unfold tagged_tuples, batch_tuples.
  rewrite fmap_mjoin_seq.
  transitivity (mjoin (mjoin (thread_lines batch thread_size nthread
                              <$> seq 0 nthread)));
    [|by rewrite thread_lines_partition].
  rewrite <- mjoin_mjoin_seq. apply mjoin_seq_ext. intros tid _.
  rewrite <- list_fmap_compose. apply list_fmap_id.
Qed.

Lemma tagged_tuples_tid (batch : AdapterBatch) (thread_size nthread : nat) :
  Forall (λ x, (x.1 < nthread)%nat) (tagged_tuples batch thread_size nthread).
Proof.
  apply Forall_forall. intros x Hx. unfold tagged_tuples in Hx.
  apply list_elem_of_join in Hx as (xs & Hx & (tid & -> & Htid%elem_of_seq)%list_elem_of_fmap).
  apply list_elem_of_fmap in Hx as (el & -> & _). cbn. lia.
Qed.

(** The body of the first pass on a tuple whose row is not below the
    base. *)
Lemma count_element_ok (missing : spec_float) (base_rowid : Z) (boff tid : nat)
    (st : count_state) (el : COOTuple) :
  Z.of_nat boff ≤ tuple_key base_rowid el →
  count_element missing base_rowid boff tid st el
  = builder ←
      (if IsValidFunctor missing el
       then ParallelGroupBuilder.AddBudget
              (Z.to_nat (tuple_key base_rowid el)) tid (cs_builder st)
       else Ok (cs_builder st));
    Ok (mkCount builder (cs_valid st && admissible missing el)
          (alter (λ c, Z.max c (tuple_columns el)) tid (cs_max_columns st))).
Proof.
  intros Hkey. unfold count_element. fold (tuple_key base_rowid el).
  rewrite decide_False by lia.
  fold (IsValidFunctor missing el) (tuple_columns el).
  replace (if negb (isinf missing) && isinf (value el) then false else cs_valid st)
    with (cs_valid st && admissible missing el); [done|].
  unfold admissible.
  by destruct (negb (isinf missing) && isinf (value el)), (cs_valid st).
Qed.

(** The first pass over tuples whose rows are not below the base: the
    builder gets the count pass of the tuples that pass the Validity
    Filter, the flag stays up while every tuple is admissible, and every
    worker keeps the largest column count it saw. *)
Lemma count_elements (missing : spec_float) (base_rowid : Z) (boff : nat)
    (xs : list (nat * COOTuple)) : ∀ (st : count_state) (bf : PGB),
  Forall (λ x, Z.of_nat boff ≤ tuple_key base_rowid x.2) xs →
  count_pass (cs_builder st) (push_events missing base_rowid xs) = Ok bf →
  foldlM (λ st x, count_element missing base_rowid boff x.1 st x.2) st xs
  = Ok (mkCount bf
          (cs_valid st && forallb (λ x, admissible missing x.2) xs)
          (foldl (λ m x, alter (λ c, Z.max c (tuple_columns x.2)) x.1 m)
                 (cs_max_columns st) xs)).
Proof.
  induction xs as [|[tid el] xs IH]; intros st bf Hkeys Hcount.
  - cbn in *. rewrite andb_true_r. injection Hcount as <-. by destruct st.
  - apply Forall_cons in Hkeys as [Hkey Hkeys]. cbn [fst snd] in *.
    rewrite foldlM_cons. cbn [fst snd]. rewrite count_element_ok by done.
    unfold push_events in Hcount. rewrite filter_cons in Hcount.
    cbn [fst snd] in Hcount.
    destruct (IsValidFunctor missing el) eqn:Hvalid.
    + rewrite decide_True in Hcount by done. cbn [fmap list_fmap] in Hcount.
      unfold count_pass in Hcount. rewrite foldlM_cons in Hcount.
      apply bind_Ok_inv in Hcount as (b1 & Hadd & Hcount).
      cbn [tuple_event ev_key ev_tid fst snd] in Hadd.
      rewrite Hadd, !bind_Ok.
      rewrite (IH _ bf Hkeys) by exact Hcount.
      cbn [cs_valid cs_max_columns forallb foldl fst snd].
      by rewrite andb_assoc.
    + rewrite decide_False in Hcount by done.
      rewrite !bind_Ok.
      rewrite (IH _ bf Hkeys) by exact Hcount.
      cbn [cs_valid cs_max_columns forallb foldl fst snd].
      by rewrite andb_assoc.
Qed.

Lemma place_element_eq (missing : spec_float) (base_rowid : Z) (tid : nat)
    (b : PGB) (el : COOTuple) :
  place_element missing base_rowid tid b el
  = if IsValidFunctor missing el
    then ParallelGroupBuilder.Push (Z.to_nat (tuple_key base_rowid el))
           (tuple_entry el) tid b
    else Ok b.
Proof. reflexivity. Qed.

(** The second pass is the placement pass of the same events. *)
Lemma place_elements (missing : spec_float) (base_rowid : Z)
    (xs : list (nat * COOTuple)) : ∀ (b : PGB),
  foldlM (λ b x, place_element missing base_rowid x.1 b x.2) b xs
  = place_pass b (push_events missing base_rowid xs).
Proof.
  induction xs as [|[tid el] xs IH]; intros b; [done|].
  rewrite foldlM_cons. cbn [fst snd]. rewrite place_element_eq.
  unfold push_events. rewrite filter_cons. cbn [fst snd].
  destruct (IsValidFunctor missing el) eqn:Hvalid.
  - rewrite decide_True by done. cbn [fmap list_fmap].
    unfold place_pass. rewrite foldlM_cons.
    cbn [tuple_event ev_key ev_tid ev_entry fst snd].
    destruct (ParallelGroupBuilder.Push _ _ _ _) as [b1|e]; [|done].
    rewrite !bind_Ok. apply IH.
  - rewrite decide_False by done.
    rewrite bind_Ok. apply IH.
Qed.

Lemma forallb_fmap {A B} (h : A → B) (f : B → bool) (l : list A) :
  forallb f (h <$> l) = forallb (λ x, f (h x)) l.
Proof. induction l as [|x l IH]; [done|]. cbn. by rewrite IH. Qed.

Lemma push_events_above (missing : spec_float) (base_rowid : Z) (boff T : nat)
    (xs : list (nat * COOTuple)) :
  Forall (λ x, (x.1 < T)%nat) xs →
  Forall (λ x, Z.of_nat boff ≤ tuple_key base_rowid x.2) xs →
  events_above boff T (push_events missing base_rowid xs).
Proof.
  intros Htid Hkey. unfold events_above, push_events.
  apply Forall_fmap, Forall_forall. intros x [_ Hx]%list_elem_of_filter.
  rewrite Forall_forall in Htid, Hkey.
  specialize (Htid x Hx). specialize (Hkey x Hx). cbn. lia.
Qed.

(** What [Push] does with a batch that has lines, at least one worker
    and no row below the rows of the page: it fails with [InfInData] when
    a tuple is inadmissible; otherwise it appends the groups of its events
    to the page and returns the largest column count a worker saw. *)
Lemma Push_least (batch : AdapterBatch) (missing : spec_float) (nthread : Z)
    (p : SparsePage) :
  let nthread' := if kIsRowMajor batch then nthread else 1 in
  let T := Z.to_nat nthread' in
  let thread_size := Z.to_nat (Z.of_nat (length (lines batch)) / nthread') in
  let xs := tagged_tuples batch thread_size T in
  let evs := push_events missing (base_rowid p) xs in
  let top := Z.to_nat (default 0 (last (offset p))) in
  let G0 :=
    ParallelGroupBuilder.full_size (kIsRowMajor batch) (Size p)
      (Z.to_nat (expected_rows batch (base_rowid p))) in
  lines batch ≠ [] →
  1 ≤ nthread' →
  Forall (λ el, Z.of_nat (Size p) ≤ tuple_key (base_rowid p) el)
         (batch_tuples batch) →
  ∃ G,
    (G0 ≤ G)%nat ∧
    events_below (Size p) G evs ∧
    (∀ G', (G0 ≤ G')%nat → events_below (Size p) G' evs → (G ≤ G')%nat) ∧
    Push batch missing nthread p
    = if forallb (admissible missing) (batch_tuples batch)
      then Ok (mkPage
                 (offset p
                  ++ ((λ g, Z.of_nat (top + before_groups (Size p) evs T (S g)))
                      <$> seq 0 G))
                 (resize top Entry_default (data p)
                  ++ mjoin (group_entries (Size p) evs T <$> seq 0 G))
                 (base_rowid p),
               foldl Z.max 0
                 (foldl (λ m x, alter (λ c, Z.max c (tuple_columns x.2)) x.1 m)
                        (replicate T 0) xs))
      else Err InfInData.
Proof.
  intros nthread' T thread_size xs evs top G0 Hlines HT Hkeys.
  assert (Hxs_keys : Forall (λ x, Z.of_nat (Size p) ≤ tuple_key (base_rowid p) x.2) xs).
  { rewrite <- (tagged_tuples_all batch thread_size T) in Hkeys by lia.
    rewrite Forall_fmap in Hkeys. exact Hkeys. }
  assert (Habove : events_above (Size p) T evs).
  { apply push_events_above; [apply tagged_tuples_tid | exact Hxs_keys]. }
  destruct (two_pass_least (kIsRowMajor batch) (offset p) (data p) (Size p)
              (Z.to_nat (expected_rows batch (base_rowid p))) T evs)
    as (b & G & Hrun & HG0 & Hbelow & HGeq & Hoff & Hdata); [lia | exact Habove |].
  fold top G0 in Hoff, Hdata, HG0, HGeq.
  exists G. split; [exact HG0|]. split; [exact Hbelow|]. split; [exact HGeq|].
  unfold two_pass in Hrun. apply bind_Ok_inv in Hrun as (b1 & Hcount & Hplace).
  unfold Push. fold nthread'.
  rewrite decide_False by (destruct (lines batch); [done | cbn; lia]).
  rewrite decide_False by lia.
  fold thread_size T.
  rewrite for_each_thread_tagged. fold xs.
  rewrite (count_elements missing (base_rowid p) (Size p) xs
             (mkCount _ true _) b1 Hxs_keys Hcount).
  rewrite bind_Ok. cbn [cs_valid cs_builder cs_max_columns andb].
  rewrite <- (tagged_tuples_all batch thread_size T) by lia. fold xs.
  rewrite forallb_fmap.
  destruct (forallb _ xs); cbn [negb]; [|done].
  rewrite for_each_thread_tagged. fold xs.
  rewrite place_elements. fold evs. rewrite Hplace, bind_Ok.
  by rewrite Hoff, Hdata.
Qed.

Lemma Push_spec (batch : AdapterBatch) (missing : spec_float) (nthread : Z)
    (p : SparsePage) :
  let nthread' := if kIsRowMajor batch then nthread else 1 in
  let T := Z.to_nat nthread' in
  let thread_size := Z.to_nat (Z.of_nat (length (lines batch)) / nthread') in
  let xs := tagged_tuples batch thread_size T in
  let evs := push_events missing (base_rowid p) xs in
  let top := Z.to_nat (default 0 (last (offset p))) in
  let G0 :=
    ParallelGroupBuilder.full_size (kIsRowMajor batch) (Size p)
      (Z.to_nat (expected_rows batch (base_rowid p))) in
  lines batch ≠ [] →
  1 ≤ nthread' →
  Forall (λ el, Z.of_nat (Size p) ≤ tuple_key (base_rowid p) el)
         (batch_tuples batch) →
  ∃ G,
    (G0 ≤ G)%nat ∧
    events_below (Size p) G evs ∧
    (events_below (Size p) G0 evs → G = G0) ∧
    Push batch missing nthread p
    = if forallb (admissible missing) (batch_tuples batch)
      then Ok (mkPage
                 (offset p
                  ++ ((λ g, Z.of_nat (top + before_groups (Size p) evs T (S g)))
                      <$> seq 0 G))
                 (resize top Entry_default (data p)
                  ++ mjoin (group_entries (Size p) evs T <$> seq 0 G))
                 (base_rowid p),
               foldl Z.max 0
                 (foldl (λ m x, alter (λ c, Z.max c (tuple_columns x.2)) x.1 m)
                        (replicate T 0) xs))
      else Err InfInData.
Proof.
  intros nthread' T thread_size xs evs top G0 Hlines HT Hkeys.
  destruct (Push_least batch missing nthread p Hlines HT Hkeys)
    as (G & HG0 & Hbelow & Hleast & Hpush).
  exists G. split; [exact HG0|]. split; [exact Hbelow|].
  split; [|exact Hpush].
  intros Hbelow0. apply Nat.le_antisymm; [|exact HG0].
  by apply Hleast.
Qed.

(** ** Push of an adapter batch: failure *)

Lemma admissible_all (missing : spec_float) (tuples : list COOTuple) :
  forallb (admissible missing) tuples = false ↔
  isinf missing = false ∧ ∃ el, el ∈ tuples ∧ isinf (value el) = true.
Proof.
  induction tuples as [|el tuples IH].
  - cbn. split; [done|]. intros (_ & el & Hel & _). by apply elem_of_nil in Hel.
  - cbn [forallb]. rewrite andb_false_iff, IH. unfold admissible.
    split.
    + intros [Hel|(Hm & el' & Hel' & Hinf)].
      * apply negb_false_iff, andb_true_iff in Hel as [Hm Hinf].
        apply negb_true_iff in Hm. split; [done|]. exists el.
        split; [apply list_elem_of_here | done].
      * split; [done|]. exists el'. split; [by apply list_elem_of_further | done].
    + intros (Hm & el' & Hel' & Hinf).
      apply elem_of_cons in Hel' as [->|Hel'].
      * left. by rewrite Hm, Hinf.
      * right. split; [done|]. by exists el'.
Qed.

(** C2. For a thread count of at least one and a batch none of whose
    tuples lies in a row below the rows of the page, [Push] fails exactly
    when the missing sentinel is not infinite (a finite value or NaN) and
    some tuple of the batch has an infinite value; the failure is the
    [InfInData] check that follows the first pass.  So with an infinite
    sentinel infinite values do not make it fail. *)
Theorem Push_fails_iff (batch : AdapterBatch) (missing : spec_float)
    (nthread : Z) (p : SparsePage) :
  1 ≤ (if kIsRowMajor batch then nthread else 1) →
  Forall (λ el, Z.of_nat (Size p) ≤ tuple_key (base_rowid p) el)
         (batch_tuples batch) →
  (is_Err (Push batch missing nthread p) ↔
   isinf missing = false ∧
   ∃ el, el ∈ batch_tuples batch ∧ isinf (value el) = true) ∧
  (is_Err (Push batch missing nthread p) →
   Push batch missing nthread p = Err InfInData) ∧
  (isinf missing = true → ¬ is_Err (Push batch missing nthread p)).
Proof.
  intros HT Hkeys.
  assert (Hpush :
    Push batch missing nthread p = Err InfInData ∧
      forallb (admissible missing) (batch_tuples batch) = false ∨
    (∃ res, Push batch missing nthread p = Ok res) ∧
      forallb (admissible missing) (batch_tuples batch) = true).
  { destruct (lines batch) as [|l ls] eqn:Hlines.
    - right. split.
      + eexists. apply Push_empty_batch. by rewrite Hlines.
      + unfold batch_tuples. by rewrite Hlines.
    - destruct (Push_spec batch missing nthread p) as (G & _ & _ & _ & ->);
        [by rewrite Hlines | done..|].
      destruct (forallb _ _); [right | left]; eauto. }
  rewrite <- admissible_all.
  destruct Hpush as [[-> Hadm]|[[res ->] Hadm]]; rewrite Hadm; cbn.
  - split; [done|]. split; [done|]. intros Hm _.
    apply admissible_all in Hadm as [Hm' _]. congruence.
  - split; [split; [done|discriminate]|]. split; [done|]. tauto.
Qed.

Lemma Push_fails_iff_witness :
  1 ≤ (if kIsRowMajor batch_infinite then 2 else 1) ∧
  Forall (λ el, Z.of_nat (Size SparsePage_new)
                ≤ tuple_key (base_rowid SparsePage_new) el)
         (batch_tuples batch_infinite) ∧
  Push batch_infinite S754_nan 2 SparsePage_new = Err InfInData.
Proof.
  assert (H1 : 1 ≤ (if kIsRowMajor batch_infinite then 2 else 1)) by (cbn; lia).
  assert (H2 : Forall (λ el, Z.of_nat (Size SparsePage_new)
                             ≤ tuple_key (base_rowid SparsePage_new) el)
                      (batch_tuples batch_infinite)).
  { repeat constructor. vm_compute. discriminate. }
  split; [exact H1|]. split; [exact H2|].
  destruct (Push_fails_iff batch_infinite S754_nan 2 SparsePage_new H1 H2)
    as (Hiff & Herr & _).
  apply Herr, Hiff. split; [reflexivity|].
  exists (mkCOO 0 0 (S754_infinity false)).
  split; [apply list_elem_of_here | reflexivity].
Defined.

(** The claim as the specification words it, with a finite sentinel on
    its right-hand side, fails twice: with the sentinel NaN, which is not
    finite, an infinite value makes [Push] fail; and with a finite
    sentinel and no infinite value, a tuple in a row below the rows of the
    page makes it fail. *)
Lemma Push_fails_iff_finite_counterexample :
  (Push batch_infinite S754_nan 1 SparsePage_new = Err InfInData ∧
   ¬ (is_Err (Push batch_infinite S754_nan 1 SparsePage_new) ↔
      isfinite S754_nan = true ∧
      ∃ el, el ∈ batch_tuples batch_infinite ∧ isinf (value el) = true)) ∧
  (Push batch_one (S754_zero false) 1 page_one_row = Err CheckKeyGE ∧
   ¬ (is_Err (Push batch_one (S754_zero false) 1 page_one_row) ↔
      isfinite (S754_zero false) = true ∧
      ∃ el, el ∈ batch_tuples batch_one ∧ isinf (value el) = true)).
Proof.
  split; (split; [vm_compute; reflexivity|]).
  - intros [Hfail _]. destruct Hfail as [Hfin _]; [exact I | discriminate].
  - intros [Hfail _]. destruct Hfail as (_ & el & Hel & Hinf); [exact I|].
    apply list_elem_of_singleton in Hel as ->. discriminate.
Qed.

(** ** Push of an adapter batch: the column count returned *)

Lemma foldl_max_ge (l : list Z) : ∀ acc,
  acc ≤ foldl Z.max acc l ∧ ∀ c, c ∈ l → c ≤ foldl Z.max acc l.
Proof.
  induction l as [|x l IH]; intros acc; cbn [foldl].
  - split; [lia|]. intros c Hc. by apply elem_of_nil in Hc.
  - destruct (IH (acc `max` x)) as [Hacc Hall]. split; [lia|].
    intros c [->|Hc]%elem_of_cons; [lia | by apply Hall].
Qed.

Lemma foldl_max_in (l : list Z) : ∀ acc,
  foldl Z.max acc l = acc ∨ foldl Z.max acc l ∈ l.
Proof.
  induction l as [|x l IH]; intros acc; cbn [foldl]; [by left|].
  destruct (IH (acc `max` x)) as [->|Hin].
  - destruct (Z.max_spec acc x) as [[_ ->]|[_ ->]];
      [right; apply list_elem_of_here | by left].
  - right. by apply list_elem_of_further.
Qed.

Section max_columns.
Variable cols : COOTuple → Z.
Abbreviation see := (keep_max cols).

Lemma see_length xs : ∀ m, length (foldl see m xs) = length m.
Proof.
  induction xs as [|x xs IH]; intros m; [done|].
  cbn [foldl]. rewrite IH. apply length_alter.
Qed.

(** A worker's slot never goes down. *)
Lemma see_mono xs : ∀ m t c,
  m !! t = Some c → ∃ c', foldl see m xs !! t = Some c' ∧ c ≤ c'.
Proof.
  induction xs as [|x xs IH]; intros m t c Hc; cbn [foldl].
  - exists c. split; [done|lia].
  - destruct (decide (x.1 = t)) as [<-|Hne].
    + destruct (IH (see m x) x.1 (c `max` cols x.2)) as (c' & Hc' & Hle).
      { unfold keep_max. by rewrite list_lookup_alter_eq, Hc. }
      exists c'. split; [done|lia].
    + apply IH. unfold keep_max. by rewrite list_lookup_alter_ne.
Qed.

(** Every tuple a worker walks is below that worker's slot. *)
Lemma see_upper xs : ∀ m x,
  x ∈ xs → (x.1 < length m)%nat →
  ∃ c, foldl see m xs !! x.1 = Some c ∧ cols x.2 ≤ c.
Proof.
  induction xs as [|x0 xs IH]; intros m x Hx Hlen.
  - by apply elem_of_nil in Hx.
  - cbn [foldl]. apply elem_of_cons in Hx as [->|Hx].
    + destruct (lookup_lt_is_Some_2 m x0.1 Hlen) as [c0 Hc0].
      destruct (see_mono xs (see m x0) x0.1 (c0 `max` cols x0.2))
        as (c' & Hc' & Hle).
      { unfold keep_max. by rewrite list_lookup_alter_eq, Hc0. }
      exists c'. split; [done|lia].
    + apply IH; [done|]. unfold keep_max. by rewrite length_alter.
Qed.

(** Every slot holds what it started with or what some tuple asked
    for. *)
Lemma see_attained xs : ∀ m t c,
  foldl see m xs !! t = Some c →
  m !! t = Some c ∨ ∃ x, x ∈ xs ∧ c = cols x.2.
Proof.
  induction xs as [|x0 xs IH]; intros m t c Hc; cbn [foldl] in Hc; [by left|].
  destruct (IH _ _ _ Hc) as [Hm|(x & Hx & ->)].
  - unfold keep_max in Hm. destruct (decide (x0.1 = t)) as [<-|Hne].
    + rewrite list_lookup_alter_eq in Hm.
      destruct (m !! x0.1) as [c0|] eqn:Hc0; [|done]. cbn in Hm.
      injection Hm as <-.
      destruct (Z.max_spec c0 (cols x0.2)) as [[_ ->]|[_ ->]].
      * right. exists x0. split; [apply list_elem_of_here | done].
      * by left.
    + rewrite list_lookup_alter_ne in Hm by done. by left.
  - right. exists x. split; [by apply list_elem_of_further | done].
Qed.

(** The reduction of the workers' slots, started from zeros, over tuples
    that ask for nothing negative: an upper bound that some tuple
    attains, or zero when there is no tuple. *)
Lemma max_columns_spec (T : nat) (xs : list (nat * COOTuple)) :
  Forall (λ x, (x.1 < T)%nat ∧ 0 ≤ cols x.2) xs →
  let r := foldl Z.max 0 (foldl see (replicate T 0) xs) in
  (∀ x, x ∈ xs → cols x.2 ≤ r) ∧
  ((∃ x, x ∈ xs ∧ r = cols x.2) ∨ xs = [] ∧ r = 0).
Proof.
  intros Hxs r. rewrite Forall_forall in Hxs.
  destruct (foldl_max_ge (foldl see (replicate T 0) xs) 0) as [H0 Hge].
  fold r in H0, Hge. split.
  - intros x Hx. destruct (Hxs x Hx) as [Ht _].
    destruct (see_upper xs (replicate T 0) x Hx) as (c & Hc & Hle).
    { by rewrite length_replicate. }
    apply list_elem_of_lookup_2 in Hc. specialize (Hge c Hc). lia.
  - destruct xs as [|x0 xs].
    { right. split; [done|].
      destruct (foldl_max_in (foldl see (replicate T 0) []) 0) as [Hr|Hr];
        fold r in Hr; [done|].
      cbn [foldl] in Hr. by apply elem_of_replicate in Hr as [? _]. }
    left.
    destruct (foldl_max_in (foldl see (replicate T 0) (x0 :: xs)) 0) as [Hr|Hr];
      fold r in Hr.
    + exists x0. split; [apply list_elem_of_here|].
      destruct (Hxs x0 (list_elem_of_here _ _)) as [Ht Hpos].
      destruct (see_upper (x0 :: xs) (replicate T 0) x0 (list_elem_of_here _ _))
        as (c & Hc & Hle); [by rewrite length_replicate|].
      apply list_elem_of_lookup_2 in Hc. specialize (Hge c Hc). lia.
    + apply list_elem_of_lookup in Hr as [t Hr].
      destruct (see_attained _ _ _ _ Hr) as [Hm|(x & Hx & Hrx)].
      * apply lookup_replicate in Hm as [Hr0 _].
        exists x0. split; [apply list_elem_of_here|].
        destruct (Hxs x0 (list_elem_of_here _ _)) as [Ht Hpos].
        destruct (see_upper (x0 :: xs) (replicate T 0) x0 (list_elem_of_here _ _))
          as (c & Hc & Hle); [by rewrite length_replicate|].
        apply list_elem_of_lookup_2 in Hc. specialize (Hge c Hc). lia.
      * by exists x.
Qed.

End max_columns.

(** C5. For a thread count of at least one and a batch whose tuples are
    admissible, lie in no row below the rows of the page and have column
    indices whose successor fits 64 bits, [Push] returns a number that no
    column index plus 1 exceeds and that is the column index plus 1 of
    some tuple, whether or not that tuple passes the Validity Filter; for
    a batch without tuples it returns 0. *)
Theorem Push_returns_max_column (batch : AdapterBatch) (missing : spec_float)
    (nthread : Z) (p : SparsePage) :
  1 ≤ (if kIsRowMajor batch then nthread else 1) →
  Forall (λ el, Z.of_nat (Size p) ≤ tuple_key (base_rowid p) el)
         (batch_tuples batch) →
  forallb (admissible missing) (batch_tuples batch) = true →
  Forall (λ el, 0 ≤ column_idx el < 2 ^ 64 - 1) (batch_tuples batch) →
  ∃ p' r,
    Push batch missing nthread p = Ok (p', r) ∧
    (∀ el, el ∈ batch_tuples batch → column_idx el + 1 ≤ r) ∧
    ((∃ el, el ∈ batch_tuples batch ∧ r = column_idx el + 1) ∨
     batch_tuples batch = [] ∧ r = 0).
Proof.
  intros HT Hkeys Hadm Hcols.
  destruct (decide (lines batch = [])) as [Hlines|Hlines].
  { exists p, 0. split; [apply Push_empty_batch; by rewrite Hlines|].
    unfold batch_tuples. rewrite Hlines. split; [|by right].
    intros el Hel. by apply elem_of_nil in Hel. }
  destruct (Push_spec batch missing nthread p) as (G & _ & _ & _ & Hpush);
    [done..|].
  rewrite Hadm in Hpush. rewrite Hpush. clear Hpush.
  set (T := Z.to_nat (if kIsRowMajor batch then nthread else 1)).
  set (xs := tagged_tuples batch _ T).
  assert (Hall : snd <$> xs = batch_tuples batch)
    by (apply tagged_tuples_all; lia).
  assert (Hcol : ∀ x, x ∈ xs → tuple_columns x.2 = column_idx x.2 + 1).
  { intros x Hx. unfold tuple_columns. apply wrap64_small.
    rewrite <- Hall, Forall_fmap, Forall_forall in Hcols.
    specialize (Hcols x Hx). cbn in Hcols. lia. }
  destruct (max_columns_spec tuple_columns T xs) as [Hupper Hattained].
  { apply Forall_forall. intros x Hx. split.
    - unfold xs in Hx.
      eapply Forall_forall in Hx; [|apply tagged_tuples_tid]. exact Hx.
    - rewrite (Hcol x Hx).
      rewrite <- Hall, Forall_fmap, Forall_forall in Hcols.
      specialize (Hcols x Hx). cbn in Hcols. lia. }
  eexists _, _. split; [reflexivity|].
  change (λ (m : list Z) (x : nat * COOTuple),
            alter (λ c : Z, c `max` tuple_columns x.2) x.1 m)
    with (keep_max tuple_columns).
  set (r := foldl Z.max 0 _) in *. rewrite <- Hall. split.
  - intros el (x & -> & Hx)%list_elem_of_fmap.
    rewrite <- (Hcol x Hx). by apply Hupper.
  - destruct Hattained as [(x & Hx & Hr)|[Hnil Hr]].
    + left. exists x.2. split; [by apply list_elem_of_fmap_2|].
      by rewrite <- (Hcol x Hx).
    + right. by rewrite Hnil.
Qed.

Lemma Push_returns_max_column_witness :
  1 ≤ (if kIsRowMajor (batch_1_nan_0_0 true) then 3 else 1) ∧
  Forall (λ el, Z.of_nat (Size SparsePage_new)
                ≤ tuple_key (base_rowid SparsePage_new) el)
         (batch_tuples (batch_1_nan_0_0 true)) ∧
  forallb (admissible (S754_zero false)) (batch_tuples (batch_1_nan_0_0 true))
  = true ∧
  Forall (λ el, 0 ≤ column_idx el < 2 ^ 64 - 1)
         (batch_tuples (batch_1_nan_0_0 true)) ∧
  ∃ p' r,
    Push (batch_1_nan_0_0 true) (S754_zero false) 3 SparsePage_new = Ok (p', r) ∧
    (∀ el, el ∈ batch_tuples (batch_1_nan_0_0 true) → column_idx el + 1 ≤ r) ∧
    ((∃ el, el ∈ batch_tuples (batch_1_nan_0_0 true) ∧ r = column_idx el + 1) ∨
     batch_tuples (batch_1_nan_0_0 true) = [] ∧ r = 0).
Proof.
  assert (H1 : 1 ≤ (if kIsRowMajor (batch_1_nan_0_0 true) then 3 else 1))
    by (cbn; lia).
  assert (H2 : Forall (λ el, Z.of_nat (Size SparsePage_new)
                             ≤ tuple_key (base_rowid SparsePage_new) el)
                      (batch_tuples (batch_1_nan_0_0 true))).
  { repeat constructor; vm_compute; discriminate. }
  assert (H3 : forallb (admissible (S754_zero false))
                 (batch_tuples (batch_1_nan_0_0 true)) = true) by reflexivity.
  assert (H4 : Forall (λ el, 0 ≤ column_idx el < 2 ^ 64 - 1)
                      (batch_tuples (batch_1_nan_0_0 true))).
  { repeat constructor; cbn; lia. }
  split; [exact H1|]. split; [exact H2|]. split; [exact H3|]. split; [exact H4|].
  exact (Push_returns_max_column (batch_1_nan_0_0 true) (S754_zero false) 3
           SparsePage_new H1 H2 H3 H4).
Defined.

(** The claim as the specification words it, for every batch, fails on
    [batch_last_column]: the column index plus 1 is taken in 64 bits
    (data.cc:1168), where the last column wraps to 0, so [Push] returns
    6, the successor of the other column, and not a number above the
    largest column index. *)
Lemma Push_returns_max_column_wraps :
  Push batch_last_column S754_nan 1 SparsePage_new
  = Ok (mkPage [0; 2] [mkEntry (2 ^ 32 - 1) f32_1; mkEntry 5 f32_2] 0, 6) ∧
  ¬ ∃ p' r,
      Push batch_last_column S754_nan 1 SparsePage_new = Ok (p', r) ∧
      ∀ el, el ∈ batch_tuples batch_last_column → column_idx el + 1 ≤ r.
Proof.
  assert (Hpush :
    Push batch_last_column S754_nan 1 SparsePage_new
    = Ok (mkPage [0; 2] [mkEntry (2 ^ 32 - 1) f32_1; mkEntry 5 f32_2] 0, 6))
    by reflexivity.
  split; [exact Hpush|].
  intros (p' & r & Hr & Hmax). rewrite Hpush in Hr. injection Hr as _ <-.
  specialize (Hmax (mkCOO 0 (2 ^ 64 - 1) f32_1) ltac:(apply list_elem_of_here)).
  cbn in Hmax. lia.
Qed.

(** ** Push of an adapter batch: what is appended *)

Lemma filter_ext_Forall {A} (P Q : A → Prop) `{!∀ x, Decision (P x)}
    `{!∀ x, Decision (Q x)} (l : list A) :
  Forall (λ x, P x ↔ Q x) l → filter P l = filter Q l.
Proof.
  induction 1 as [|x l Hx _ IH]; [done|].
  rewrite !filter_cons, IH.
  destruct (decide (P x)), (decide (Q x)); tauto.
Qed.

(** The groups of a run, one after the other, hold the entries of its
    events. *)
Lemma groups_perm (base : nat) (evs : list event) (T G : nat) :
  events_above base T evs → events_below base G evs →
  mjoin (group_entries base evs T <$> seq 0 G) ≡ₚ ev_entry <$> evs.
Proof.
  intros Habove Hbelow.
  etransitivity;
    [|apply fmap_Permutation, (bucket_perm (λ ev, ev_key ev - base)%nat G evs)].
  - rewrite fmap_mjoin_seq. apply mjoin_seq_perm. intros g Hg.
    rewrite group_entries_perm
      by (eapply Forall_impl; [exact Habove|]; by intros ev [? _]).
    apply reflexive_eq. f_equal. apply filter_ext_Forall.
    eapply Forall_impl; [exact Habove|]. intros ev [_ ?]. cbn beta. lia.
  - exact Hbelow.
Qed.

Lemma push_events_entries (missing : spec_float) (base_rowid : Z)
    (xs : list (nat * COOTuple)) :
  ev_entry <$> push_events missing base_rowid xs
  = tuple_entry <$> filter (λ el, IsValidFunctor missing el = true) (snd <$> xs).
Proof.
  unfold push_events. induction xs as [|[tid el] xs IH]; [done|].
  cbn [fmap list_fmap snd]. rewrite !filter_cons. cbn [snd].
  destruct (decide (IsValidFunctor missing el = true)); cbn [fmap list_fmap];
    [f_equal|]; exact IH.
Qed.

Lemma IsValidFunctor_spec (missing : spec_float) (el : COOTuple) :
  IsValidFunctor missing el = true ↔
  CheckNAN (value el) = false ∧ SFeqb (value el) missing = false.
Proof.
  unfold IsValidFunctor, float_ne.
  rewrite andb_true_iff, !negb_true_iff. done.
Qed.

Lemma last_app_fmap_seq (l : list Z) (f : nat → Z) (G : nat) (x : Z) :
  last l = Some x →
  last (l ++ (f <$> seq 0 G)) = Some (match G with 0%nat => x | S g => f g end).
Proof.
  intros Hl. destruct G as [|g]; [by rewrite app_nil_r|].
  rewrite seq_S, fmap_app, app_assoc. cbn. by rewrite last_snoc.
Qed.

Lemma push_events_below (missing : spec_float) (base_rowid : Z) (boff G : nat)
    (xs : list (nat * COOTuple)) :
  Forall (λ el, (Z.to_nat (tuple_key base_rowid el) - boff < G)%nat) (snd <$> xs) →
  events_below boff G (push_events missing base_rowid xs).
Proof.
  intros Hkeys. rewrite Forall_fmap in Hkeys. unfold events_below, push_events.
  apply Forall_fmap, Forall_forall. intros x [_ Hx]%list_elem_of_filter.
  rewrite Forall_forall in Hkeys. exact (Hkeys x Hx).
Qed.

(** What a successful [Push] of a batch with lines leaves: on a page
    whose data ends at its last offset, the old offsets and data stay in
    place; one offset is added per group, as many groups as expected when
    no tuple lies past them; the data grows, in some order, by the
    entries of exactly the tuples whose value is neither NaN nor equal to
    [missing]; the data again ends at the last offset. *)
Lemma Push_result (batch : AdapterBatch) (missing : spec_float)
    (nthread : Z) (p : SparsePage) :
  let nthread' := if kIsRowMajor batch then nthread else 1 in
  let T := Z.to_nat nthread' in
  let thread_size := Z.to_nat (Z.of_nat (length (lines batch)) / nthread') in
  let xs := tagged_tuples batch thread_size T in
  let G0 :=
    ParallelGroupBuilder.full_size (kIsRowMajor batch) (Size p)
      (Z.to_nat (expected_rows batch (base_rowid p))) in
  lines batch ≠ [] →
  1 ≤ nthread' →
  Forall (λ el, Z.of_nat (Size p) ≤ tuple_key (base_rowid p) el)
         (batch_tuples batch) →
  forallb (admissible missing) (batch_tuples batch) = true →
  back (offset p) = Some (Z.of_nat (length (data p))) →
  ∃ p' offs new,
    Push batch missing nthread p
    = Ok (p', foldl Z.max 0 (foldl (keep_max tuple_columns) (replicate T 0) xs)) ∧
    base_rowid p' = base_rowid p ∧
    offset p' = offset p ++ offs ∧
    (G0 ≤ length offs)%nat ∧
    (Forall (λ el, (Z.to_nat (tuple_key (base_rowid p) el) - Size p < G0)%nat)
            (batch_tuples batch) → length offs = G0) ∧
    data p' = data p ++ new ∧
    new ≡ₚ tuple_entry
           <$> filter (λ el, CheckNAN (value el) = false ∧
                             SFeqb (value el) missing = false)
                      (batch_tuples batch) ∧
    back (offset p') = Some (Z.of_nat (length (data p'))).
Proof.
  intros nthread' T thread_size xs G0 Hlines HT Hkeys Hadm Hback.
  assert (Hfilter :
    filter (λ el, CheckNAN (value el) = false ∧ SFeqb (value el) missing = false)
           (batch_tuples batch)
    = filter (λ el, IsValidFunctor missing el = true) (batch_tuples batch)).
  { apply list_filter_iff. intros el. symmetry. apply IsValidFunctor_spec. }
  rewrite Hfilter.
  assert (Hall : snd <$> xs = batch_tuples batch)
    by (apply tagged_tuples_all; lia).
  destruct (Push_spec batch missing nthread p)
    as (G & HG0 & Hbelow & HGeq & Hpush); [done..|].
  fold nthread' T thread_size xs G0 in HG0, Hbelow, HGeq, Hpush.
  rewrite Hadm in Hpush. rewrite Hpush. clear Hpush.
  set (evs := push_events missing (base_rowid p) xs) in *.
  assert (Htop : Z.to_nat (default 0 (last (offset p))) = length (data p)).
  { unfold back in Hback. rewrite Hback. cbn [default from_option id].
    apply Nat2Z.id. }
  rewrite Htop, resize_all.
  eexists _, _, _. split; [reflexivity|]. cbn [data offset base_rowid].
  split; [done|]. split; [done|].
  rewrite length_fmap, length_seq.
  split; [exact HG0|]. split.
  { intros Hfit. apply HGeq. apply push_events_below. by rewrite Hall. }
  split; [done|]. split.
  - etransitivity; [apply (groups_perm (Size p) evs T G); [|exact Hbelow]|].
    + apply push_events_above; [apply tagged_tuples_tid|].
      rewrite <- Hall, Forall_fmap in Hkeys. exact Hkeys.
    + subst evs. rewrite push_events_entries. by rewrite Hall.
  - unfold back.
    rewrite (last_app_fmap_seq _ _ G _ Hback), length_app, length_groups.
    destruct G as [|g]; f_equal; rewrite ?before_groups_0; lia.
Qed.

(** C4. Pushing the one-line batch with the values 1, NaN, 0 and 0 in
    columns 0 to 3 of row 0 into an empty page, with 0 as the missing
    sentinel, gives a page of one row that holds exactly the entry
    (column 0, value 1), and returns 4; this for every thread count of
    at least one, and for the batch taken row-major or column-major.  In
    general a successful [Push] adds to the data, in some order, the
    entries of exactly the tuples whose value is neither NaN nor equal to
    the sentinel. *)
Theorem Push_drops_nan_and_missing :
  (∀ nthread, 1 ≤ nthread →
     Push (batch_1_nan_0_0 true) (S754_zero false) nthread SparsePage_new
     = Ok (mkPage [0; 1] [mkEntry 0 f32_1] 0, 4)) ∧
  (∀ nthread,
     Push (batch_1_nan_0_0 false) (S754_zero false) nthread SparsePage_new
     = Ok (mkPage [0; 1] [mkEntry 0 f32_1] 0, 4)) ∧
  (∀ batch missing nthread p,
     1 ≤ (if kIsRowMajor batch then nthread else 1) →
     Forall (λ el, Z.of_nat (Size p) ≤ tuple_key (base_rowid p) el)
            (batch_tuples batch) →
     forallb (admissible missing) (batch_tuples batch) = true →
     back (offset p) = Some (Z.of_nat (length (data p))) →
     ∃ p' r new,
       Push batch missing nthread p = Ok (p', r) ∧
       data p' = data p ++ new ∧
       new ≡ₚ tuple_entry
              <$> filter (λ el, CheckNAN (value el) = false ∧
                                SFeqb (value el) missing = false)
                         (batch_tuples batch)).
Proof.
  split; [|split].
  - intros nthread Hn.
    set (batch := batch_1_nan_0_0 true). set (missing := S754_zero false).
    assert (Hkeys : Forall (λ el, Z.of_nat (Size SparsePage_new)
                                  ≤ tuple_key (base_rowid SparsePage_new) el)
                           (batch_tuples batch)).
    { repeat constructor; vm_compute; discriminate. }
    destruct (Push_result batch missing nthread SparsePage_new)
      as (p' & offs & new & Hpush & Hbase & Hoff & _ & HG & Hdata & Hnew & Hback);
      [done | exact Hn | exact Hkeys | reflexivity | reflexivity |].
    rewrite Hpush. clear Hpush.
    (* the data *)
    assert (Hnew' : new = [mkEntry 0 f32_1]).
    { apply Permutation_singleton_r. exact Hnew. }
    (* the offsets *)
    assert (Hlen : length offs = 1%nat).
    { apply HG. repeat constructor; vm_compute; lia. }
    destruct offs as [|o [|? ?]]; try discriminate Hlen.
    rewrite Hoff, Hdata, Hnew' in Hback. cbn in Hback. injection Hback as ->.
    (* the column count *)
    set (T := Z.to_nat (if kIsRowMajor batch then nthread else 1)).
    set (xs := tagged_tuples batch _ T).
    assert (Hall : snd <$> xs = tuples_1_nan_0_0).
    { unfold xs. rewrite tagged_tuples_all by (unfold T, batch; cbn; lia).
      reflexivity. }
    assert (Hcols : ∀ x, x ∈ xs → 1 ≤ tuple_columns x.2 ≤ 4).
    { intros x Hx. apply (list_elem_of_fmap_2 snd) in Hx. rewrite Hall in Hx.
      unfold tuples_1_nan_0_0 in Hx.
      repeat (apply elem_of_cons in Hx as [->|Hx]; [vm_compute; split; discriminate|]).
      by apply elem_of_nil in Hx. }
    destruct (max_columns_spec tuple_columns T xs) as [Hupper Hattained].
    { apply Forall_forall. intros x Hx. split.
      - unfold xs in Hx.
        eapply Forall_forall in Hx; [|apply tagged_tuples_tid]. exact Hx.
      - specialize (Hcols x Hx). lia. }
    set (r := foldl Z.max 0 _) in *.
    assert (Hr : r = 4).
    { assert (Hlast : mkCOO 0 3 (S754_zero false) ∈ snd <$> xs).
      { rewrite Hall. unfold tuples_1_nan_0_0.
        do 3 apply list_elem_of_further. apply list_elem_of_here. }
      apply list_elem_of_fmap in Hlast as (x & Hx2 & Hx).
      pose proof (Hupper x Hx) as Hge. rewrite <- Hx2 in Hge.
      change (tuple_columns (mkCOO 0 3 (S754_zero false))) with 4 in Hge.
      destruct Hattained as [(x' & Hx' & Hr)|[Hnil _]].
      - specialize (Hcols x' Hx'). lia.
      - rewrite Hnil in Hx. by apply elem_of_nil in Hx. }
    rewrite Hr. f_equal. f_equal.
    destruct p' as [off' dat' base']. cbn in *. by subst.
  - intros nthread. vm_compute. reflexivity.
  - intros batch missing nthread p HT Hkeys Hadm Hback.
    destruct (decide (lines batch = [])) as [Hlines|Hlines].
    { exists p, 0, []. split; [apply Push_empty_batch; by rewrite Hlines|].
      split; [by rewrite app_nil_r|].
      unfold batch_tuples. by rewrite Hlines. }
    destruct (Push_result batch missing nthread p)
      as (p' & offs & new & Hpush & _ & _ & _ & _ & Hdata & Hnew & _); [done..|].
    eauto 10.
Qed.

Lemma Push_drops_nan_and_missing_witness :
  1 ≤ 2 ∧
  1 ≤ (if kIsRowMajor batch_one then 2 else 1) ∧
  Forall (λ el, Z.of_nat (Size SparsePage_new)
                ≤ tuple_key (base_rowid SparsePage_new) el)
         (batch_tuples batch_one) ∧
  forallb (admissible S754_nan) (batch_tuples batch_one) = true ∧
  back (offset SparsePage_new) = Some (Z.of_nat (length (data SparsePage_new))) ∧
  Push (batch_1_nan_0_0 true) (S754_zero false) 2 SparsePage_new
  = Ok (mkPage [0; 1] [mkEntry 0 f32_1] 0, 4) ∧
  ∃ p' r new,
    Push batch_one S754_nan 2 SparsePage_new = Ok (p', r) ∧
    data p' = data SparsePage_new ++ new ∧
    new ≡ₚ tuple_entry
           <$> filter (λ el, CheckNAN (value el) = false ∧
                             SFeqb (value el) S754_nan = false)
                      (batch_tuples batch_one).
Proof.
  assert (H1 : 1 ≤ 2) by lia.
  assert (H2 : 1 ≤ (if kIsRowMajor batch_one then 2 else 1)) by (cbn; lia).
  assert (H3 : Forall (λ el, Z.of_nat (Size SparsePage_new)
                             ≤ tuple_key (base_rowid SparsePage_new) el)
                      (batch_tuples batch_one)).
  { repeat constructor; vm_compute; discriminate. }
  assert (H4 : forallb (admissible S754_nan) (batch_tuples batch_one) = true)
    by reflexivity.
  assert (H5 : back (offset SparsePage_new)
               = Some (Z.of_nat (length (data SparsePage_new)))) by reflexivity.
  destruct Push_drops_nan_and_missing as (Hrow & _ & Hgen).
  split; [exact H1|]. split; [exact H2|]. split; [exact H3|].
  split; [exact H4|]. split; [exact H5|].
  split; [exact (Hrow 2 H1)|].
  exact (Hgen batch_one S754_nan 2 SparsePage_new H2 H3 H4 H5).
Defined.

(** ** The shape invariant under the other operations *)

(** The invariant is carried by its first half: a vector with a back is
    not empty. *)
Lemma shape_invariant_back (p : SparsePage) :
  shape_invariant p ↔ back (offset p) = Some (Z.of_nat (length (data p))).
Proof.
  split; [by intros [? _]|]. intros Hback. split; [done|].
  unfold Size. destruct (offset p) as [|o os]; [done|]. cbn. lia.
Qed.

Lemma ParallelFor_invariant {S} (P : S → Prop) (size : nat) (sched : nat → nat)
    (fn : nat → nat → S → S) (s : S) :
  (∀ i tid s, P s → P (fn i tid s)) → P s → P (ParallelFor size sched fn s).
Proof.
  intros Hstep. unfold ParallelFor. generalize (seq 0 size). intros l.
  revert s. induction l as [|i l IH]; intros s Hs; [done|].
  cbn. apply IH, Hstep, Hs.
Qed.

(** [Reindex] keeps the shape invariant. *)
Lemma Reindex_shape (feature_offset : Z) (sched : nat → nat) (p : SparsePage) :
  shape_invariant p → shape_invariant (Reindex feature_offset sched p).
Proof.
  rewrite !shape_invariant_back. intros Hback. unfold Reindex.
  cbn [offset data]. rewrite ParallelFor_alter, length_fmap. exact Hback.
Qed.

Lemma length_sort_range std_sort comp beg en (h_data : list Entry) :
  length (sort_range std_sort comp beg en h_data) = length h_data.
Proof. unfold sort_range. apply length_inserts. Qed.

(** [SortIndices] and [SortRows] keep the shape invariant, whatever
    [std::sort] does inside the ranges. *)
Lemma SortIndices_shape std_sort (sched : nat → nat) (p : SparsePage) :
  shape_invariant p → shape_invariant (SortIndices std_sort sched p).
Proof.
  rewrite !shape_invariant_back. intros Hback. unfold SortIndices.
  cbn [offset data].
  rewrite (ParallelFor_invariant (λ d, length d = length (data p))); [done| |done].
  intros i _ d Hd. by rewrite length_sort_range.
Qed.

Lemma SortRows_shape std_sort (sched : nat → nat) (p : SparsePage) :
  shape_invariant p → shape_invariant (SortRows std_sort sched p).
Proof.
  rewrite !shape_invariant_back. intros Hback. unfold SortRows.
  cbn [offset data].
  rewrite (ParallelFor_invariant (λ d, length d = length (data p))); [done| |done].
  intros i _ d Hd. case_decide; [by rewrite length_sort_range | done].
Qed.

(** [Push] of a page keeps the shape invariant when the incoming page
    satisfies it and its offsets begin at zero. *)
Lemma Push_page_shape (batch p : SparsePage) :
  shape_invariant p → shape_invariant batch →
  offset batch !! 0%nat = Some 0 →
  Z.of_nat (length (data p)) + Z.of_nat (length (data batch)) < 2 ^ 64 →
  ∃ p', Push_page batch p = Ok p' ∧ shape_invariant p'.
Proof.
  rewrite !shape_invariant_back. intros Hp Hb H0 Hfit.
  rewrite (Push_page_eq batch p (Z.of_nat (length (data p)))) by done.
  eexists. split; [reflexivity|]. apply shape_invariant_back.
  cbn [offset data]. unfold back in *.
  destruct (offset batch) as [|o0 os]; [done|].
  injection H0 as ->. change (drop 1 (0 :: os)) with os.
  destruct os as [|o1 os' _] using rev_ind.
  - cbn in Hb. rewrite app_nil_r, length_app.
    injection Hb as Hb. rewrite Hp. f_equal. lia.
  - rewrite fmap_snoc, app_assoc, last_snoc.
    change (0 :: os' ++ [o1]) with ((0 :: os') ++ [o1]) in Hb.
    rewrite last_snoc in Hb. injection Hb as ->.
    rewrite wrap64_small, length_app by lia. f_equal. lia.
Qed.

(** [Push] of an adapter batch keeps the shape invariant whenever it
    succeeds on the hypotheses under which it is defined. *)
Lemma Push_shape (batch : AdapterBatch) (missing : spec_float)
    (nthread : Z) (p : SparsePage) :
  1 ≤ (if kIsRowMajor batch then nthread else 1) →
  Forall (λ el, Z.of_nat (Size p) ≤ tuple_key (base_rowid p) el)
         (batch_tuples batch) →
  forallb (admissible missing) (batch_tuples batch) = true →
  shape_invariant p →
  ∃ p' r, Push batch missing nthread p = Ok (p', r) ∧ shape_invariant p'.
Proof.
  intros HT Hkeys Hadm Hshape.
  destruct (decide (lines batch = [])) as [Hnil|Hlines].
  - exists p, 0. split; [|done]. unfold Push. by rewrite Hnil.
  - pose proof (Push_result batch missing nthread p) as Hres.
    cbn zeta in Hres.
    destruct (Hres Hlines HT Hkeys Hadm)
      as (p' & offs & new & Hpush & _ & _ & _ & _ & _ & _ & Hback);
      [exact (proj1 (shape_invariant_back p) Hshape) |].
    eexists p', _. split; [exact Hpush|]. by apply shape_invariant_back.
Qed.

(** [PushCSC] into an empty page hands over the shape of the incoming
    page. *)
Lemma PushCSC_self_empty_shape (batch p : SparsePage) :
  data p = [] → shape_invariant batch →
  ∃ p', PushCSC batch p = Ok p' ∧ shape_invariant p'.
Proof.
  intros Hd Hb. rewrite PushCSC_self_empty by done.
  eexists. split; [reflexivity|]. exact Hb.
Qed.

(** The first branch of [PushCSC] (data.cc:1218-1221) on an incoming page
    without data that satisfies the shape invariant: the page satisfies
    the invariant afterwards only if it held no data either. *)
Lemma PushCSC_other_empty_shape (batch p : SparsePage) :
  data batch = [] → shape_invariant batch →
  ∃ p', PushCSC batch p = Ok p' ∧ (shape_invariant p' ↔ data p = []).
Proof.
  intros Hd Hb. rewrite PushCSC_other_empty by done.
  eexists. split; [reflexivity|].
  rewrite shape_invariant_back in *. cbn [offset data].
  rewrite Hd in Hb. rewrite Hb. cbn [length].
  destruct (data p); cbn; split; (done || intros [=]).
Qed.

(** ** PushCSC: the merge loop *)

Lemma adjacent_mono (l : list Z) :
  (∀ i a b, l !! i = Some a → l !! S i = Some b → a ≤ b) →
  ∀ i j a b, (i ≤ j)%nat → l !! i = Some a → l !! j = Some b → a ≤ b.
Proof.
  intros Hadj i j a b Hij. revert b.
  induction Hij as [|j Hij IH]; intros b Ha Hb.
  - assert (a = b) by congruence. lia.
  - destruct (lookup_lt_is_Some_2 l j) as [c Hc].
    { apply lookup_lt_Some in Hb. lia. }
    specialize (IH c Ha Hc). specialize (Hadj j c b Hc Hb). lia.
Qed.

(** In a well-formed page every offset lies within the data and the
    offsets ascend. *)
Lemma well_formed_bounds (p : SparsePage) (i : nat) :
  well_formed p → (i < length (offset p))%nat →
  0 ≤ vec_get (offset p) i ≤ Z.of_nat (length (data p)).
Proof.
  intros (H0 & Hadj & Hback) Hi. unfold vec_get.
  destruct (lookup_lt_is_Some_2 (offset p) i Hi) as [a Ha].
  rewrite Ha. cbn [default from_option id].
  unfold back in Hback. rewrite last_lookup in Hback.
  pose proof (adjacent_mono _ Hadj 0 i 0 a ltac:(lia) H0 Ha).
  pose proof (adjacent_mono _ Hadj i (pred (length (offset p))) a _
                ltac:(lia) Ha Hback).
  lia.
Qed.

Lemma well_formed_step (p : SparsePage) (i : nat) :
  well_formed p → (S i < length (offset p))%nat →
  vec_get (offset p) i ≤ vec_get (offset p) (S i).
Proof.
  intros (_ & Hadj & _) Hi. unfold vec_get.
  destruct (lookup_lt_is_Some_2 (offset p) i ltac:(lia)) as [a Ha].
  destruct (lookup_lt_is_Some_2 (offset p) (S i) Hi) as [b Hb].
  rewrite Ha, Hb. cbn [default from_option id]. eauto.
Qed.

Lemma well_formed_first (p : SparsePage) :
  well_formed p → vec_get (offset p) 0 = 0.
Proof. intros (H0 & _). unfold vec_get. by rewrite H0. Qed.

Lemma well_formed_last (p : SparsePage) :
  well_formed p →
  vec_get (offset p) (length (offset p) - 1) = Z.of_nat (length (data p)).
Proof.
  intros (_ & _ & Hback). unfold vec_get, back in *.
  rewrite last_lookup in Hback.
  replace (length (offset p) - 1)%nat with (pred (length (offset p))) by lia.
  by rewrite Hback.
Qed.

Lemma length_row_slice (p : SparsePage) (i : nat) :
  well_formed p → (S i < length (offset p))%nat →
  length (row_slice (offset p) (data p) i)
  = Z.to_nat (vec_get (offset p) (S i) - vec_get (offset p) i).
Proof.
  intros Hwf Hi. unfold row_slice.
  pose proof (well_formed_bounds p i Hwf ltac:(lia)).
  pose proof (well_formed_bounds p (S i) Hwf Hi).
  rewrite length_take, length_drop. lia.
Qed.

Lemma at_vec_get (v : list Z) (i : nat) :
  (i < length v)%nat → at_ v i = Ok (vec_get v i).
Proof.
  intros Hi. unfold at_, vec_get.
  destruct (lookup_lt_is_Some_2 v i Hi) as [a Ha]. by rewrite Ha.
Qed.

(** Copying [len] entries to the end of what a vector holds so far, the
    rest of the vector being value-initialised. *)
Lemma memcpy_append (filled : list Entry) (m : nat) (src : list Entry)
    (spos len : nat) :
  (spos + len ≤ length src)%nat → (len ≤ m)%nat →
  memcpy (filled ++ replicate m Entry_default) (length filled) src spos len
  = Ok ((filled ++ take len (drop spos src)) ++ replicate (m - len) Entry_default).
Proof.
  intros Hsrc Hm. unfold memcpy. case_decide as Hlen.
  - subst len. cbn [take]. by rewrite app_nil_r, Nat.sub_0_r.
  - rewrite decide_True by (rewrite length_app, length_replicate; lia).
    f_equal. rewrite <- (Nat.add_0_r (length filled)) at 1.
    rewrite list_inserts_app_r, <- app_assoc. f_equal.
    replace m with (len + (m - len))%nat at 1 by lia.
    rewrite replicate_add. apply list_inserts_0_r.
    rewrite length_take, length_drop, length_replicate. lia.
Qed.

Section merge.
Context (p batch : SparsePage).
Hypothesis Hp : well_formed p.
Hypothesis Hb : well_formed batch.
Hypothesis Hlen : length (offset p) = length (offset batch).
Hypothesis Hfit :
  Z.of_nat (length (data p)) + Z.of_nat (length (data batch)) < 2 ^ 64.

Let column (i : nat) : list Entry :=
  row_slice (offset p) (data p) i ++ row_slice (offset batch) (data batch) i.
Let total (i : nat) : Z := vec_get (offset p) i + vec_get (offset batch) i.
Let room : nat := (length (data p) + length (data batch))%nat.

(** The state of the loop when [k] features are merged. *)
Let merged (k : nat) : merge_state :=
  mkMerge ((total <$> seq 0 (S k)) ++ replicate (length (offset p) - S k) 0)
          (mjoin (column <$> seq 0 k)
           ++ replicate (room - Z.to_nat (total k)) Entry_default)
          (total k) (S k).

Lemma length_columns (k : nat) :
  (k < length (offset p))%nat →
  length (mjoin (column <$> seq 0 k)) = Z.to_nat (total k).
Proof.
  induction k as [|k IH]; intros Hk.
  - subst total. cbn. by rewrite !well_formed_first.
  - rewrite mjoin_seq_S, length_app, IH by lia. subst column total. cbn beta.
    rewrite length_app, !length_row_slice by (done || lia).
    pose proof (well_formed_bounds p k Hp ltac:(lia)).
    pose proof (well_formed_bounds batch k Hb ltac:(lia)).
    pose proof (well_formed_step p k Hp ltac:(lia)).
    pose proof (well_formed_step batch k Hb ltac:(lia)).
    lia.
Qed.

Lemma merge_feature_step (k : nat) :
  (S k < length (offset p))%nat →
  merge_feature (offset p) (data p) (offset batch) (data batch) (merged k) k
  = Ok (merged (S k)).
Proof.
  intros Hk.
  pose proof (well_formed_bounds p k Hp ltac:(lia)) as Hpk.
  pose proof (well_formed_bounds batch k Hb ltac:(lia)) as Hbk.
  pose proof (well_formed_bounds p (S k) Hp ltac:(lia)) as HpS.
  pose proof (well_formed_bounds batch (S k) Hb ltac:(lia)) as HbS.
  pose proof (well_formed_step p k Hp ltac:(lia)) as Hps.
  pose proof (well_formed_step batch k Hb ltac:(lia)) as Hbs.
  pose proof (length_columns k ltac:(lia)) as Hcols.
  unfold merge_feature.
  rewrite (at_vec_get (offset p) k), bind_Ok by lia.
  rewrite (at_vec_get (offset p) (k + 1)), bind_Ok by lia.
  rewrite (at_vec_get (offset batch) k) by lia.
  rewrite (at_vec_get (offset batch) (k + 1)) by lia.
  replace (k + 1)%nat with (S k) by lia.
  cbn [ms_data ms_beg ms_ptr ms_offset merged].
  rewrite (wrap64_small (vec_get (offset p) (S k) - _)) by lia.
  rewrite decide_False
    by (rewrite length_app, length_replicate, Hcols; subst total room; cbn beta; lia).
  rewrite <- Hcols.
  rewrite memcpy_append, bind_Ok;
    [| lia | rewrite Hcols; subst total room; cbn beta; lia].
  rewrite !bind_Ok.
  rewrite (wrap64_small (vec_get (offset batch) (S k) - _)) by lia.
  assert (Hbeg :
    wrap64 (total k + (vec_get (offset p) (S k) - vec_get (offset p) k))
    = vec_get (offset p) (S k) + vec_get (offset batch) k).
  { subst total. cbn beta. rewrite wrap64_small; lia. }
  rewrite Hbeg.
  assert (Hfilled :
    length (mjoin (column <$> seq 0 k)
            ++ take (Z.to_nat (vec_get (offset p) (S k) - vec_get (offset p) k))
                    (drop (Z.to_nat (vec_get (offset p) k)) (data p)))
    = Z.to_nat (vec_get (offset p) (S k) + vec_get (offset batch) k)).
  { rewrite length_app, Hcols, length_take, length_drop.
    subst total. cbn beta. lia. }
  rewrite decide_False
    by (rewrite length_app, length_replicate, Hfilled; subst total room;
        cbn beta; lia).
  rewrite <- Hfilled.
  rewrite memcpy_append, bind_Ok;
    [| lia | rewrite Hcols; subst total room; cbn beta; lia].
  assert (Hend :
    wrap64 (vec_get (offset p) (S k) + vec_get (offset batch) k
            + (vec_get (offset batch) (S k) - vec_get (offset batch) k))
    = total (S k)).
  { subst total. cbn beta. rewrite wrap64_small; lia. }
  rewrite Hend.
  rewrite decide_True
    by (rewrite length_app, length_fmap, length_seq, length_replicate; lia).
  f_equal. unfold merged. f_equal.
  - rewrite (seq_S (S k)), fmap_app, <- app_assoc. cbn [fmap list_fmap app Nat.add].
    replace (S k) with (length (total <$> seq 0 (S k)) + 0)%nat at 1
      by (rewrite length_fmap, length_seq; lia).
    rewrite insert_app_r. f_equal.
    replace (length (offset p) - S k)%nat
      with (S (length (offset p) - S (S k))) by lia.
    done.
  - rewrite mjoin_seq_S, <- !app_assoc. f_equal.
    assert (Hcol : column k
      = take (Z.to_nat (vec_get (offset p) (S k) - vec_get (offset p) k))
             (drop (Z.to_nat (vec_get (offset p) k)) (data p))
        ++ take (Z.to_nat (vec_get (offset batch) (S k) - vec_get (offset batch) k))
                (drop (Z.to_nat (vec_get (offset batch) k)) (data batch)))
      by reflexivity.
    rewrite Hcol, <- app_assoc. do 3 f_equal.
    rewrite Hcols. subst total room. cbn beta. lia.
Qed.

Lemma merge_loop (k : nat) :
  (k < length (offset p))%nat →
  foldlM (merge_feature (offset p) (data p) (offset batch) (data batch))
         (merged 0) (seq 0 k)
  = Ok (merged k).
Proof.
  induction k as [|k IH]; intros Hk; [done|].
  rewrite seq_S, foldlM_app, IH by lia. cbn [Nat.add].
  rewrite bind_Ok, foldlM_cons, merge_feature_step by lia.
  by rewrite bind_Ok.
Qed.

End merge.

(** The third branch of [PushCSC] (data.cc:1232-1268): on two well-formed
    pages with the same number of offsets, both holding entries, the
    merge succeeds; every offset of the result is the sum of the two
    offsets, every column holds the entries the page had there followed
    by the incoming ones, and the shape invariant holds. *)
Lemma PushCSC_merge (batch p : SparsePage) :
  well_formed p → well_formed batch →
  data batch ≠ [] → data p ≠ [] →
  length (offset p) = length (offset batch) →
  Z.of_nat (length (data p)) + Z.of_nat (length (data batch)) < 2 ^ 64 →
  ∃ p', PushCSC batch p = Ok p' ∧
        shape_invariant p' ∧
        offset p'
        = (λ i, vec_get (offset p) i + vec_get (offset batch) i)
          <$> seq 0 (length (offset p)) ∧
        data p'
        = mjoin ((λ i, row_slice (offset p) (data p) i
                       ++ row_slice (offset batch) (data batch) i)
                 <$> seq 0 (Size p)) ∧
        base_rowid p' = base_rowid p.
Proof.
  intros Hp Hb Hbd Hpd Hlen Hfit.
  assert (Hn : (0 < length (offset p))%nat).
  { destruct Hp as (H0 & _). apply lookup_lt_Some in H0. lia. }
  unfold PushCSC.
  destruct (data batch) as [|eb ebs] eqn:Ebatch; [done|].
  destruct (data p) as [|ep eps] eqn:Ep; [done|].
  rewrite decide_False by lia.
  destruct (offset batch) as [|ob obs] eqn:Eoff; [cbn in Hlen; lia|].
  rewrite <- Eoff, <- Ebatch, <- Ep, <- Hlen in *.
  pose proof (merge_loop p batch Hp Hb Hlen Hfit (length (offset p) - 1)
                ltac:(lia)) as Hloop.
  cbn zeta in Hloop.
  replace (mkMerge (replicate (length (offset p)) 0)
             (replicate (length (data p) + length (data batch)) Entry_default)
             0 1)
    with (mkMerge
            (((λ i, vec_get (offset p) i + vec_get (offset batch) i) <$> seq 0 1)
             ++ replicate (length (offset p) - 1) 0)
            (mjoin ((λ i, row_slice (offset p) (data p) i
                          ++ row_slice (offset batch) (data batch) i)
                    <$> seq 0 0)
             ++ replicate
                  (length (data p) + length (data batch)
                   - Z.to_nat (vec_get (offset p) 0 + vec_get (offset batch) 0))
                  Entry_default)
            (vec_get (offset p) 0 + vec_get (offset batch) 0) 1).
  2:{ cbn. rewrite !well_formed_first by done. cbn.
      rewrite Nat.sub_0_r.
      destruct (length (offset p)) as [|n]; [lia|].
      cbn. by rewrite Nat.sub_0_r. }
  rewrite Hloop, bind_Ok. clear Hloop.
  eexists. split; [reflexivity|]. cbn [offset data base_rowid ms_offset ms_data].
  replace (S (length (offset p) - 1)) with (length (offset p)) by lia.
  rewrite Nat.sub_diag, app_nil_r.
  assert (Hlast : vec_get (offset batch) (length (offset p) - 1)
                  = Z.of_nat (length (data batch))).
  { rewrite Hlen. by apply well_formed_last. }
  rewrite (well_formed_last p) by done.
  rewrite Hlast.
  replace (length (data p) + length (data batch)
           - Z.to_nat (Z.of_nat (length (data p)) + Z.of_nat (length (data batch))))%nat
    with 0%nat by lia.
  cbn [replicate]. rewrite app_nil_r.
  assert (HSize : Size p = (length (offset p) - 1)%nat).
  { unfold Size. destruct (offset p); [cbn in Hn; lia | done]. }
  rewrite HSize.
  split; [|done].
  apply shape_invariant_back. cbn [offset data]. unfold back.
  pose proof (length_columns p batch Hp Hb Hlen (length (offset p) - 1)
                ltac:(lia)) as Hcols.
  cbn zeta in Hcols. rewrite Hcols, (well_formed_last p), Hlast by done.
  replace (length (offset p)) with (S (length (offset p) - 1)) at 1 by lia.
  rewrite seq_S, fmap_snoc, last_snoc. cbn [Nat.add].
  rewrite (well_formed_last p), Hlast by done. f_equal. lia.
Qed.

(** ** The examples of the specification (section 8) *)

(** Two single-row batches pushed in sequence to an empty page: the rows
    are appended. *)
Example Push_two_batches :
  (r ← Push batch_5 S754_nan 2 SparsePage_new; Push batch_6 S754_nan 2 r.1)
  = Ok (mkPage [0; 1; 2] [mkEntry 0 f32_5; mkEntry 1 f32_6] 0, 2).
Proof. reflexivity. Qed.

(** The row [(0, 1.0); (2, 2.0)] transposed with three columns, by two
    workers. *)
Example GetTranspose_three_columns :
  GetTranspose 3 2 (λ i, i mod 2)%nat page_row_0_2
  = Ok (mkPage [0; 1; 1; 2] [mkEntry 0 f32_1; mkEntry 0 f32_2] 0).
Proof. reflexivity. Qed.

(** Merging two pages of two columns, one entry each: the columns are
    interleaved. *)
Example PushCSC_two_columns :
  PushCSC csc_other csc_one
  = Ok (mkPage [0; 1; 2] [mkEntry 0 f32_1; mkEntry 1 f32_2] 0).
Proof. reflexivity. Qed.

(** The same merge through [PushCSC_merge]. *)
Example PushCSC_merge_two_columns :
  ∃ p', PushCSC csc_other csc_one = Ok p' ∧ shape_invariant p' ∧
        offset p' = [0; 1; 2].
Proof.
  destruct (PushCSC_merge csc_other csc_one) as (p' & Hp' & Hs & Ho & _).
  - split; [done|]. split; [|done].
    intros [|[|[|i]]] a b [=] [=]; subst; lia.
  - split; [done|]. split; [|done].
    intros [|[|[|i]]] a b [=] [=]; subst; lia.
  - done.
  - done.
  - done.
  - cbn. lia.
  - exists p'. split; [done|]. split; [done|]. by rewrite Ho.
Qed.


(** * Further properties of the page operations *)

(** ** Rows of a well-formed page *)

Lemma well_formed_intro (p : SparsePage) :
  (0 < length (offset p))%nat →
  vec_get (offset p) 0 = 0 →
  (∀ i, (S i < length (offset p))%nat →
        vec_get (offset p) i ≤ vec_get (offset p) (S i)) →
  vec_get (offset p) (length (offset p) - 1) = Z.of_nat (length (data p)) →
  well_formed p.
Proof.
  intros Hn H0 Hstep Hlast. unfold vec_get in *.
  destruct (lookup_lt_is_Some_2 (offset p) 0 Hn) as [a Ha].
  rewrite Ha in H0. cbn in H0. subst a.
  split; [done|]. split.
  - intros i a b Ha' Hb'.
    pose proof (lookup_lt_Some _ _ _ Hb') as Hi.
    specialize (Hstep i Hi). by rewrite Ha', Hb' in Hstep.
  - unfold back. rewrite last_lookup.
    replace (pred (length (offset p))) with (length (offset p) - 1)%nat by lia.
    destruct (lookup_lt_is_Some_2 (offset p) (length (offset p) - 1)) as [b Hb];
      [lia|].
    rewrite Hb in Hlast |- *. cbn in Hlast. by subst b.
Qed.

Lemma well_formed_Size (p : SparsePage) :
  well_formed p → length (offset p) = S (Size p).
Proof.
  intros (H0 & _). apply lookup_lt_Some in H0. unfold Size.
  destruct (offset p); cbn in *; lia.
Qed.

(** The rows of a well-formed page tile its data. *)
Lemma well_formed_tiles (p : SparsePage) (k : nat) :
  well_formed p → (k ≤ Size p)%nat →
  take (Z.to_nat (vec_get (offset p) k)) (data p)
  = mjoin (row_slice (offset p) (data p) <$> seq 0 k).
Proof.
  intros Hp Hk. pose proof (well_formed_Size p Hp) as Hlen.
  induction k as [|k IH].
  - by rewrite well_formed_first.
  - rewrite mjoin_seq_S, <- IH by lia. unfold row_slice.
    pose proof (well_formed_bounds p k Hp ltac:(lia)).
    pose proof (well_formed_bounds p (S k) Hp ltac:(lia)).
    pose proof (well_formed_step p k Hp ltac:(lia)).
    rewrite take_take_drop. f_equal. lia.
Qed.

Lemma well_formed_data (p : SparsePage) :
  well_formed p →
  data p = mjoin (row_slice (offset p) (data p) <$> seq 0 (Size p)).
Proof.
  intros Hp. rewrite <- (well_formed_tiles p (Size p)) by done.
  pose proof (well_formed_Size p Hp) as Hlen.
  pose proof (well_formed_last p Hp) as Hlast.
  replace (length (offset p) - 1)%nat with (Size p) in Hlast by lia.
  rewrite Hlast, Nat2Z.id. by rewrite firstn_all.
Qed.


(** ** Rows appended to a page *)

(** A page whose offsets are those of [p] followed by those of [q] moved
    up by the size of the data of [p], and whose data are those of [p]
    followed by those of [q]: it is well-formed and its rows are the rows
    of [p], then the rows of [q]. *)
Lemma append_rows (p q : SparsePage) (off' : list Z) (base : Z) :
  well_formed p → well_formed q →
  length off' = S (Size p + Size q) →
  (∀ k, (k ≤ Size p + Size q)%nat →
        vec_get off' k
        = if decide (k ≤ Size p)%nat then vec_get (offset p) k
          else Z.of_nat (length (data p)) + vec_get (offset q) (k - Size p)) →
  let p' := mkPage off' (data p ++ data q) base in
  well_formed p' ∧
  Size p' = (Size p + Size q)%nat ∧
  (∀ i, (i < Size p)%nat →
        row_slice (offset p') (data p') i = row_slice (offset p) (data p) i) ∧
  (∀ j, (j < Size q)%nat →
        row_slice (offset p') (data p') (Size p + j)
        = row_slice (offset q) (data q) j).
Proof.
  intros Hp Hq Hlen' Hget p'. subst p'. cbn [offset data].
  pose proof (well_formed_Size p Hp) as Hlp.
  pose proof (well_formed_Size q Hq) as Hlq.
  pose proof (well_formed_last p Hp) as Hlastp.
  pose proof (well_formed_last q Hq) as Hlastq.
  replace (length (offset p) - 1)%nat with (Size p) in Hlastp by lia.
  replace (length (offset q) - 1)%nat with (Size q) in Hlastq by lia.
  split; [|split; [|split]].
  - apply well_formed_intro; cbn [offset data].
    + lia.
    + rewrite Hget by lia. rewrite decide_True by lia.
      by apply well_formed_first.
    + intros i Hi. rewrite !Hget by lia.
      repeat case_decide; try lia.
      * apply well_formed_step; [done | lia].
      * assert (i = Size p) as -> by lia.
        replace (S (Size p) - Size p)%nat with 1%nat by lia.
        pose proof (well_formed_bounds q 1 Hq ltac:(lia)). lia.
      * replace (S i - Size p)%nat with (S (i - Size p)) by lia.
        pose proof (well_formed_step q (i - Size p) Hq ltac:(lia)). lia.
    + rewrite Hlen'. replace (S (Size p + Size q) - 1)%nat
        with (Size p + Size q)%nat by lia.
      rewrite Hget, length_app by lia. case_decide.
      * assert (Size q = 0%nat) as Hz by lia. rewrite Hz in *.
        rewrite well_formed_first in Hlastq by done.
        rewrite Nat.add_0_r, Hlastp. lia.
      * replace (Size p + Size q - Size p)%nat with (Size q) by lia.
        lia.
  - rewrite Size_drop. cbn [offset]. rewrite length_drop. lia.
  - intros i Hi. unfold row_slice. rewrite !Hget by lia.
    rewrite !decide_True by lia.
    pose proof (well_formed_bounds p i Hp ltac:(lia)).
    pose proof (well_formed_bounds p (S i) Hp ltac:(lia)).
    pose proof (well_formed_step p i Hp ltac:(lia)).
    rewrite drop_app_le by lia. rewrite take_app_le; [done|].
    rewrite length_drop. lia.
  - intros j Hj. unfold row_slice. rewrite !Hget by lia.
    replace (S (Size p + j)) with (Size p + S j)%nat by lia.
    pose proof (well_formed_bounds q j Hq ltac:(lia)).
    assert (Hbeg : (if decide (Size p + j ≤ Size p)%nat
                    then vec_get (offset p) (Size p + j)
                    else Z.of_nat (length (data p))
                         + vec_get (offset q) (Size p + j - Size p))
                   = Z.of_nat (length (data p)) + vec_get (offset q) j).
    { case_decide.
      - assert (j = 0%nat) as -> by lia.
        rewrite Nat.add_0_r, Hlastp, well_formed_first by done. lia.
      - do 2 f_equal. lia. }
    rewrite Hbeg, decide_False by lia.
    replace (Size p + S j - Size p)%nat with (S j) by lia.
    replace (Z.to_nat (Z.of_nat (length (data p)) + vec_get (offset q) j))
      with (length (data p) + Z.to_nat (vec_get (offset q) j))%nat by lia.
    rewrite drop_app_add'  by done. f_equal. lia.
Qed.

(** The offsets appended by a shift [sh] that adds the size of the data
    of [p] to every offset of [q]. *)
Lemma appended_offsets (p q : SparsePage) (sh : Z → Z) (k : nat) :
  well_formed p → well_formed q →
  (∀ o, 0 ≤ o ≤ Z.of_nat (length (data q)) →
        sh o = Z.of_nat (length (data p)) + o) →
  (k ≤ Size p + Size q)%nat →
  vec_get (offset p ++ (sh <$> drop 1 (offset q))) k
  = if decide (k ≤ Size p)%nat then vec_get (offset p) k
    else Z.of_nat (length (data p)) + vec_get (offset q) (k - Size p).
Proof.
  intros Hp Hq Hsh Hk.
  pose proof (well_formed_Size p Hp) as Hlp.
  pose proof (well_formed_Size q Hq) as Hlq.
  unfold vec_get. case_decide as Hle.
  - by rewrite lookup_app_l by lia.
  - rewrite lookup_app_r by lia. rewrite list_lookup_fmap, lookup_drop.
    replace (1 + (k - length (offset p)))%nat with (k - Size p)%nat by lia.
    destruct (lookup_lt_is_Some_2 (offset q) (k - Size p)) as [o Ho]; [lia|].
    rewrite Ho. cbn.
    pose proof (well_formed_bounds q (k - Size p) Hq ltac:(lia)) as Hbound.
    unfold vec_get in Hbound. rewrite Ho in Hbound. cbn in Hbound.
    by apply Hsh.
Qed.

(** ** Push of another page: the rows *)

(** X1. [p.Push(batch)] on well-formed pages: the result is well-formed, its
    rows are the rows of [p] followed by the rows of [batch], and
    [base_rowid] stays; the [base_rowid] of [batch] plays no part. *)
Theorem Push_page_rows (batch p : SparsePage) :
  well_formed p → well_formed batch →
  Z.of_nat (length (data p)) + Z.of_nat (length (data batch)) < 2 ^ 64 →
  ∃ p', Push_page batch p = Ok p' ∧
        well_formed p' ∧
        Size p' = (Size p + Size batch)%nat ∧
        base_rowid p' = base_rowid p ∧
        (∀ i, (i < Size p)%nat →
              row_slice (offset p') (data p') i
              = row_slice (offset p) (data p) i) ∧
        (∀ j, (j < Size batch)%nat →
              row_slice (offset p') (data p') (Size p + j)
              = row_slice (offset batch) (data batch) j).
Proof.
  intros Hp Hb Hfit.
  pose proof (well_formed_Size p Hp) as Hlp.
  pose proof (well_formed_Size batch Hb) as Hlb.
  rewrite (Push_page_eq batch p (Z.of_nat (length (data p))));
    [| by destruct Hp as (_ & _ & ?) | done | done].
  eexists. split; [reflexivity|]. cbn [base_rowid].
  destruct (append_rows p batch
              (offset p ++ ((λ o, wrap64 (Z.of_nat (length (data p)) + o))
                            <$> drop 1 (offset batch)))
              (base_rowid p) Hp Hb) as (Hwf & HSize & Hold & Hnew).
  - rewrite length_app, length_fmap, length_drop. lia.
  - intros k Hk. apply appended_offsets; [done | done | | done].
    intros o Ho. apply wrap64_small. lia.
  - done.
Qed.

Lemma Push_page_rows_witness :
  well_formed csc_one ∧ well_formed csc_other ∧
  Z.of_nat (length (data csc_one)) + Z.of_nat (length (data csc_other)) < 2 ^ 64 ∧
  ∃ p', Push_page csc_other csc_one = Ok p' ∧
        well_formed p' ∧
        Size p' = 4%nat ∧
        row_slice (offset p') (data p') 3 = [mkEntry 1 f32_2].
Proof.
  assert (H1 : well_formed csc_one).
  { split; [done|]. split; [|done].
    intros [|[|[|i]]] a b [=] [=]; subst; lia. }
  assert (H2 : well_formed csc_other).
  { split; [done|]. split; [|done].
    intros [|[|[|i]]] a b [=] [=]; subst; lia. }
  assert (H3 : Z.of_nat (length (data csc_one))
               + Z.of_nat (length (data csc_other)) < 2 ^ 64) by (cbn; lia).
  split; [exact H1|]. split; [exact H2|]. split; [exact H3|].
  destruct (Push_page_rows csc_other csc_one H1 H2 H3)
    as (p' & Hpush & Hwf & HSize & _ & _ & Hrows).
  exists p'. split; [exact Hpush|]. split; [exact Hwf|]. split; [exact HSize|].
  exact (Hrows 1%nat ltac:(cbn; lia)).
Defined.


(** ** PushCSC: the columns *)

(** X2. [p.PushCSC(batch)] on two well-formed pages with the same number of
    columns, both holding entries: the result is well-formed, has the same
    columns, and every column holds the entries [p] had in it followed by
    those of [batch]. *)
Theorem PushCSC_merges_columns (batch p : SparsePage) :
  well_formed p → well_formed batch →
  data batch ≠ [] → data p ≠ [] →
  length (offset p) = length (offset batch) →
  Z.of_nat (length (data p)) + Z.of_nat (length (data batch)) < 2 ^ 64 →
  ∃ p', PushCSC batch p = Ok p' ∧
        well_formed p' ∧
        Size p' = Size p ∧
        base_rowid p' = base_rowid p ∧
        length (data p') = (length (data p) + length (data batch))%nat ∧
        ∀ i, (i < Size p)%nat →
             row_slice (offset p') (data p') i
             = row_slice (offset p) (data p) i
               ++ row_slice (offset batch) (data batch) i.
Proof.
  intros Hp Hb Hbd Hpd Hlen Hfit.
  destruct (PushCSC_merge batch p) as (p' & Hpush & Hshape & Hoff & Hdata & Hbase);
    [done..|].
  pose proof (well_formed_Size p Hp) as Hlp.
  pose proof (well_formed_Size batch Hb) as Hlb.
  set (column i := row_slice (offset p) (data p) i
                   ++ row_slice (offset batch) (data batch) i) in *.
  set (total i := vec_get (offset p) i + vec_get (offset batch) i) in *.
  assert (Hcols : ∀ k, (k ≤ Size p)%nat →
            length (mjoin (column <$> seq 0 k)) = Z.to_nat (total k)).
  { intros k Hk.
    exact (length_columns p batch Hp Hb Hlen k ltac:(lia)). }
  assert (Hget : ∀ k, (k ≤ Size p)%nat → vec_get (offset p') k = total k).
  { intros k Hk. unfold vec_get. rewrite Hoff, list_lookup_fmap.
    rewrite lookup_seq_lt by lia. done. }
  assert (Htotal : ∀ k, (k ≤ Size p)%nat → 0 ≤ total k).
  { intros k Hk. subst total. cbn beta.
    pose proof (well_formed_bounds p k Hp ltac:(lia)).
    pose proof (well_formed_bounds batch k Hb ltac:(lia)). lia. }
  assert (Hlen' : length (offset p') = S (Size p)).
  { by rewrite Hoff, length_fmap, length_seq. }
  exists p'. split; [exact Hpush|].
  assert (Hdlen : length (data p') = (length (data p) + length (data batch))%nat).
  { rewrite Hdata, Hcols by lia. subst total. cbn beta.
    pose proof (well_formed_last p Hp) as Hl1.
    pose proof (well_formed_last batch Hb) as Hl2.
    replace (length (offset p) - 1)%nat with (Size p) in Hl1 by lia.
    replace (length (offset batch) - 1)%nat with (Size p) in Hl2 by lia.
    lia. }
  split; [|split; [|split; [done|split; [done|]]]].
  - apply well_formed_intro.
    + lia.
    + rewrite Hget by lia. subst total. cbn beta.
      by rewrite !well_formed_first.
    + intros i Hi. rewrite !Hget by lia. subst total. cbn beta.
      pose proof (well_formed_step p i Hp ltac:(lia)).
      pose proof (well_formed_step batch i Hb ltac:(lia)). lia.
    + rewrite Hlen'. replace (S (Size p) - 1)%nat with (Size p) by lia.
      rewrite Hget, Hdlen by lia. subst total. cbn beta.
      pose proof (well_formed_last p Hp) as Hl1.
      pose proof (well_formed_last batch Hb) as Hl2.
      replace (length (offset p) - 1)%nat with (Size p) in Hl1 by lia.
      replace (length (offset batch) - 1)%nat with (Size p) in Hl2 by lia.
      lia.
  - rewrite Size_drop, length_drop. lia.
  - intros i Hi. unfold row_slice at 1. rewrite !Hget by lia.
    rewrite Hdata.
    pose proof (mjoin_seq_slice column (Size p) i Hi) as Hslice.
    rewrite <- length_mjoin_seq in Hslice.
    rewrite Hcols in Hslice by lia.
    change (row_slice (offset p) (data p) i
            ++ row_slice (offset batch) (data batch) i) with (column i).
    etransitivity; [|exact Hslice]. f_equal.
    pose proof (Hcols (S i) ltac:(lia)) as HS.
    rewrite mjoin_seq_S, length_app, Hcols in HS by lia.
    pose proof (Htotal i ltac:(lia)). pose proof (Htotal (S i) ltac:(lia)).
    lia.
Qed.

Lemma PushCSC_merges_columns_witness :
  well_formed csc_one ∧ well_formed csc_other ∧
  data csc_other ≠ [] ∧ data csc_one ≠ [] ∧
  length (offset csc_one) = length (offset csc_other) ∧
  Z.of_nat (length (data csc_one)) + Z.of_nat (length (data csc_other)) < 2 ^ 64 ∧
  ∃ p', PushCSC csc_other csc_one = Ok p' ∧
        well_formed p' ∧
        row_slice (offset p') (data p') 1 = [mkEntry 1 f32_2].
Proof.
  assert (H1 : well_formed csc_one).
  { split; [done|]. split; [|done].
    intros [|[|[|i]]] a b [=] [=]; subst; lia. }
  assert (H2 : well_formed csc_other).
  { split; [done|]. split; [|done].
    intros [|[|[|i]]] a b [=] [=]; subst; lia. }
  assert (H3 : data csc_other ≠ []) by discriminate.
  assert (H4 : data csc_one ≠ []) by discriminate.
  assert (H5 : length (offset csc_one) = length (offset csc_other)) by reflexivity.
  assert (H6 : Z.of_nat (length (data csc_one))
               + Z.of_nat (length (data csc_other)) < 2 ^ 64) by (cbn; lia).
  split; [exact H1|]. split; [exact H2|]. split; [exact H3|].
  split; [exact H4|]. split; [exact H5|]. split; [exact H6|].
  destruct (PushCSC_merges_columns csc_other csc_one H1 H2 H3 H4 H5 H6)
    as (p' & Hpush & Hwf & _ & _ & _ & Hrows).
  exists p'. split; [exact Hpush|]. split; [exact Hwf|].
  exact (Hrows 1%nat ltac:(cbn; lia)).
Defined.

(** X3. When both pages hold entries, [PushCSC] fails exactly when their
    numbers of offsets differ, and then with the size check of
    data.cc:1223. *)
Theorem PushCSC_fails_iff (batch p : SparsePage) :
  well_formed p → well_formed batch →
  data batch ≠ [] → data p ≠ [] →
  Z.of_nat (length (data p)) + Z.of_nat (length (data batch)) < 2 ^ 64 →
  (is_Err (PushCSC batch p) ↔ length (offset p) ≠ length (offset batch)) ∧
  (is_Err (PushCSC batch p) → PushCSC batch p = Err CheckOffsetSizeEQ).
Proof.
  intros Hp Hb Hbd Hpd Hfit.
  destruct (decide (length (offset p) = length (offset batch))) as [Heq|Hne].
  - destruct (PushCSC_merge batch p) as (p' & -> & _); [done..|].
    cbn. split; [split; [done|]|]; done.
  - assert (Hfail : PushCSC batch p = Err CheckOffsetSizeEQ).
    { unfold PushCSC. destruct (data batch); [done|].
      destruct (data p); [done|]. by rewrite decide_True. }
    rewrite Hfail. cbn. split; [split|]; done.
Qed.

Lemma PushCSC_fails_iff_witness :
  well_formed page_row_0_2 ∧ well_formed csc_other ∧
  data csc_other ≠ [] ∧ data page_row_0_2 ≠ [] ∧
  Z.of_nat (length (data page_row_0_2))
  + Z.of_nat (length (data csc_other)) < 2 ^ 64 ∧
  PushCSC csc_other page_row_0_2 = Err CheckOffsetSizeEQ.
Proof.
  assert (H1 : well_formed page_row_0_2).
  { split; [done|]. split; [|done].
    intros [|[|i]] a b [=] [=]; subst; lia. }
  assert (H2 : well_formed csc_other).
  { split; [done|]. split; [|done].
    intros [|[|[|i]]] a b [=] [=]; subst; lia. }
  assert (H3 : data csc_other ≠ []) by discriminate.
  assert (H4 : data page_row_0_2 ≠ []) by discriminate.
  assert (H5 : Z.of_nat (length (data page_row_0_2))
               + Z.of_nat (length (data csc_other)) < 2 ^ 64) by (cbn; lia).
  split; [exact H1|]. split; [exact H2|]. split; [exact H3|].
  split; [exact H4|]. split; [exact H5|].
  destruct (PushCSC_fails_iff csc_other page_row_0_2 H1 H2 H3 H4 H5)
    as (Hiff & Herr).
  apply Herr, Hiff. cbn. lia.
Defined.


(** ** Reindex: composition *)

Lemma reindex_entry_compose (a b : Z) (e : Entry) :
  reindex_entry b (reindex_entry a e) = reindex_entry (wrap64 (a + b)) e.
Proof.
  unfold reindex_entry. cbn [index fvalue]. f_equal.
  rewrite !wrap32_wrap64. unfold wrap32, wrap64.
  rewrite Zplus_mod_idemp_l.
  assert (Hdiv : (2 ^ 32 | 2 ^ 64)) by (exists (2 ^ 32); reflexivity).
  rewrite <- (Z.mod_mod_divide (index e + (a + b) mod 2 ^ 64) _ _ Hdiv).
  rewrite Zplus_mod_idemp_r.
  rewrite (Z.mod_mod_divide _ _ _ Hdiv). f_equal. lia.
Qed.

Lemma Reindex_map (feature_offset : Z) (sched : nat → nat) (p : SparsePage) :
  Reindex feature_offset sched p
  = mkPage (offset p) (reindex_entry feature_offset <$> data p) (base_rowid p).
Proof. unfold Reindex. by rewrite ParallelFor_alter. Qed.

(** X4. Reindexing by [a] and then by [b] is reindexing by [a + b] (in
    64-bit arithmetic), whatever the assignments of entries to workers. *)
Theorem Reindex_compose (a b : Z) (sched1 sched2 sched3 : nat → nat)
    (p : SparsePage) :
  Reindex b sched2 (Reindex a sched1 p) = Reindex (wrap64 (a + b)) sched3 p.
Proof.
  rewrite !Reindex_map. cbn [offset data base_rowid]. f_equal.
  rewrite <- list_fmap_compose. apply list_fmap_ext.
  intros i e _. apply reindex_entry_compose.
Qed.

(** X5. On a page whose indices are 32-bit values, reindexing by [a] and then
    by the 64-bit negation of [a] gives the page back. *)
Theorem Reindex_inverse (a : Z) (sched1 sched2 : nat → nat) (p : SparsePage) :
  Forall (λ e, 0 ≤ index e < 2 ^ 32) (data p) →
  Reindex (wrap64 (- a)) sched2 (Reindex a sched1 p) = p.
Proof.
  intros Hidx. rewrite !Reindex_map. cbn [offset data base_rowid].
  destruct p as [off d base]. cbn [offset data base_rowid] in *. f_equal.
  rewrite <- list_fmap_compose.
  rewrite <- (list_fmap_id d) at 2. apply Forall_fmap_ext_1.
  eapply Forall_impl; [exact Hidx|]. intros [i v] Hi. cbn in *.
  unfold reindex_entry. cbn [index fvalue]. f_equal.
  rewrite !wrap32_wrap64. unfold wrap32, wrap64.
  rewrite Zplus_mod_idemp_l.
  assert (Hdiv : (2 ^ 32 | 2 ^ 64)) by (exists (2 ^ 32); reflexivity).
  rewrite <- (Z.mod_mod_divide (i + a + (- a) mod 2 ^ 64) _ _ Hdiv).
  rewrite Zplus_mod_idemp_r.
  rewrite (Z.mod_mod_divide _ _ _ Hdiv).
  replace (i + a + - a) with i by lia. apply Z.mod_small. lia.
Qed.

Lemma Reindex_inverse_witness :
  Forall (λ e, 0 ≤ index e < 2 ^ 32) (data page_row_0_2) ∧
  Reindex (wrap64 (- 7)) id (Reindex 7 id page_row_0_2) = page_row_0_2.
Proof.
  assert (H : Forall (λ e, 0 ≤ index e < 2 ^ 32) (data page_row_0_2)).
  { repeat constructor; cbn; lia. }
  split; [exact H|]. exact (Reindex_inverse 7 id id page_row_0_2 H).
Defined.


(** ** Lists made of blocks *)

Section sorted_blocks.
Context {A : Type}.

Lemma filter_none (P : A → Prop) `{!∀ x, Decision (P x)} (l : list A) :
  (∀ x, x ∈ l → ¬ P x) → filter P l = [].
Proof.
  induction l as [|x l IH]; intros Hl; [done|].
  rewrite filter_cons_False by (apply Hl; left).
  apply IH. intros y Hy. apply Hl. by right.
Qed.

Lemma filter_all (P : A → Prop) `{!∀ x, Decision (P x)} (l : list A) :
  (∀ x, x ∈ l → P x) → filter P l = l.
Proof.
  induction l as [|x l IH]; intros Hl; [done|].
  rewrite filter_cons_True by (apply Hl; left).
  f_equal. apply IH. intros y Hy. apply Hl. by right.
Qed.

(** The concatenation of blocks is sorted when every block is and every
    element of a block is below every element of a later block. *)
Lemma StronglySorted_mjoin_seq (R : relation A) (f : nat → list A) (n : nat) :
  (∀ i, (i < n)%nat → StronglySorted R (f i)) →
  (∀ i j x y, (i < j)%nat → (j < n)%nat → x ∈ f i → y ∈ f j → R x y) →
  StronglySorted R (mjoin (f <$> seq 0 n)).
Proof.
  induction n as [|n IH]; intros Hin Hacross; [constructor|].
  rewrite mjoin_seq_S. apply StronglySorted_app_2.
  - intros x y Hx Hy.
    apply list_elem_of_join in Hx as (xs & Hx & Hxs).
    apply list_elem_of_fmap in Hxs as (i & -> & Hi%elem_of_seq).
    apply (Hacross i n); (done || lia).
  - apply IH; [intros; apply Hin; lia|].
    intros i j x y Hij Hj. apply Hacross; lia.
  - apply Hin. lia.
Qed.


Lemma StronglySorted_filter (R : relation A) (P : A → Prop)
    `{!∀ x, Decision (P x)} (l : list A) :
  StronglySorted R l → StronglySorted R (filter P l).
Proof.
  induction 1 as [|x l Hl IH Hx]; [constructor|].
  rewrite filter_cons. case_decide; [|done].
  constructor; [done|].
  apply Forall_forall. intros y [_ Hy]%list_elem_of_filter.
  rewrite Forall_forall in Hx. by apply Hx.
Qed.


(** Sorting a list that is sorted by [k] into the buckets of [k], bucket
    after bucket, gives the list back. *)
Lemma buckets_of_sorted (k : A → nat) (n : nat) (l : list A) :
  StronglySorted (λ a b, (k a ≤ k b)%nat) l →
  mjoin ((λ t, filter (λ x, k x = t) l) <$> seq 0 n)
  = filter (λ x, (k x < n)%nat) l.
Proof.
  intros Hsorted. induction n as [|n IH].
  - cbn. symmetry. apply filter_none. intros x _. lia.
  - rewrite mjoin_seq_S, IH. clear IH.
    induction Hsorted as [|x l Hl IH Hx]; [done|].
    rewrite !filter_cons.
    destruct (decide (k x < n)%nat) as [Hlt|Hge].
    + rewrite decide_False, decide_True by lia. cbn. by rewrite IH.
    + destruct (decide (k x = n)) as [Heq|Hne].
      * rewrite decide_True by lia.
        assert (Hnone : filter (λ x0, (k x0 < n)%nat) l = []).
        { apply filter_none. rewrite Forall_forall in Hx.
          intros y Hy. specialize (Hx y Hy). cbn beta in Hx. lia. }
        rewrite Hnone in IH |- *. cbn in IH |- *. by rewrite IH.
      * rewrite decide_False by lia. exact IH.
Qed.

End sorted_blocks.


(** ** GetTranspose: the edge cases *)

Lemma group_entries_nil base T g : group_entries base [] T g = [].
Proof. unfold group_entries, cell_entries. cbn. apply mjoin_nils. Qed.

Lemma elem_of_transpose_events (sched : nat → nat) (p : SparsePage) ev :
  ev ∈ transpose_events sched p ↔
  ∃ i e, (i < Size p)%nat ∧ e ∈ row_slice (offset p) (data p) i ∧
         ev = mkEvent (sched i) (Z.to_nat (index e))
                (Entry_ctor (wrap32 (wrap64 (base_rowid p + Z.of_nat i)))
                            (fvalue e)).
Proof.
  unfold transpose_events. rewrite list_elem_of_join. split.
  - intros (evs & Hev & (i & -> & Hi%elem_of_seq)%list_elem_of_fmap).
    apply list_elem_of_fmap in Hev as (e & -> & He).
    exists i, e. split; [lia|done].
  - intros (i & e & Hi & He & ->).
    exists ((λ entry,
               mkEvent (sched i) (Z.to_nat (index entry))
                 (Entry_ctor (wrap32 (wrap64 (base_rowid p + Z.of_nat i)))
                             (fvalue entry)))
            <$> row_slice (offset p) (data p) i).
    split.
    + apply list_elem_of_fmap. exists e. split; [reflexivity|exact He].
    + apply list_elem_of_fmap. exists i. split; [done|].
      apply elem_of_seq. lia.
Qed.

(** The transpose of a page that holds no entries. *)
Lemma GetTranspose_empty_data (num_columns n_threads : Z)
    (sched : nat → nat) (p : SparsePage) :
  data p = [] →
  0 ≤ num_columns < 2 ^ 31 - 1 →
  1 ≤ n_threads →
  (∀ i, (i < Size p)%nat → (sched i < Z.to_nat n_threads)%nat) →
  GetTranspose num_columns n_threads sched p
  = Ok (mkPage (replicate (Z.to_nat (num_columns + 1)) 0) [] 0).
Proof.
  intros Hd Hcols HT Hsched.
  destruct (GetTranspose_spec num_columns n_threads sched p)
    as (t & -> & Hbase & Hoff & Hdata); [done..| |].
  { intros i e _. rewrite Hd, row_slice_nil. by intros ?%elem_of_nil. }
  cbn zeta in Hoff, Hdata. rewrite (transpose_events_nil sched p Hd) in *.
  destruct t as [off d base]. cbn [offset data base_rowid] in *. subst.
  f_equal. f_equal.
  - replace (Z.to_nat (num_columns + 1)) with (S (Z.to_nat num_columns)) by lia.
    cbn [replicate]. f_equal.
    apply list_eq. intros g. rewrite list_lookup_fmap.
    destruct (decide (g < Z.to_nat num_columns)%nat).
    + rewrite lookup_replicate_2, lookup_seq_lt by done.
      cbn [fmap option_fmap option_map Nat.add].
      by rewrite before_groups_nil.
    + rewrite lookup_seq_ge by lia. symmetry. apply lookup_ge_None.
      rewrite length_replicate. lia.
  - rewrite (mjoin_seq_ext _ (λ _, [])), mjoin_nils; [done|].
    intros g _. apply group_entries_nil.
Qed.

(** X6. A page without entries, whatever its rows, transposes to
    [num_columns] empty columns: [num_columns + 1] zero offsets and no
    data (data.cc:1041-1044); this for [num_columns] below 2^31 - 1, so
    that the [int] sum [num_columns + 1] fits. *)
Theorem GetTranspose_no_entries (num_columns n_threads : Z)
    (sched : nat → nat) (p : SparsePage) :
  data p = [] →
  0 ≤ num_columns < 2 ^ 31 - 1 →
  1 ≤ n_threads →
  (∀ i, (i < Size p)%nat → (sched i < Z.to_nat n_threads)%nat) →
  GetTranspose num_columns n_threads sched p
  = Ok (mkPage (replicate (Z.to_nat (num_columns + 1)) 0) [] 0).
Proof.
  intros Hd Hcols HT Hsched. by apply GetTranspose_empty_data.
Qed.

Lemma GetTranspose_no_entries_witness :
  data csc_none = [] ∧ 0 ≤ 3 < 2 ^ 31 - 1 ∧ 1 ≤ 2 ∧
  (∀ i, (i < Size csc_none)%nat → (Nat.modulo i 2 < Z.to_nat 2)%nat) ∧
  GetTranspose 3 2 (λ i, Nat.modulo i 2) csc_none = Ok (mkPage [0; 0; 0; 0] [] 0).
Proof.
  assert (H4 : ∀ i, (i < Size csc_none)%nat → (Nat.modulo i 2 < Z.to_nat 2)%nat).
  { intros i _. apply Nat.mod_upper_bound. cbn. lia. }
  split; [reflexivity|]. split; [lia|]. split; [lia|]. split; [exact H4|].
  exact (GetTranspose_no_entries 3 2 _ csc_none eq_refl ltac:(lia) ltac:(lia) H4).
Defined.

(** X7. For [num_columns] below 2^31 - 1 (the [int] sum
    [num_columns + 1] fits), [GetTranspose] fails exactly when a row
    holds an entry whose column index is not below [num_columns], and
    then with the size check of data.cc:1045. *)
Theorem GetTranspose_fails_iff (num_columns n_threads : Z)
    (sched : nat → nat) (p : SparsePage) :
  0 ≤ num_columns < 2 ^ 31 - 1 →
  1 ≤ n_threads →
  (∀ i, (i < Size p)%nat → (sched i < Z.to_nat n_threads)%nat) →
  (∀ i e, (i < Size p)%nat → e ∈ row_slice (offset p) (data p) i →
          0 ≤ index e) →
  (is_Err (GetTranspose num_columns n_threads sched p) ↔
   ∃ i e, (i < Size p)%nat ∧ e ∈ row_slice (offset p) (data p) i ∧
          num_columns ≤ index e) ∧
  (is_Err (GetTranspose num_columns n_threads sched p) →
   GetTranspose num_columns n_threads sched p = Err CheckTransposeSize).
Proof.
  intros Hcols HT Hsched Hnonneg.
  destruct (decide (data p = [])) as [Hd|Hd].
  { rewrite GetTranspose_empty_data by done. cbn. split; [|done].
    split; [done|]. intros (i & e & _ & He & _).
    rewrite Hd, row_slice_nil in He. by apply elem_of_nil in He. }
  rewrite GetTranspose_two_pass by lia.
  rewrite (wrap64_small num_columns), (wrap64_small (num_columns + 1)) by lia.
  set (evs := transpose_events sched p).
  destruct (two_pass_spec false [0] [] 0 (Z.to_nat num_columns)
              (Z.to_nat n_threads) evs)
    as (b & G & Hrun & HG0 & Hbelow & HGeq & Hoff & _);
    [lia | by apply transpose_events_above |].
  cbn [ParallelGroupBuilder.full_size] in HG0, HGeq.
  rewrite Nat.min_0_l, Nat.sub_0_r in HG0, HGeq.
  rewrite Hrun, bind_Ok. cbn zeta.
  assert (Hmatch :
    match data p with
    | [] => replicate (Z.to_nat (num_columns + 1)) 0
    | _ :: _ => ParallelGroupBuilder.offset_vec b
    end = ParallelGroupBuilder.offset_vec b)
    by (destruct (data p); done).
  rewrite Hmatch, Hoff.
  rewrite length_app, length_fmap, length_seq. cbn [length].
  destruct (decide (G = Z.to_nat num_columns)) as [HG|HG].
  - rewrite decide_True by lia. cbn. split; [|done]. split; [done|].
    intros (i & e & Hi & He & Hge).
    unfold events_below in Hbelow. rewrite Forall_forall in Hbelow.
    specialize (Hbelow _ (proj2 (elem_of_transpose_events sched p _)
                            (ex_intro _ i (ex_intro _ e (conj Hi (conj He eq_refl)))))).
    cbn [ev_key] in Hbelow. lia.
  - rewrite decide_False by lia. cbn. split; [|done]. split; [|done].
    intros _.
    assert (Hnot : ¬ events_below 0 (Z.to_nat num_columns) evs) by tauto.
    unfold events_below in Hnot.
    apply not_Forall_Exists in Hnot; [|intros ev; apply _].
    apply Exists_exists in Hnot as (ev & Hev & Hkey).
    apply elem_of_transpose_events in Hev as (i & e & Hi & He & ->).
    unfold compose in Hkey. cbn [ev_key] in Hkey.
    exists i, e. split; [done|]. split; [done|].
    specialize (Hnonneg i e Hi He). lia.
Qed.

Lemma GetTranspose_fails_iff_witness :
  0 ≤ 2 < 2 ^ 31 - 1 ∧ 1 ≤ 1 ∧
  (∀ i, (i < Size page_row_0_2)%nat → (0 < Z.to_nat 1)%nat) ∧
  (∀ i e, (i < Size page_row_0_2)%nat →
          e ∈ row_slice (offset page_row_0_2) (data page_row_0_2) i →
          0 ≤ index e) ∧
  GetTranspose 2 1 (λ _, 0%nat) page_row_0_2 = Err CheckTransposeSize.
Proof.
  assert (H3 : ∀ i, (i < Size page_row_0_2)%nat → (0 < Z.to_nat 1)%nat)
    by (intros; cbn; lia).
  assert (H4 : ∀ i e, (i < Size page_row_0_2)%nat →
            e ∈ row_slice (offset page_row_0_2) (data page_row_0_2) i →
            0 ≤ index e).
  { intros i e Hi He. apply elem_of_row_slice in He.
    cbn in He. apply elem_of_cons in He as [->|He]; [cbn; lia|].
    apply list_elem_of_singleton in He as ->. cbn. lia. }
  split; [lia|]. split; [lia|]. split; [exact H3|]. split; [exact H4|].
  destruct (GetTranspose_fails_iff 2 1 (λ _, 0%nat) page_row_0_2
              ltac:(lia) ltac:(lia) H3 H4) as (Hiff & Herr).
  apply Herr, Hiff. exists 0%nat, (mkEntry 2 f32_2).
  split; [cbn; lia|]. split; [|cbn; lia].
  cbn. apply list_elem_of_further, list_elem_of_here.
Defined.


(** ** GetTranspose: the columns *)

(** When the walk reaches the workers in ascending order, a group holds
    its entries in the order of the walk. *)
Lemma group_entries_in_order (base : nat) (evs : list event) (T g : nat) :
  StronglySorted (λ a b, (ev_tid a ≤ ev_tid b)%nat) evs →
  Forall (λ ev, (ev_tid ev < T)%nat) evs →
  group_entries base evs T g
  = ev_entry <$> filter (λ ev, ev_key ev = (base + g)%nat) evs.
Proof.
  intros Hsorted Htid. unfold group_entries, cell_entries.
  rewrite <- fmap_mjoin_seq. f_equal.
  rewrite (mjoin_seq_ext _
             (λ t, filter (λ ev, ev_tid ev = t)
                     (filter (λ ev, ev_key ev = (base + g)%nat) evs))).
  2:{ intros t _. by rewrite list_filter_filter. }
  rewrite (buckets_of_sorted ev_tid)
    by (by apply StronglySorted_filter).
  apply filter_all. intros ev [_ Hev]%list_elem_of_filter.
  rewrite Forall_forall in Htid. by apply Htid.
Qed.

Lemma StronglySorted_all {A} (R : relation A) (l : list A) :
  (∀ x y, x ∈ l → y ∈ l → R x y) → StronglySorted R l.
Proof.
  induction l as [|x l IH]; intros Hl; constructor.
  - apply IH. intros y z Hy Hz. apply Hl; by right.
  - apply Forall_forall. intros y Hy. apply Hl; [left | by right].
Qed.


(** The page of the groups of a run is well-formed, and its rows are the
    groups. *)
Lemma run_page_well_formed (base : nat) (evs : list event) (T G : nat)
    (t : SparsePage) :
  offset t = 0 :: ((λ g, Z.of_nat (before_groups base evs T (S g))) <$> seq 0 G) →
  data t = mjoin (group_entries base evs T <$> seq 0 G) →
  well_formed t ∧ Size t = G ∧
  ∀ g, (g < G)%nat → row_slice (offset t) (data t) g = group_entries base evs T g.
Proof.
  intros Hoff Hdata.
  assert (Hget : ∀ g, (g ≤ G)%nat →
            vec_get (offset t) g = Z.of_nat (before_groups base evs T g)).
  { intros [|g] Hg; unfold vec_get; rewrite Hoff.
    - by rewrite before_groups_0.
    - pose proof (run_offsets_lookup (before_groups base evs T) [0] G g
                    ltac:(lia)) as Hlook.
      cbn [length Nat.add app] in Hlook. by rewrite Hlook. }
  assert (Hlen : length (offset t) = S G).
  { rewrite Hoff. cbn. by rewrite length_fmap, length_seq. }
  split; [|split].
  - apply well_formed_intro.
    + lia.
    + rewrite Hget by lia. by rewrite before_groups_0.
    + intros i Hi. rewrite !Hget by lia.
      pose proof (before_groups_mono base evs T i (S i) ltac:(lia)). lia.
    + rewrite Hlen. replace (S G - 1)%nat with G by lia.
      rewrite Hget, Hdata, length_groups by lia. done.
  - rewrite Size_drop, length_drop. lia.
  - intros g Hg. rewrite Hoff, Hdata.
    pose proof (block_page_rows (group_entries base evs T) G 0 g) as Hrow.
    cbn zeta in Hrow. rewrite <- Hrow by done. f_equal. f_equal.
    apply list_fmap_ext. intros _ g' _. f_equal.
    apply before_groups_lengths.
Qed.

(** X8. [GetTranspose] on a page whose rows fit the 32-bit index and whose
    column indices are below [num_columns], itself below 2^31 - 1: the
    result is a well-formed page of [num_columns] rows from row 0, and it
    holds the triples of the page with row and column exchanged. *)
Theorem GetTranspose_transposes (num_columns n_threads : Z)
    (sched : nat → nat) (p : SparsePage) :
  0 ≤ base_rowid p →
  base_rowid p + Z.of_nat (Size p) ≤ 2 ^ 32 →
  0 ≤ num_columns < 2 ^ 31 - 1 →
  1 ≤ n_threads →
  (∀ i, (i < Size p)%nat → (sched i < Z.to_nat n_threads)%nat) →
  Forall (λ e, 0 ≤ index e < num_columns) (data p) →
  ∃ t,
    GetTranspose num_columns n_threads sched p = Ok t ∧
    well_formed t ∧
    base_rowid t = 0 ∧
    Size t = Z.to_nat num_columns ∧
    triples t ≡ₚ swap_triple <$> triples p.
Proof.
  intros Hbase Hrows Hcols HT Hsched Hidx.
  destruct (GetTranspose_triples num_columns n_threads sched p)
    as (t & Ht & Hb & HSize & Htriples & _); [done..|].
  destruct (GetTranspose_spec num_columns n_threads sched p)
    as (t' & Ht' & _ & Hoff & Hdata); [done..| |].
  { intros i e _ He. rewrite Forall_forall in Hidx.
    by apply Hidx, (elem_of_row_slice (offset p) _ i). }
  rewrite Ht in Ht'. injection Ht' as <-.
  exists t. split; [done|].
  split; [by apply (run_page_well_formed 0 _ _ _ t Hoff Hdata)|].
  done.
Qed.

Lemma GetTranspose_transposes_witness :
  0 ≤ base_rowid page_from_row_1 ∧
  base_rowid page_from_row_1 + Z.of_nat (Size page_from_row_1) ≤ 2 ^ 32 ∧
  0 ≤ 1 < 2 ^ 31 - 1 ∧ 1 ≤ 1 ∧
  (∀ i, (i < Size page_from_row_1)%nat → (0 < Z.to_nat 1)%nat) ∧
  Forall (λ e, 0 ≤ index e < 1) (data page_from_row_1) ∧
  ∃ t,
    GetTranspose 1 1 (λ _, 0%nat) page_from_row_1 = Ok t ∧
    well_formed t ∧
    triples t ≡ₚ swap_triple <$> triples page_from_row_1.
Proof.
  assert (H5 : ∀ i, (i < Size page_from_row_1)%nat → (0 < Z.to_nat 1)%nat)
    by (intros; cbn; lia).
  assert (H6 : Forall (λ e, 0 ≤ index e < 1) (data page_from_row_1)).
  { repeat constructor; cbn; lia. }
  split; [cbn; lia|]. split; [cbn; lia|]. split; [lia|]. split; [lia|].
  split; [exact H5|]. split; [exact H6|].
  destruct (GetTranspose_transposes 1 1 (λ _, 0%nat) page_from_row_1)
    as (t & Ht & Hwf & _ & _ & Htr);
    [cbn; lia | cbn; lia | lia | lia | exact H5 | exact H6 |].
  exists t. split; [exact Ht|]. split; [exact Hwf|exact Htr].
Defined.





(** ** SortIndices and SortRows *)

(** What [IsIndicesSorted] returns in terms of the test of each row. *)
Lemma IsIndicesSorted_rows (n_threads : Z) (sched : nat → nat) (p : SparsePage) :
  Z.of_nat (Size p) < 2 ^ 31 →
  (∀ i, (i < Size p)%nat →
        Z.of_nat (sched i)
        < Z.max (Z.min (wrap64 n_threads) (Z.of_nat (Size p))) 1) →
  IsIndicesSorted n_threads sched p = true ↔
  ∀ i, (i < Size p)%nat →
       is_sorted CmpIndex (row_slice (offset p) (data p) i) = true.
Proof.
  intros Hsize Hsched. unfold IsIndicesSorted.
  rewrite (to_int32_small (Z.max _ 1)) by lia.
  set (n := Z.to_nat (Z.max (Z.min (wrap64 n_threads) (Z.of_nat (Size p))) 1)).
  set (f i := is_sorted CmpIndex (row_slice (offset p) (data p) i)).
  destruct (tloc_counts f sched n (Size p)) as (_ & Hpos & Hsum);
    [done | intros i Hi; specialize (Hsched i Hi); lia |].
  cbn zeta in Hpos, Hsum. fold f.
  set (tloc := ParallelFor _ _ _ _) in *.
  pose proof (count_rows_bound f (Size p)).
  rewrite bool_decide_eq_true.
  rewrite accumulate_zsum by (done || lia).
  by rewrite Z.add_0_l, Hsum, count_rows_all.
Qed.

Section sort_loop.
Context (p : SparsePage) (sorted : nat → list Entry).
Context (step : nat → list Entry → list Entry).
Hypothesis Hp : well_formed p.
Hypothesis Hlen : ∀ i, (i < Size p)%nat →
  length (sorted i) = length (row_slice (offset p) (data p) i).
Hypothesis Hstep : ∀ i (done_ : list Entry), (i < Size p)%nat →
  length done_ = Z.to_nat (vec_get (offset p) i) →
  step i (done_ ++ drop (Z.to_nat (vec_get (offset p) i)) (data p))
  = done_ ++ sorted i ++ drop (Z.to_nat (vec_get (offset p) (S i))) (data p).

Lemma length_sorted_rows (k : nat) :
  (k ≤ Size p)%nat →
  length (mjoin (sorted <$> seq 0 k)) = Z.to_nat (vec_get (offset p) k).
Proof.
  intros Hk. rewrite length_mjoin_seq.
  rewrite (list_fmap_ext (λ i, length (sorted i))
             (λ i, length (row_slice (offset p) (data p) i)) (seq 0 k)).
  2:{ intros j i Hi%lookup_seq. apply Hlen. lia. }
  rewrite <- length_mjoin_seq, <- well_formed_tiles, length_take by done.
  pose proof (well_formed_Size p Hp).
  pose proof (well_formed_bounds p k Hp ltac:(lia)). lia.
Qed.

(** The loop over the rows, each row rewritten in place. *)
Lemma sort_loop (sched : nat → nat) :
  ParallelFor (Size p) sched (λ i _ h_data, step i h_data) (data p)
  = mjoin (sorted <$> seq 0 (Size p)).
Proof.
  unfold ParallelFor.
  assert (Hloop : ∀ k, (k ≤ Size p)%nat →
    foldl (λ s i, step i s) (data p) (seq 0 k)
    = mjoin (sorted <$> seq 0 k)
      ++ drop (Z.to_nat (vec_get (offset p) k)) (data p)).
  { induction k as [|k IH]; intros Hk.
    - by rewrite well_formed_first.
    - rewrite mjoin_seq_S, seq_S, foldl_app, IH by lia. cbn [foldl Nat.add].
      rewrite Hstep by (lia || (apply length_sorted_rows; lia)).
      by rewrite <- app_assoc. }
  rewrite Hloop by lia.
  pose proof (well_formed_Size p Hp).
  pose proof (well_formed_last p Hp) as Hlast.
  replace (length (offset p) - 1)%nat with (Size p) in Hlast by lia.
  rewrite Hlast, Nat2Z.id, drop_all. apply app_nil_r.
Qed.

(** The page whose data are the rewritten rows. *)
Lemma sorted_page_rows (i : nat) :
  (i < Size p)%nat →
  row_slice (offset p) (mjoin (sorted <$> seq 0 (Size p))) i = sorted i.
Proof.
  intros Hi. unfold row_slice.
  pose proof (well_formed_Size p Hp).
  pose proof (well_formed_step p i Hp ltac:(lia)).
  pose proof (well_formed_bounds p i Hp ltac:(lia)).
  pose proof (mjoin_seq_slice sorted (Size p) i Hi) as Hslice.
  rewrite <- length_mjoin_seq, length_sorted_rows in Hslice by lia.
  etransitivity; [|exact Hslice].
  f_equal. rewrite Hlen, length_row_slice by (done || lia). done.
Qed.

End sort_loop.

(** [std::sort] on a range of a vector whose rows before the range are
    already rewritten. *)
Lemma sort_range_step std_sort comp (p : SparsePage) (i : nat)
    (done_ : list Entry) :
  well_formed p → (i < Size p)%nat →
  length (std_sort comp (row_slice (offset p) (data p) i))
  = length (row_slice (offset p) (data p) i) →
  length done_ = Z.to_nat (vec_get (offset p) i) →
  sort_range std_sort comp (vec_get (offset p) i) (vec_get (offset p) (S i))
    (done_ ++ drop (Z.to_nat (vec_get (offset p) i)) (data p))
  = done_ ++ std_sort comp (row_slice (offset p) (data p) i)
    ++ drop (Z.to_nat (vec_get (offset p) (S i))) (data p).
Proof.
  intros Hp Hi Hlen Hdone. unfold sort_range.
  pose proof (well_formed_Size p Hp).
  pose proof (well_formed_step p i Hp ltac:(lia)).
  pose proof (well_formed_bounds p i Hp ltac:(lia)).
  pose proof (well_formed_bounds p (S i) Hp ltac:(lia)).
  set (n := Z.to_nat (vec_get (offset p) i)) in *.
  set (rest := drop n (data p)).
  set (row := row_slice (offset p) (data p) i) in *.
  assert (Hrowlen : length row
                    = Z.to_nat (vec_get (offset p) (S i) - vec_get (offset p) i)).
  { subst row. by rewrite length_row_slice by (done || lia). }
  assert (Hdrop : drop n (done_ ++ rest) = rest).
  { rewrite <- Hdone. apply drop_app_length. }
  rewrite Hdrop.
  change (take _ rest) with row.
  replace (list_inserts n (std_sort comp row) (done_ ++ rest))
    with (list_inserts (length done_ + 0) (std_sort comp row) (done_ ++ rest))
    by (by rewrite Hdone, Nat.add_0_r).
  rewrite list_inserts_app_r. f_equal.
  rewrite <- (take_drop (length row) rest).
  rewrite list_inserts_0_r.
  - f_equal. subst rest. rewrite drop_drop. f_equal. lia.
  - rewrite Hlen, length_take. subst rest. rewrite length_drop. lia.
Qed.

(** X10. [SortIndices] on a well-formed page, for a [std::sort] that hands
    back every row rearranged and ordered: offsets and [base_rowid] stay,
    every row is [std::sort] of the row it was, so it holds the same
    entries and is ascending by column index. *)
Theorem SortIndices_sorts_rows
    (std_sort : (Entry → Entry → bool) → list Entry → list Entry)
    (sched : nat → nat) (p : SparsePage) :
  well_formed p →
  (∀ i, (i < Size p)%nat →
        std_sort CmpIndex (row_slice (offset p) (data p) i)
        ≡ₚ row_slice (offset p) (data p) i ∧
        is_sorted CmpIndex (std_sort CmpIndex (row_slice (offset p) (data p) i))
        = true) →
  let p' := SortIndices std_sort sched p in
  offset p' = offset p ∧ base_rowid p' = base_rowid p ∧
  well_formed p' ∧
  ∀ i, (i < Size p)%nat →
    row_slice (offset p') (data p') i
    = std_sort CmpIndex (row_slice (offset p) (data p) i) ∧
    row_slice (offset p') (data p') i ≡ₚ row_slice (offset p) (data p) i ∧
    ascending_by_index (row_slice (offset p') (data p') i).
Proof.
  intros Hp Hsort p'.
  set (sorted i := std_sort CmpIndex (row_slice (offset p) (data p) i)).
  assert (Hlen : ∀ i, (i < Size p)%nat →
            length (sorted i) = length (row_slice (offset p) (data p) i)).
  { intros i Hi. unfold sorted. by rewrite (proj1 (Hsort i Hi)). }
  assert (Hdata : data p' = mjoin (sorted <$> seq 0 (Size p))).
  { subst p'. unfold SortIndices. cbn [data].
    apply (sort_loop p sorted
             (λ i h, sort_range std_sort CmpIndex
                       (vec_get (offset p) i) (vec_get (offset p) (S i)) h));
      [done..|].
    intros i done_ Hi Hdone.
    apply sort_range_step; [done | done | exact (Hlen i Hi) | done]. }
  assert (Hrows : ∀ i, (i < Size p)%nat →
            row_slice (offset p') (data p') i = sorted i).
  { intros i Hi. rewrite Hdata. change (offset p') with (offset p).
    exact (sorted_page_rows p sorted Hp Hlen i Hi). }
  split; [done|]. split; [done|]. split.
  - destruct Hp as (H0 & Hmono & Hback). split; [done|]. split; [done|].
    change (offset p') with (offset p). rewrite Hback, Hdata. f_equal. f_equal.
    rewrite (length_sorted_rows p sorted (conj H0 (conj Hmono Hback)) Hlen)
      by lia.
    pose proof (well_formed_Size p (conj H0 (conj Hmono Hback))).
    pose proof (well_formed_last p (conj H0 (conj Hmono Hback))) as Hlast.
    replace (length (offset p) - 1)%nat with (Size p) in Hlast by lia.
    rewrite Hlast. lia.
  - intros i Hi. rewrite (Hrows i Hi). destruct (Hsort i Hi) as [Hperm Hs].
    split; [done|]. split; [done|]. by apply is_sorted_CmpIndex.
Qed.


Lemma SortIndices_sorts_rows_witness :
  well_formed page_unsorted_row ∧
  (∀ i, (i < Size page_unsorted_row)%nat →
        merge_sort_by CmpIndex
          (row_slice (offset page_unsorted_row) (data page_unsorted_row) i)
        ≡ₚ row_slice (offset page_unsorted_row) (data page_unsorted_row) i ∧
        is_sorted CmpIndex
          (merge_sort_by CmpIndex
             (row_slice (offset page_unsorted_row) (data page_unsorted_row) i))
        = true) ∧
  row_slice (offset (SortIndices merge_sort_by id page_unsorted_row))
            (data (SortIndices merge_sort_by id page_unsorted_row)) 1
  = [mkEntry 1 (S754_zero false); mkEntry 3 (S754_zero false)].
Proof.
  assert (H1 : well_formed page_unsorted_row).
  { split; [done|]. split; [|done].
    intros [|[|[|i]]] a b [=] [=]; subst; lia. }
  assert (H2 : ∀ i, (i < Size page_unsorted_row)%nat →
    merge_sort_by CmpIndex
      (row_slice (offset page_unsorted_row) (data page_unsorted_row) i)
    ≡ₚ row_slice (offset page_unsorted_row) (data page_unsorted_row) i ∧
    is_sorted CmpIndex
      (merge_sort_by CmpIndex
         (row_slice (offset page_unsorted_row) (data page_unsorted_row) i))
    = true).
  { intros i Hi. split; [apply merge_sort_Permutation|].
    destruct i as [|[|i]]; [reflexivity | reflexivity | cbn in Hi; lia]. }
  split; [exact H1|]. split; [exact H2|].
  destruct (SortIndices_sorts_rows merge_sort_by id page_unsorted_row H1 H2)
    as (_ & _ & _ & Hrows).
  destruct (Hrows 1%nat ltac:(cbn; lia)) as (-> & _). reflexivity.
Defined.

(** X11. After [SortIndices], [IsIndicesSorted] holds, for every thread count
    of either call. *)
Theorem SortIndices_then_IsIndicesSorted
    (std_sort : (Entry → Entry → bool) → list Entry → list Entry)
    (n_threads : Z) (sched sched' : nat → nat) (p : SparsePage) :
  well_formed p →
  Z.of_nat (Size p) < 2 ^ 31 →
  (∀ i, (i < Size p)%nat →
        std_sort CmpIndex (row_slice (offset p) (data p) i)
        ≡ₚ row_slice (offset p) (data p) i ∧
        is_sorted CmpIndex (std_sort CmpIndex (row_slice (offset p) (data p) i))
        = true) →
  (∀ i, (i < Size p)%nat →
        Z.of_nat (sched' i)
        < Z.max (Z.min (wrap64 n_threads) (Z.of_nat (Size p))) 1) →
  IsIndicesSorted n_threads sched' (SortIndices std_sort sched p) = true.
Proof.
  intros Hp Hsize Hsort Hsched.
  set (sorted i := std_sort CmpIndex (row_slice (offset p) (data p) i)).
  assert (Hlen : ∀ i, (i < Size p)%nat →
            length (sorted i) = length (row_slice (offset p) (data p) i)).
  { intros i Hi. unfold sorted. by rewrite (proj1 (Hsort i Hi)). }
  assert (Hdata : data (SortIndices std_sort sched p)
                  = mjoin (sorted <$> seq 0 (Size p))).
  { unfold SortIndices. cbn [data].
    apply (sort_loop p sorted
             (λ i h, sort_range std_sort CmpIndex
                       (vec_get (offset p) i) (vec_get (offset p) (S i)) h));
      [done..|].
    intros i done_ Hi Hdone.
    apply sort_range_step; [done | done | exact (Hlen i Hi) | done]. }
  apply IsIndicesSorted_rows; [done | done |].
  intros i Hi. rewrite Hdata.
  change (offset (SortIndices std_sort sched p)) with (offset p).
  change (Size (SortIndices std_sort sched p)) with (Size p) in Hi.
  rewrite (sorted_page_rows p sorted Hp Hlen i Hi).
  exact (proj2 (Hsort i Hi)).
Qed.

Lemma SortIndices_then_IsIndicesSorted_witness :
  well_formed page_unsorted_row ∧
  Z.of_nat (Size page_unsorted_row) < 2 ^ 31 ∧
  (∀ i, (i < Size page_unsorted_row)%nat →
        merge_sort_by CmpIndex
          (row_slice (offset page_unsorted_row) (data page_unsorted_row) i)
        ≡ₚ row_slice (offset page_unsorted_row) (data page_unsorted_row) i ∧
        is_sorted CmpIndex
          (merge_sort_by CmpIndex
             (row_slice (offset page_unsorted_row) (data page_unsorted_row) i))
        = true) ∧
  (∀ i, (i < Size page_unsorted_row)%nat →
        Z.of_nat (id i)
        < Z.max (Z.min (wrap64 4) (Z.of_nat (Size page_unsorted_row))) 1) ∧
  IsIndicesSorted 4 id page_unsorted_row = false ∧
  IsIndicesSorted 4 id (SortIndices merge_sort_by id page_unsorted_row) = true.
Proof.
  assert (H1 : well_formed page_unsorted_row).
  { split; [done|]. split; [|done].
    intros [|[|[|i]]] a b [=] [=]; subst; lia. }
  assert (H2 : Z.of_nat (Size page_unsorted_row) < 2 ^ 31) by (cbn; lia).
  assert (H3 : ∀ i, (i < Size page_unsorted_row)%nat →
    merge_sort_by CmpIndex
      (row_slice (offset page_unsorted_row) (data page_unsorted_row) i)
    ≡ₚ row_slice (offset page_unsorted_row) (data page_unsorted_row) i ∧
    is_sorted CmpIndex
      (merge_sort_by CmpIndex
         (row_slice (offset page_unsorted_row) (data page_unsorted_row) i))
    = true).
  { intros i Hi. split; [apply merge_sort_Permutation|].
    destruct i as [|[|i]]; [reflexivity | reflexivity | cbn in Hi; lia]. }
  assert (H4 : ∀ i, (i < Size page_unsorted_row)%nat →
    Z.of_nat (id i)
    < Z.max (Z.min (wrap64 4) (Z.of_nat (Size page_unsorted_row))) 1).
  { intros i Hi.
    assert (Z.max (Z.min (wrap64 4) (Z.of_nat (Size page_unsorted_row))) 1 = 2)
      as -> by reflexivity.
    cbn in Hi. unfold id. lia. }
  split; [exact H1|]. split; [exact H2|]. split; [exact H3|].
  split; [exact H4|]. split; [reflexivity|].
  exact (SortIndices_then_IsIndicesSorted merge_sort_by 4 id id
           page_unsorted_row H1 H2 H3 H4).
Defined.

(** The guarded step of [SortRows] (data.cc:1088-1090). *)
Lemma SortRows_step std_sort (p : SparsePage) (i : nat) (done_ : list Entry) :
  well_formed p → (i < Size p)%nat →
  length (std_sort CmpValue (row_slice (offset p) (data p) i))
  = length (row_slice (offset p) (data p) i) →
  length done_ = Z.to_nat (vec_get (offset p) i) →
  (if decide (vec_get (offset p) i < vec_get (offset p) (S i))
   then sort_range std_sort CmpValue
          (vec_get (offset p) i) (vec_get (offset p) (S i))
          (done_ ++ drop (Z.to_nat (vec_get (offset p) i)) (data p))
   else done_ ++ drop (Z.to_nat (vec_get (offset p) i)) (data p))
  = done_ ++ std_sort CmpValue (row_slice (offset p) (data p) i)
    ++ drop (Z.to_nat (vec_get (offset p) (S i))) (data p).
Proof.
  intros Hp Hi Hlen Hdone. case_decide as Hlt.
  - by apply sort_range_step.
  - pose proof (well_formed_Size p Hp).
    pose proof (well_formed_step p i Hp ltac:(lia)).
    assert (Heq : vec_get (offset p) (S i) = vec_get (offset p) i) by lia.
    rewrite length_row_slice, Heq, Z.sub_diag in Hlen by (done || lia).
    apply nil_length_inv in Hlen. by rewrite Hlen, Heq.
Qed.

(** X12. [SortRows] on a well-formed page, for a [std::sort] that hands back
    every row rearranged and ordered by value: offsets and [base_rowid]
    stay, every row holds the same entries and none of its entries has a
    smaller value than the entry before it. *)
Theorem SortRows_sorts_rows
    (std_sort : (Entry → Entry → bool) → list Entry → list Entry)
    (sched : nat → nat) (p : SparsePage) :
  well_formed p →
  (∀ i, (i < Size p)%nat →
        std_sort CmpValue (row_slice (offset p) (data p) i)
        ≡ₚ row_slice (offset p) (data p) i ∧
        is_sorted CmpValue (std_sort CmpValue (row_slice (offset p) (data p) i))
        = true) →
  let p' := SortRows std_sort sched p in
  offset p' = offset p ∧ base_rowid p' = base_rowid p ∧
  well_formed p' ∧
  ∀ i, (i < Size p)%nat →
    row_slice (offset p') (data p') i
    = std_sort CmpValue (row_slice (offset p) (data p) i) ∧
    row_slice (offset p') (data p') i ≡ₚ row_slice (offset p) (data p) i ∧
    is_sorted CmpValue (row_slice (offset p') (data p') i) = true.
Proof.
  intros Hp Hsort p'.
  set (sorted i := std_sort CmpValue (row_slice (offset p) (data p) i)).
  assert (Hlen : ∀ i, (i < Size p)%nat →
            length (sorted i) = length (row_slice (offset p) (data p) i)).
  { intros i Hi. unfold sorted. by rewrite (proj1 (Hsort i Hi)). }
  assert (Hdata : data p' = mjoin (sorted <$> seq 0 (Size p))).
  { subst p'. unfold SortRows. cbn [data].
    apply (sort_loop p sorted
             (λ i h,
                if decide (vec_get (offset p) i < vec_get (offset p) (S i))
                then sort_range std_sort CmpValue
                       (vec_get (offset p) i) (vec_get (offset p) (S i)) h
                else h));
      [done..|].
    intros i done_ Hi Hdone.
    apply SortRows_step; [done | done | exact (Hlen i Hi) | done]. }
  assert (Hrows : ∀ i, (i < Size p)%nat →
            row_slice (offset p') (data p') i = sorted i).
  { intros i Hi. rewrite Hdata. change (offset p') with (offset p).
    exact (sorted_page_rows p sorted Hp Hlen i Hi). }
  split; [done|]. split; [done|]. split.
  - destruct Hp as (H0 & Hmono & Hback). split; [done|]. split; [done|].
    change (offset p') with (offset p). rewrite Hback, Hdata. f_equal. f_equal.
    rewrite (length_sorted_rows p sorted (conj H0 (conj Hmono Hback)) Hlen)
      by lia.
    pose proof (well_formed_Size p (conj H0 (conj Hmono Hback))).
    pose proof (well_formed_last p (conj H0 (conj Hmono Hback))) as Hlast.
    replace (length (offset p) - 1)%nat with (Size p) in Hlast by lia.
    rewrite Hlast. lia.
  - intros i Hi. rewrite (Hrows i Hi). destruct (Hsort i Hi) as [Hperm Hs].
    done.
Qed.

Lemma SortRows_sorts_rows_witness :
  well_formed page_row_0_2 ∧
  (∀ i, (i < Size page_row_0_2)%nat →
        merge_sort_by CmpValue
          (row_slice (offset page_row_0_2) (data page_row_0_2) i)
        ≡ₚ row_slice (offset page_row_0_2) (data page_row_0_2) i ∧
        is_sorted CmpValue
          (merge_sort_by CmpValue
             (row_slice (offset page_row_0_2) (data page_row_0_2) i))
        = true) ∧
  is_sorted CmpValue
    (row_slice (offset (SortRows merge_sort_by id page_row_0_2))
               (data (SortRows merge_sort_by id page_row_0_2)) 0) = true.
Proof.
  assert (H1 : well_formed page_row_0_2).
  { split; [done|]. split; [|done].
    intros [|[|i]] a b [=] [=]; subst; lia. }
  assert (H2 : ∀ i, (i < Size page_row_0_2)%nat →
    merge_sort_by CmpValue
      (row_slice (offset page_row_0_2) (data page_row_0_2) i)
    ≡ₚ row_slice (offset page_row_0_2) (data page_row_0_2) i ∧
    is_sorted CmpValue
      (merge_sort_by CmpValue
         (row_slice (offset page_row_0_2) (data page_row_0_2) i))
    = true).
  { intros i Hi. split; [apply merge_sort_Permutation|].
    destruct i as [|i]; [reflexivity | cbn in Hi; lia]. }
  split; [exact H1|]. split; [exact H2|].
  destruct (SortRows_sorts_rows merge_sort_by id page_row_0_2 H1 H2)
    as (_ & _ & _ & Hrows).
  exact (proj2 (proj2 (Hrows 0%nat ltac:(cbn; lia)))).
Defined.


(** ** Push of an adapter batch: a row below the page *)

Lemma list_split_first {A} (P : A → Prop) `{!∀ x, Decision (P x)} (l : list A) :
  Exists P l →
  ∃ pre x post, l = pre ++ x :: post ∧ Forall (λ y, ¬ P y) pre ∧ P x.
Proof.
  induction l as [|y l IH]; intros Hex; [by apply Exists_nil in Hex|].
  destruct (decide (P y)) as [Hy|Hy].
  - exists [], y, l. by repeat split.
  - apply Exists_cons in Hex as [?|Hex]; [done|].
    destruct (IH Hex) as (pre & x & post & -> & Hpre & Hx).
    exists (y :: pre), x, post. repeat split; [|done]. by constructor.
Qed.

(** The count pass of a fresh builder succeeds on events that lie at or
    above its base. *)
Lemma count_pass_fresh (is_row_major : bool) (offset_vec : list Z)
    (data_vec : list Entry) (base max_key T : nat) (evs : list event) :
  events_above base T evs →
  ∃ b, count_pass
         (ParallelGroupBuilder.InitBudget max_key T
            (ParallelGroupBuilder.make is_row_major offset_vec data_vec base))
         evs = Ok b.
Proof.
  intros Habove.
  destruct (count_pass_table evs
              (ParallelGroupBuilder.InitBudget max_key T
                 (ParallelGroupBuilder.make is_row_major offset_vec data_vec
                    base))
              T (λ _, ParallelGroupBuilder.full_size is_row_major base max_key)
              (λ _ _, 0%nat))
    as (tbl & len' & Hrun & _); [apply table_is_replicate | done | done |].
  eauto.
Qed.

(** X13. A batch with a tuple in a row below the rows of the page makes [Push]
    fail with the check of data.cc:1166, whatever its values: the check
    is raised in the first pass, before the test for infinite values is
    looked at. *)
Theorem Push_row_below_base_fails (batch : AdapterBatch) (missing : spec_float)
    (nthread : Z) (p : SparsePage) :
  1 ≤ (if kIsRowMajor batch then nthread else 1) →
  (∃ el, el ∈ batch_tuples batch ∧
         tuple_key (base_rowid p) el < Z.of_nat (Size p)) →
  Push batch missing nthread p = Err CheckKeyGE.
Proof.
  intros HT (el & Hel & Hkey).
  set (nthread' := if kIsRowMajor batch then nthread else 1) in *.
  set (T := Z.to_nat nthread').
  set (thread_size := Z.to_nat (Z.of_nat (length (lines batch)) / nthread')).
  set (xs := tagged_tuples batch thread_size T).
  assert (Hlines : lines batch ≠ []).
  { intros Hnil. unfold batch_tuples in Hel. rewrite Hnil in Hel.
    by apply elem_of_nil in Hel. }
  assert (Hex : Exists (λ x, tuple_key (base_rowid p) x.2 < Z.of_nat (Size p)) xs).
  { rewrite <- (tagged_tuples_all batch thread_size T) in Hel by lia.
    apply list_elem_of_fmap in Hel as (x & -> & Hx).
    apply Exists_exists. by exists x. }
  apply list_split_first in Hex as (pre & x & post & Hxs & Hpre & Hx);
    [|intros ?; apply _].
  assert (Htid : Forall (λ x, (x.1 < T)%nat) pre).
  { pose proof (tagged_tuples_tid batch thread_size T) as Hall.
    fold xs in Hall. rewrite Hxs in Hall. by apply Forall_app in Hall as [? _]. }
  assert (Hkeys : Forall (λ x, Z.of_nat (Size p) ≤ tuple_key (base_rowid p) x.2) pre).
  { eapply Forall_impl; [exact Hpre|]. intros y Hy. cbn beta in Hy. lia. }
  destruct (count_pass_fresh (kIsRowMajor batch) (offset p) (data p) (Size p)
              (Z.to_nat (expected_rows batch (base_rowid p))) T
              (push_events missing (base_rowid p) pre)) as (b1 & Hcount).
  { by apply push_events_above. }
  unfold Push. fold nthread'.
  rewrite decide_False by (destruct (lines batch); [done | cbn; lia]).
  rewrite decide_False by lia.
  fold thread_size T.
  rewrite for_each_thread_tagged. fold xs. rewrite Hxs, foldlM_app.
  rewrite (count_elements missing (base_rowid p) (Size p) pre
             (mkCount _ true _) b1 Hkeys Hcount).
  rewrite bind_Ok, foldlM_cons.
  assert (Hfail : ∀ st, count_element missing (base_rowid p) (Size p) x.1 st x.2
                        = Err CheckKeyGE).
  { intros st. unfold count_element. unfold tuple_key in Hx.
    by rewrite decide_True by lia. }
  by rewrite Hfail.
Qed.

Lemma Push_row_below_base_fails_witness :
  1 ≤ (if kIsRowMajor batch_infinite then 2 else 1) ∧
  (∃ el, el ∈ batch_tuples batch_infinite ∧
         tuple_key (base_rowid page_one_row) el < Z.of_nat (Size page_one_row)) ∧
  Push batch_infinite (S754_zero false) 2 page_one_row = Err CheckKeyGE.
Proof.
  assert (H1 : 1 ≤ (if kIsRowMajor batch_infinite then 2 else 1)) by (cbn; lia).
  assert (H2 : ∃ el, el ∈ batch_tuples batch_infinite ∧
     tuple_key (base_rowid page_one_row) el < Z.of_nat (Size page_one_row)).
  { exists (mkCOO 0 0 (S754_infinity false)).
    split; [apply list_elem_of_here|]. vm_compute. reflexivity. }
  split; [exact H1|]. split; [exact H2|].
  exact (Push_row_below_base_fails batch_infinite (S754_zero false) 2
           page_one_row H1 H2).
Defined.


(** ** Push of an adapter batch: the rows *)

Lemma push_events_row (missing : spec_float) (base_rowid : Z) (K : nat)
    (xs : list (nat * COOTuple)) :
  ev_entry
    <$> filter (λ ev, ev_key ev = K) (push_events missing base_rowid xs)
  = tuple_entry
    <$> filter (λ el, IsValidFunctor missing el = true ∧
                      Z.to_nat (tuple_key base_rowid el) = K)
               (snd <$> xs).
Proof.
  unfold push_events. induction xs as [|x xs IH]; [done|].
  rewrite fmap_cons, !filter_cons.
  destruct (decide (IsValidFunctor missing x.2 = true)) as [Hv|Hv].
  - rewrite fmap_cons, filter_cons. cbn [tuple_event ev_key].
    destruct (decide (Z.to_nat (tuple_key base_rowid x.2) = K)) as [Hk|Hk].
    + rewrite decide_True by done. by rewrite !fmap_cons, IH.
    + rewrite decide_False by tauto. exact IH.
  - rewrite decide_False by tauto. exact IH.
Qed.

(** The page [Push] builds, as the page it was given with the page of the
    groups appended. *)
Lemma Push_page_of_groups (p : SparsePage) (base : nat) (evs : list event)
    (T G : nat) :
  well_formed p →
  let q := mkPage (0 :: ((λ g, Z.of_nat (before_groups base evs T (S g)))
                         <$> seq 0 G))
                  (mjoin (group_entries base evs T <$> seq 0 G)) 0 in
  let p' := mkPage (offset p
                    ++ ((λ g, Z.of_nat (length (data p)
                                        + before_groups base evs T (S g)))
                        <$> seq 0 G))
                   (data p ++ mjoin (group_entries base evs T <$> seq 0 G))
                   (base_rowid p) in
  well_formed p' ∧
  Size p' = (Size p + G)%nat ∧
  (∀ i, (i < Size p)%nat →
        row_slice (offset p') (data p') i = row_slice (offset p) (data p) i) ∧
  (∀ g, (g < G)%nat →
        row_slice (offset p') (data p') (Size p + g)
        = group_entries base evs T g).
Proof.
  intros Hp q p'.
  destruct (run_page_well_formed base evs T G q eq_refl eq_refl)
    as (Hq & HSq & Hrows).
  destruct (append_rows p q (offset p') (base_rowid p) Hp Hq)
    as (Hwf & HSize & Hold & Hnew).
  - subst p'. cbn [offset]. rewrite length_app, length_fmap, length_seq.
    pose proof (well_formed_Size p Hp). lia.
  - intros k Hk. subst p'. cbn [offset].
    rewrite <- (appended_offsets p q (Z.add (Z.of_nat (length (data p)))))
      by done.
    f_equal. f_equal. subst q. cbn [offset drop]. rewrite drop_0.
    rewrite <- list_fmap_compose. apply list_fmap_ext.
    intros _ g _. cbn. lia.
  - split; [exact Hwf|]. split; [rewrite <- HSq; exact HSize|].
    split; [exact Hold|]. intros g Hg.
    etransitivity; [apply (Hnew g); lia|]. by apply Hrows.
Qed.

(** ** Push of a row-major batch: line by line *)


(** The tuples the workers walk reach the workers in ascending order. *)
Lemma tagged_tuples_sorted (batch : AdapterBatch) (thread_size nthread : nat) :
  StronglySorted (λ a b : nat * COOTuple, (a.1 ≤ b.1)%nat)
    (tagged_tuples batch thread_size nthread).
Proof.
  unfold tagged_tuples. apply StronglySorted_mjoin_seq.
  - intros t _. apply StronglySorted_all.
    intros x y (e & -> & _)%list_elem_of_fmap (e' & -> & _)%list_elem_of_fmap.
    done.
  - intros i j x y Hij _ (e & -> & _)%list_elem_of_fmap
      (e' & -> & _)%list_elem_of_fmap.
    cbn. lia.
Qed.

Lemma push_events_sorted (missing : spec_float) (base_rowid : Z)
    (xs : list (nat * COOTuple)) :
  StronglySorted (λ a b : nat * COOTuple, (a.1 ≤ b.1)%nat) xs →
  StronglySorted (λ a b, (ev_tid a ≤ ev_tid b)%nat)
    (push_events missing base_rowid xs).
Proof.
  intros Hxs. unfold push_events.
  apply (StronglySorted_fmap _ (λ a b : nat * COOTuple, (a.1 ≤ b.1)%nat));
    [done|].
  by apply StronglySorted_filter.
Qed.



(** X14. [Push] of a batch that one worker walks (a column-major batch,
    or a row-major batch with one thread) onto a well-formed page, when
    no tuple lies in a row below the rows of the page and the values are
    admissible: the result is well-formed and the rows the page had are
    untouched.  The page ends with the row the hint asked for or with
    the last row that received an entry, whichever comes later; the hint
    is one row per line for a row-major batch and else the row of the
    last tuple of the last line.  Every new row holds, in the order of
    the batch, the entries of exactly the tuples of that row that pass
    the Validity Filter. *)
Theorem Push_appends_rows (batch : AdapterBatch) (missing : spec_float)
    (nthread : Z) (p : SparsePage) :
  lines batch ≠ [] →
  (if kIsRowMajor batch then nthread else 1) = 1 →
  Forall (λ el, Z.of_nat (Size p) ≤ tuple_key (base_rowid p) el)
         (batch_tuples batch) →
  forallb (admissible missing) (batch_tuples batch) = true →
  well_formed p →
  let hint :=
    if kIsRowMajor batch then (Size p + length (lines batch))%nat
    else Nat.max (Size p) (Z.to_nat (expected_rows batch (base_rowid p))) in
  let valid :=
    filter (λ el, IsValidFunctor missing el = true) (batch_tuples batch) in
  ∃ p' r,
    Push batch missing nthread p = Ok (p', r) ∧
    well_formed p' ∧
    base_rowid p' = base_rowid p ∧
    (hint ≤ Size p')%nat ∧
    Forall (λ el, tuple_key (base_rowid p) el < Z.of_nat (Size p')) valid ∧
    (∀ n, (hint ≤ n)%nat →
          Forall (λ el, tuple_key (base_rowid p) el < Z.of_nat n) valid →
          (Size p' ≤ n)%nat) ∧
    (∀ i, (i < Size p)%nat →
          row_slice (offset p') (data p') i = row_slice (offset p) (data p) i) ∧
    (∀ g, (Size p + g < Size p')%nat →
          row_slice (offset p') (data p') (Size p + g)
          = tuple_entry
            <$> filter (λ el, IsValidFunctor missing el = true ∧
                              Z.to_nat (tuple_key (base_rowid p) el)
                              = (Size p + g)%nat)
                       (batch_tuples batch)).
Proof.
  intros Hlines Hone Hkeys Hadm Hp hint valid.
  pose proof (Push_least batch missing nthread p) as Hspec. cbn zeta in Hspec.
  destruct (Hspec Hlines ltac:(lia) Hkeys) as (G & HG0 & Hbelow & Hleast & Hpush).
  clear Hspec.
  rewrite Hadm in Hpush. rewrite Hpush. clear Hpush.
  rewrite Hone in *.
  set (T := Z.to_nat 1) in *.
  set (xs := tagged_tuples batch _ T) in *.
  set (evs := push_events missing (base_rowid p) xs) in *.
  assert (Hall : snd <$> xs = batch_tuples batch)
    by (apply tagged_tuples_all; lia).
  assert (Hhint : hint = (Size p
                          + ParallelGroupBuilder.full_size (kIsRowMajor batch)
                              (Size p)
                              (Z.to_nat (expected_rows batch (base_rowid p))))%nat).
  { unfold hint, ParallelGroupBuilder.full_size, expected_rows.
    destruct (kIsRowMajor batch); [by rewrite Nat2Z.id | lia]. }
  assert (Hevs : ∀ n, events_below (Size p) n evs
                      ↔ Forall (λ el, tuple_key (base_rowid p) el
                                      < Z.of_nat (Size p + n)) valid).
  { intros n. unfold events_below, evs, push_events, valid.
    rewrite !Forall_forall. rewrite Forall_forall in Hkeys. split.
    - intros Hev el [Hv Hel]%list_elem_of_filter.
      specialize (Hkeys el Hel). cbn beta in Hkeys.
      rewrite <- Hall in Hel. apply list_elem_of_fmap in Hel as (x & -> & Hx).
      specialize (Hev (tuple_event (base_rowid p) x)).
      cbn [tuple_event ev_key] in Hev.
      assert ((Z.to_nat (tuple_key (base_rowid p) x.2) - Size p < n)%nat);
        [|lia].
      apply Hev, list_elem_of_fmap. exists x. split; [done|].
      by apply list_elem_of_filter.
    - intros Hel ev (x & -> & [Hv Hx]%list_elem_of_filter)%list_elem_of_fmap.
      cbn [tuple_event ev_key].
      assert (Hin : x.2 ∈ batch_tuples batch).
      { rewrite <- Hall. apply list_elem_of_fmap. eauto. }
      specialize (Hkeys _ Hin). cbn beta in Hkeys.
      specialize (Hel x.2 ltac:(by apply list_elem_of_filter)).
      cbn beta in Hel. lia. }
  assert (Htop : Z.to_nat (default 0 (last (offset p))) = length (data p)).
  { destruct Hp as (_ & _ & Hback). unfold back in Hback. rewrite Hback.
    cbn [default from_option id]. apply Nat2Z.id. }
  rewrite Htop, resize_all.
  destruct (Push_page_of_groups p (Size p) evs T G Hp)
    as (Hwf & HSize & Hold & Hnew).
  eexists _, _. split; [reflexivity|].
  split; [exact Hwf|]. split; [done|]. rewrite HSize.
  split; [lia|]. split; [by apply Hevs|]. split.
  { intros n Hn Hvalid.
    assert (G ≤ n - Size p)%nat; [|lia].
    apply Hleast; [lia|]. apply Hevs.
    by replace (Size p + (n - Size p))%nat with n by lia. }
  split; [exact Hold|].
  intros g Hg. rewrite Hnew by lia.
  rewrite group_entries_in_order.
  - subst evs. rewrite push_events_row. by rewrite Hall.
  - apply push_events_sorted, tagged_tuples_sorted.
  - subst evs. unfold push_events. apply Forall_fmap, Forall_forall.
    intros x [_ Hx]%list_elem_of_filter. cbn.
    pose proof (tagged_tuples_tid batch
                  (Z.to_nat (Z.of_nat (length (lines batch)) / 1)) T) as Htid.
    rewrite Forall_forall in Htid. by apply Htid.
Qed.

Lemma Push_appends_rows_witness :
  (lines batch_column_gap ≠ [] ∧
   (if kIsRowMajor batch_column_gap then 3 else 1) = 1 ∧
   Forall (λ el, Z.of_nat (Size page_one_row)
                 ≤ tuple_key (base_rowid page_one_row) el)
          (batch_tuples batch_column_gap) ∧
   forallb (admissible S754_nan) (batch_tuples batch_column_gap) = true ∧
   well_formed page_one_row) ∧
  let hint :=
    if kIsRowMajor batch_column_gap
    then (Size page_one_row + length (lines batch_column_gap))%nat
    else Nat.max (Size page_one_row)
           (Z.to_nat (expected_rows batch_column_gap
                        (base_rowid page_one_row))) in
  let valid :=
    filter (λ el, IsValidFunctor S754_nan el = true)
           (batch_tuples batch_column_gap) in
  ∃ p' r,
    Push batch_column_gap S754_nan 3 page_one_row = Ok (p', r) ∧
    well_formed p' ∧
    base_rowid p' = base_rowid page_one_row ∧
    (hint ≤ Size p')%nat ∧
    Forall (λ el, tuple_key (base_rowid page_one_row) el < Z.of_nat (Size p'))
           valid ∧
    (∀ n, (hint ≤ n)%nat →
          Forall (λ el, tuple_key (base_rowid page_one_row) el < Z.of_nat n)
                 valid →
          (Size p' ≤ n)%nat) ∧
    (∀ i, (i < Size page_one_row)%nat →
          row_slice (offset p') (data p') i
          = row_slice (offset page_one_row) (data page_one_row) i) ∧
    (∀ g, (Size page_one_row + g < Size p')%nat →
          row_slice (offset p') (data p') (Size page_one_row + g)
          = tuple_entry
            <$> filter (λ el, IsValidFunctor S754_nan el = true ∧
                              Z.to_nat (tuple_key (base_rowid page_one_row) el)
                              = (Size page_one_row + g)%nat)
                       (batch_tuples batch_column_gap)).
Proof.
  assert (H : lines batch_column_gap ≠ [] ∧
              (if kIsRowMajor batch_column_gap then 3 else 1) = 1 ∧
              Forall (λ el, Z.of_nat (Size page_one_row)
                            ≤ tuple_key (base_rowid page_one_row) el)
                     (batch_tuples batch_column_gap) ∧
              forallb (admissible S754_nan) (batch_tuples batch_column_gap)
              = true ∧
              well_formed page_one_row).
  { split; [discriminate|]. split; [reflexivity|]. split.
    { repeat constructor; vm_compute; discriminate. }
    split; [reflexivity|].
    split; [done|]. split; [|done].
    intros [|[|i]] a b [=] [=]; subst; lia. }
  split; [exact H|].
  destruct H as (H1 & H2 & H3 & H4 & H5).
  exact (Push_appends_rows batch_column_gap S754_nan 3 page_one_row
           H1 H2 H3 H4 H5).
Defined.

(** The column-major batch [batch_column_gap], whose last tuple is in row
    4 and is dropped, leaves a page of one row with four rows: the row of
    the last tuple is the bound of the rows the hint asks for, not one of
    them. *)
Example Push_column_gap :
  Push batch_column_gap S754_nan 3 page_one_row
  = Ok (mkPage [0; 0; 1; 1; 1] [mkEntry 0 f32_1] 0, 1).
Proof. reflexivity. Qed.





(** * Meta information *)

(** ** Gather *)

Section gather.
Context {T : Type} (T_default : T).

(** The body of the inner loop of [Gather] for row [i] of the output. *)
#[local] Abbreviation copy in_ stride ridx i :=
  (λ (out : list T) (j : nat),
     match in_ !! Z.to_nat (wrap64 (ridx * stride + Z.of_nat j)) with
     | None => Err Undefined
     | Some x =>
         let pos := Z.to_nat (wrap64 (Z.of_nat i * stride + Z.of_nat j)) in
         if decide (pos < length out)%nat
         then Ok (<[pos := x]> out)
         else Err Undefined
     end).

(** The inner loop as far as the input reaches: the first [k] elements of
    a row copied behind the rows copied so far. *)
Lemma Gather_row_prefix (in_ : list T) (stride ridx : Z) (i : nat)
    (filled : list T) (m k : nat) :
  0 ≤ stride → 0 ≤ ridx →
  (k ≤ Z.to_nat stride)%nat →
  ridx * stride + Z.of_nat k ≤ Z.of_nat (length in_) →
  Z.of_nat (length in_) < 2 ^ 64 →
  Z.of_nat i * stride + stride < 2 ^ 64 →
  Z.of_nat (length filled) = Z.of_nat i * stride →
  (Z.to_nat stride ≤ m)%nat →
  foldlM (copy in_ stride ridx i) (filled ++ replicate m T_default) (seq 0 k)
  = Ok (filled ++ take k (drop (Z.to_nat (ridx * stride)) in_)
        ++ replicate (m - k) T_default).
Proof.
  intros Hs Hr Hk Hin Hfit Hifit Hfilled Hm.
  induction k as [|k IH].
  - cbn. by rewrite Nat.sub_0_r.
  - rewrite seq_S, foldlM_app, IH, bind_Ok by lia. cbn [Nat.add].
    rewrite foldlM_cons.
    assert (0 ≤ ridx * stride) by nia.
    rewrite !wrap64_small by nia.
    destruct (lookup_lt_is_Some_2 in_
                (Z.to_nat (ridx * stride + Z.of_nat k))) as [x Hx]; [lia|].
    rewrite Hx. cbn zeta.
    assert (Hlen : length (take k (drop (Z.to_nat (ridx * stride)) in_)) = k).
    { rewrite length_take, length_drop. lia. }
    rewrite decide_True
      by (rewrite !length_app, Hlen, length_replicate; lia).
    rewrite bind_Ok. cbn. f_equal.
    rewrite app_assoc.
    replace (Z.to_nat (Z.of_nat i * stride + Z.of_nat k))
      with (length (filled ++ take k (drop (Z.to_nat (ridx * stride)) in_)) + 0)%nat
      by (rewrite length_app, Hlen; lia).
    rewrite insert_app_r.
    replace (m - k)%nat with (S (m - S k)) by lia. cbn [replicate].
    rewrite <- app_assoc. f_equal.
    rewrite (take_S_r _ k x), <- app_assoc; [done|].
    rewrite lookup_drop, <- Hx. f_equal. lia.
Qed.

(** A row that reaches past the input: the inner loop reads outside. *)
Lemma Gather_row_outside (in_ : list T) (stride ridx : Z) (i : nat)
    (filled : list T) (m : nat) :
  0 ≤ ridx →
  Z.of_nat (length in_) < ridx * stride + stride →
  ridx * stride + stride < 2 ^ 64 →
  Z.of_nat i * stride + stride < 2 ^ 64 →
  Z.of_nat (length filled) = Z.of_nat i * stride →
  (Z.to_nat stride ≤ m)%nat →
  foldlM (copy in_ stride ridx i) (filled ++ replicate m T_default)
         (seq 0 (Z.to_nat stride))
  = Err Undefined.
Proof.
  intros Hr Hout Hrfit Hifit Hfilled Hm.
  assert (Hs : 0 < stride) by nia.
  set (j0 := Z.to_nat (Z.max 0 (Z.of_nat (length in_) - ridx * stride))).
  assert (Hj0 : (j0 < Z.to_nat stride)%nat) by lia.
  replace (Z.to_nat stride) with (j0 + S (Z.to_nat stride - S j0))%nat at 1
    by lia.
  rewrite seq_app, foldlM_app, Nat.add_0_l, <- cons_seq.
  destruct (decide (ridx * stride ≤ Z.of_nat (length in_))) as [Hle|Hgt].
  - rewrite (Gather_row_prefix in_ stride ridx i filled m j0)
      by (done || lia).
    rewrite bind_Ok, foldlM_cons.
    rewrite wrap64_small by nia.
    rewrite (proj2 (lookup_ge_None in_ _)) by lia. done.
  - assert (j0 = 0%nat) as -> by lia. cbn [seq]. rewrite foldlM_nil, bind_Ok.
    rewrite foldlM_cons.
    rewrite wrap64_small by nia.
    rewrite (proj2 (lookup_ge_None in_ _)) by lia. done.
Qed.

(** The outer loop over the first [k] rows, all of them within the
    input. *)
Lemma Gather_prefix (in_ : list T) (stride : Z) (ridxs : list Z) (k : nat) :
  0 ≤ stride →
  Z.of_nat (length in_) < 2 ^ 64 →
  Z.of_nat (length ridxs) * stride < 2 ^ 64 →
  (k ≤ length ridxs)%nat →
  Forall (λ ridx, 0 ≤ ridx ∧ ridx * stride + stride ≤ Z.of_nat (length in_))
         (take k ridxs) →
  foldlM (λ out i,
            foldlM (copy in_ stride (vec_get ridxs i) i) out
                   (seq 0 (Z.to_nat stride)))
         (replicate (Z.to_nat (Z.of_nat (length ridxs) * stride)) T_default)
         (seq 0 k)
  = Ok (mjoin (gathered_row in_ stride <$> take k ridxs)
        ++ replicate ((length ridxs - k) * Z.to_nat stride) T_default) ∧
  length (mjoin (gathered_row in_ stride <$> take k ridxs))
  = (k * Z.to_nat stride)%nat.
Proof.
  intros Hs Hfit Hout. induction k as [|k IH]; intros Hk Hidx.
  - split; [|done]. cbn. rewrite Nat.sub_0_r. do 2 f_equal.
    rewrite Z2Nat.inj_mul, Nat2Z.id by lia. done.
  - destruct (lookup_lt_is_Some_2 ridxs k ltac:(lia)) as [r Hr].
    rewrite (take_S_r _ _ _ Hr) in Hidx |- *.
    apply Forall_app in Hidx as [Hpre Hr'].
    apply Forall_singleton in Hr' as [Hr0 Hr1].
    destruct (IH ltac:(lia) Hpre) as [Hloop Hdone].
    assert (Hrow : length (gathered_row in_ stride r) = Z.to_nat stride).
    { unfold gathered_row. rewrite length_take, length_drop. nia. }
    split.
    + rewrite seq_S, foldlM_app, Hloop, bind_Ok. cbn [Nat.add].
      rewrite foldlM_cons.
      assert (Hget : vec_get ridxs k = r) by (unfold vec_get; by rewrite Hr).
      rewrite Hget.
      rewrite (Gather_row_prefix in_ stride r k _ _ (Z.to_nat stride));
        [| done | done | done | lia | done | nia | rewrite Hdone; nia | nia].
      rewrite bind_Ok. cbn. f_equal.
      rewrite fmap_app, join_app. cbn.
      rewrite app_nil_r, <- app_assoc. unfold gathered_row at 3.
      do 3 f_equal. nia.
    + rewrite fmap_app, join_app, length_app, Hdone. cbn.
      rewrite app_nil_r, Hrow. lia.
Qed.

Lemma Gather_unfold (in_ : list T) (ridxs : list Z) (stride : Z) :
  in_ ≠ [] →
  Z.of_nat (length ridxs) * stride < 2 ^ 64 → 0 ≤ stride →
  Gather T_default in_ ridxs stride
  = foldlM (λ out i,
              foldlM (copy in_ stride (vec_get ridxs i) i) out
                     (seq 0 (Z.to_nat stride)))
           (replicate (Z.to_nat (Z.of_nat (length ridxs) * stride)) T_default)
           (seq 0 (length ridxs)).
Proof.
  intros Hne Hout Hs. unfold Gather. destruct in_; [done|].
  by rewrite wrap64_small by nia.
Qed.

(** [Gather] on rows that lie within the input. *)
Lemma Gather_rows (in_ : list T) (stride : Z) (ridxs : list Z) :
  0 ≤ stride →
  Z.of_nat (length in_) < 2 ^ 64 →
  Z.of_nat (length ridxs) * stride < 2 ^ 64 →
  Forall (λ ridx, 0 ≤ ridx ∧ ridx * stride + stride ≤ Z.of_nat (length in_))
         ridxs →
  Gather T_default in_ ridxs stride
  = Ok (mjoin (gathered_row in_ stride <$> ridxs)).
Proof.
  intros Hs Hfit Hout Hidx.
  destruct (decide (in_ = [])) as [->|Hne].
  - cbn. f_equal. symmetry.
    rewrite (list_fmap_ext _ (λ _, []) ridxs), mjoin_nils; [done|].
    intros _ r _. unfold gathered_row. by rewrite drop_nil, take_nil.
  - rewrite Gather_unfold by done.
    destruct (Gather_prefix in_ stride ridxs (length ridxs)) as [-> _];
      [done | done | done | done | by rewrite firstn_all |].
    rewrite Nat.sub_diag, firstn_all. cbn. by rewrite app_nil_r.
Qed.

End gather.


Section gather_rows.
Context {T : Type} (T_default : T).

Lemma length_gathered_row (in_ : list T) (stride r : Z) :
  0 ≤ stride → 0 ≤ r → r * stride + stride ≤ Z.of_nat (length in_) →
  length (gathered_row in_ stride r) = Z.to_nat stride.
Proof.
  intros Hs Hr0 Hr1. unfold gathered_row. rewrite length_take, length_drop. nia.
Qed.

Lemma length_gathered_rows (in_ : list T) (stride : Z) (ridxs : list Z) :
  0 ≤ stride →
  Forall (λ ridx, 0 ≤ ridx ∧ ridx * stride + stride ≤ Z.of_nat (length in_))
         ridxs →
  length (mjoin (gathered_row in_ stride <$> ridxs))
  = (length ridxs * Z.to_nat stride)%nat.
Proof.
  intros Hs. induction 1 as [|r ridxs [Hr0 Hr1] _ IH]; [done|].
  rewrite fmap_cons.
  change (mjoin (gathered_row in_ stride r :: (gathered_row in_ stride <$> ridxs)))
    with (gathered_row in_ stride r ++ mjoin (gathered_row in_ stride <$> ridxs)).
  rewrite length_app, IH, length_gathered_row by done. cbn [length]. lia.
Qed.

(** Row [i] of the gathered rows within their concatenation. *)
Lemma gathered_rows_row (in_ : list T) (stride : Z) (ridxs : list Z)
    (i : nat) (r : Z) :
  0 ≤ stride →
  Forall (λ ridx, 0 ≤ ridx ∧ ridx * stride + stride ≤ Z.of_nat (length in_))
         ridxs →
  ridxs !! i = Some r →
  take (Z.to_nat stride)
       (drop (i * Z.to_nat stride) (mjoin (gathered_row in_ stride <$> ridxs)))
  = gathered_row in_ stride r.
Proof.
  intros Hs Hidx Hr.
  rewrite <- (take_drop_middle _ _ _ Hr) at 1.
  rewrite fmap_app, join_app. cbn.
  assert (Hpre : Forall (λ ridx, 0 ≤ ridx
                          ∧ ridx * stride + stride ≤ Z.of_nat (length in_))
                        (take i ridxs)) by by apply Forall_take.
  pose proof (length_gathered_rows _ _ _ Hs Hpre) as Hlen.
  rewrite length_take in Hlen.
  apply lookup_lt_Some in Hr as Hi.
  rewrite Nat.min_l in Hlen by lia.
  rewrite drop_app_length' by done.
  apply take_app_length'.
  rewrite Forall_lookup in Hidx. destruct (Hidx _ _ Hr).
  symmetry. by apply length_gathered_row.
Qed.

Lemma gathered_rows_all (in_ : list T) (stride : Z) (n : nat) :
  0 ≤ stride →
  mjoin (gathered_row in_ stride <$> (Z.of_nat <$> seq 0 n))
  = take (n * Z.to_nat stride) in_.
Proof.
  intros Hs. induction n as [|n IH]; [done|].
  rewrite seq_S, !fmap_app, join_app, IH. cbn. rewrite app_nil_r.
  unfold gathered_row.
  replace (Z.to_nat (Z.of_nat n * stride)) with (n * Z.to_nat stride)%nat
    by nia.
  rewrite take_take_drop. f_equal. lia.
Qed.

End gather_rows.

(** X16. [Gather] (data.cc:370-385) with [stride] values per row and every
    row index within the input returns, for each index of [ridxs] in order,
    the [stride] values of that row of [in_]: element [j] of output row [i]
    is element [j] of input row [ridxs[i]], and the output holds
    [length ridxs * stride] values.  Indices may repeat and come in any
    order. *)
Theorem Gather_selects_rows {T : Type} (T_default : T) (in_ : list T)
    (ridxs : list Z) (stride : Z) :
  0 ≤ stride →
  Z.of_nat (length in_) < 2 ^ 64 →
  Z.of_nat (length ridxs) * stride < 2 ^ 64 →
  Forall (λ ridx, 0 ≤ ridx ∧ ridx * stride + stride ≤ Z.of_nat (length in_))
         ridxs →
  ∃ out,
    Gather T_default in_ ridxs stride = Ok out ∧
    out = mjoin (gathered_row in_ stride <$> ridxs) ∧
    Z.of_nat (length out) = Z.of_nat (length ridxs) * stride ∧
    ∀ (i j : nat) (r : Z),
      ridxs !! i = Some r → Z.of_nat j < stride →
      out !! (i * Z.to_nat stride + j)%nat
      = in_ !! (Z.to_nat r * Z.to_nat stride + j)%nat.
Proof.
  intros Hs Hfit Hout Hidx. eexists. split; [by apply Gather_rows|].
  split; [done|]. split.
  - rewrite length_gathered_rows by done. lia.
  - intros i j r Hr Hj.
    rewrite <- lookup_drop.
    rewrite <- (lookup_take_lt _ (Z.to_nat stride)) by lia.
    rewrite (gathered_rows_row in_ stride ridxs i r) by done.
    unfold gathered_row. rewrite lookup_take_lt, lookup_drop by lia.
    rewrite Forall_lookup in Hidx. destruct (Hidx _ _ Hr).
    f_equal. nia.
Qed.

Lemma Gather_selects_rows_witness :
  (0 ≤ 2 ∧
   Z.of_nat (length [11; 12; 21; 22; 31; 32]) < 2 ^ 64 ∧
   Z.of_nat (length [2; 0; 2]) * 2 < 2 ^ 64 ∧
   Forall (λ ridx, 0 ≤ ridx
            ∧ ridx * 2 + 2 ≤ Z.of_nat (length [11; 12; 21; 22; 31; 32]))
          [2; 0; 2]) ∧
  ∃ out,
    Gather 0 [11; 12; 21; 22; 31; 32] [2; 0; 2] 2 = Ok out ∧
    out = mjoin (gathered_row [11; 12; 21; 22; 31; 32] 2 <$> [2; 0; 2]) ∧
    Z.of_nat (length out) = Z.of_nat (length [2; 0; 2]) * 2 ∧
    ∀ (i j : nat) (r : Z),
      [2; 0; 2] !! i = Some r → Z.of_nat j < 2 →
      out !! (i * Z.to_nat 2 + j)%nat
      = [11; 12; 21; 22; 31; 32] !! (Z.to_nat r * Z.to_nat 2 + j)%nat.
Proof.
  assert (H : 0 ≤ 2 ∧
              Z.of_nat (length [11; 12; 21; 22; 31; 32]) < 2 ^ 64 ∧
              Z.of_nat (length [2; 0; 2]) * 2 < 2 ^ 64 ∧
              Forall (λ ridx, 0 ≤ ridx
                       ∧ ridx * 2 + 2
                         ≤ Z.of_nat (length [11; 12; 21; 22; 31; 32]))
                     [2; 0; 2]).
  { cbn. repeat split; try lia. repeat constructor; lia. }
  split; [exact H|].
  destruct H as (H1 & H2 & H3 & H4).
  exact (Gather_selects_rows 0 [11; 12; 21; 22; 31; 32] [2; 0; 2] 2
           H1 H2 H3 H4).
Defined.

(** X17. [Gather] (data.cc:370-385) does not check the row indices.  On a
    non-empty input, the first index whose row reaches past the end of
    [in_] makes the loop read outside the vector: the call has no defined
    result, whatever the indices after it are. *)
Theorem Gather_reads_outside {T : Type} (T_default : T) (in_ : list T)
    (ridxs : list Z) (stride : Z) (k : nat) (r : Z) :
  in_ ≠ [] →
  Z.of_nat (length in_) < 2 ^ 64 →
  Z.of_nat (length ridxs) * stride < 2 ^ 64 →
  Forall (λ ridx, 0 ≤ ridx ∧ ridx * stride + stride ≤ Z.of_nat (length in_))
         (take k ridxs) →
  ridxs !! k = Some r →
  0 ≤ r →
  Z.of_nat (length in_) < r * stride + stride →
  r * stride + stride < 2 ^ 64 →
  Gather T_default in_ ridxs stride = Err Undefined.
Proof.
  intros Hne Hfit Hout Hpre Hr Hr0 Hpast Hrfit.
  assert (Hs : 0 < stride) by nia.
  apply lookup_lt_Some in Hr as Hk.
  rewrite Gather_unfold by (done || lia).
  replace (length ridxs) with (k + S (length ridxs - S k))%nat at 2 by lia.
  rewrite seq_app, foldlM_app, Nat.add_0_l, <- cons_seq.
  destruct (Gather_prefix T_default in_ stride ridxs k) as [-> Hlen];
    [lia | done | done | lia | done |].
  rewrite bind_Ok, foldlM_cons.
  assert (Hget : vec_get ridxs k = r) by (unfold vec_get; by rewrite Hr).
  rewrite Hget.
  rewrite (Gather_row_outside T_default in_ stride r k);
    [done | done | done | done | nia | rewrite Hlen; nia | nia].
Qed.

Lemma Gather_reads_outside_witness :
  ([11; 12; 21; 22] ≠ [] ∧
   Z.of_nat (length [11; 12; 21; 22]) < 2 ^ 64 ∧
   Z.of_nat (length [1; 2; 0]) * 2 < 2 ^ 64 ∧
   Forall (λ ridx, 0 ≤ ridx
            ∧ ridx * 2 + 2 ≤ Z.of_nat (length [11; 12; 21; 22]))
          (take 1 [1; 2; 0]) ∧
   [1; 2; 0] !! 1%nat = Some 2 ∧
   0 ≤ 2 ∧
   Z.of_nat (length [11; 12; 21; 22]) < 2 * 2 + 2 ∧
   2 * 2 + 2 < 2 ^ 64) ∧
  Gather 0 [11; 12; 21; 22] [1; 2; 0] 2 = Err Undefined.
Proof.
  assert (H : [11; 12; 21; 22] ≠ [] ∧
              Z.of_nat (length [11; 12; 21; 22]) < 2 ^ 64 ∧
              Z.of_nat (length [1; 2; 0]) * 2 < 2 ^ 64 ∧
              Forall (λ ridx, 0 ≤ ridx
                       ∧ ridx * 2 + 2 ≤ Z.of_nat (length [11; 12; 21; 22]))
                     (take 1 [1; 2; 0]) ∧
              [1; 2; 0] !! 1%nat = Some 2 ∧
              0 ≤ 2 ∧
              Z.of_nat (length [11; 12; 21; 22]) < 2 * 2 + 2 ∧
              2 * 2 + 2 < 2 ^ 64).
  { cbn. repeat split; try lia; try done. repeat constructor; lia. }
  split; [exact H|].
  destruct H as (H1 & H2 & H3 & H4 & H5 & H6 & H7 & H8).
  exact (Gather_reads_outside 0 [11; 12; 21; 22] [1; 2; 0] 2 1 2
           H1 H2 H3 H4 H5 H6 H7 H8).
Defined.

(** X18. Gathering from a gathered vector is gathering once with the
    composed indices.  If [ridxs1] selects rows of [in_] and [ridxs2]
    selects rows of that result, [Gather] applied twice returns what one
    call on [in_] with the indices [ridxs1[i]] for [i] in [ridxs2]
    returns. *)
Theorem Gather_compose {T : Type} (T_default : T) (in_ : list T)
    (ridxs1 ridxs2 : list Z) (stride : Z) :
  0 ≤ stride →
  Z.of_nat (length in_) < 2 ^ 64 →
  Z.of_nat (length ridxs1) * stride < 2 ^ 64 →
  Z.of_nat (length ridxs2) * stride < 2 ^ 64 →
  Forall (λ ridx, 0 ≤ ridx ∧ ridx * stride + stride ≤ Z.of_nat (length in_))
         ridxs1 →
  Forall (λ i, 0 ≤ i < Z.of_nat (length ridxs1)) ridxs2 →
  ∃ out1 out2,
    Gather T_default in_ ridxs1 stride = Ok out1 ∧
    Gather T_default out1 ridxs2 stride = Ok out2 ∧
    Gather T_default in_ ((λ i, vec_get ridxs1 (Z.to_nat i)) <$> ridxs2) stride
    = Ok out2.
Proof.
  intros Hs Hfit Hout1 Hout2 Hidx1 Hidx2.
  pose proof (length_gathered_rows in_ stride ridxs1 Hs Hidx1) as Hlen.
  eexists _, _. split; [by apply Gather_rows|]. split.
  - apply Gather_rows; [done | rewrite Hlen; nia | done |].
    eapply Forall_impl; [exact Hidx2|]. intros i Hi. cbn beta in *.
    rewrite Hlen. nia.
  - rewrite Gather_rows; [| done | done | by rewrite length_fmap |].
    + f_equal. rewrite <- list_fmap_compose. f_equal.
      apply Forall_fmap_ext. rewrite Forall_forall in Hidx2 |- *.
      intros i Hi%Hidx2. cbn.
      destruct (lookup_lt_is_Some_2 ridxs1 (Z.to_nat i) ltac:(lia))
        as [r Hr].
      unfold vec_get. rewrite Hr. cbn.
      rewrite <- (gathered_rows_row in_ stride ridxs1 (Z.to_nat i) r)
        by done.
      symmetry. unfold gathered_row at 1. do 2 f_equal.
      rewrite Z2Nat.inj_mul; lia.
    + apply Forall_fmap. rewrite Forall_forall in Hidx2 |- *.
      intros i Hi%Hidx2. cbn.
      destruct (lookup_lt_is_Some_2 ridxs1 (Z.to_nat i) ltac:(lia))
        as [r Hr].
      unfold vec_get. rewrite Hr. cbn.
      rewrite Forall_lookup in Hidx1. exact (Hidx1 _ _ Hr).
Qed.

Lemma Gather_compose_witness :
  (0 ≤ 2 ∧
   Z.of_nat (length [11; 12; 21; 22; 31; 32]) < 2 ^ 64 ∧
   Z.of_nat (length [2; 0]) * 2 < 2 ^ 64 ∧
   Z.of_nat (length [1; 1; 0]) * 2 < 2 ^ 64 ∧
   Forall (λ ridx, 0 ≤ ridx
            ∧ ridx * 2 + 2 ≤ Z.of_nat (length [11; 12; 21; 22; 31; 32]))
          [2; 0] ∧
   Forall (λ i, 0 ≤ i < Z.of_nat (length [2; 0])) [1; 1; 0]) ∧
  ∃ out1 out2,
    Gather 0 [11; 12; 21; 22; 31; 32] [2; 0] 2 = Ok out1 ∧
    Gather 0 out1 [1; 1; 0] 2 = Ok out2 ∧
    Gather 0 [11; 12; 21; 22; 31; 32]
           ((λ i, vec_get [2; 0] (Z.to_nat i)) <$> [1; 1; 0]) 2
    = Ok out2.
Proof.
  assert (H : 0 ≤ 2 ∧
              Z.of_nat (length [11; 12; 21; 22; 31; 32]) < 2 ^ 64 ∧
              Z.of_nat (length [2; 0]) * 2 < 2 ^ 64 ∧
              Z.of_nat (length [1; 1; 0]) * 2 < 2 ^ 64 ∧
              Forall (λ ridx, 0 ≤ ridx
                       ∧ ridx * 2 + 2
                         ≤ Z.of_nat (length [11; 12; 21; 22; 31; 32]))
                     [2; 0] ∧
              Forall (λ i, 0 ≤ i < Z.of_nat (length [2; 0])) [1; 1; 0]).
  { cbn. repeat split; try lia; repeat constructor; lia. }
  split; [exact H|].
  destruct H as (H1 & H2 & H3 & H4 & H5 & H6).
  exact (Gather_compose 0 [11; 12; 21; 22; 31; 32] [2; 0] [1; 1; 0] 2
           H1 H2 H3 H4 H5 H6).
Defined.

(** X19. Gathering every row in order returns the input.  For an input
    of [n] rows of [stride] values, [Gather] with the indices
    [0, 1, ..., n - 1] returns [in_] itself. *)
Theorem Gather_all_rows {T : Type} (T_default : T) (in_ : list T)
    (stride : Z) (n : nat) :
  0 ≤ stride →
  Z.of_nat (length in_) < 2 ^ 64 →
  Z.of_nat (length in_) = Z.of_nat n * stride →
  Gather T_default in_ (Z.of_nat <$> seq 0 n) stride = Ok in_.
Proof.
  intros Hs Hfit Hlen.
  rewrite Gather_rows; [| done | done | rewrite length_fmap, length_seq; lia |].
  - rewrite gathered_rows_all by done. f_equal. apply take_ge. nia.
  - apply Forall_fmap, Forall_forall. intros i [_ Hi]%elem_of_seq. cbn. nia.
Qed.

Lemma Gather_all_rows_witness :
  (0 ≤ 2 ∧
   Z.of_nat (length [11; 12; 21; 22; 31; 32]) < 2 ^ 64 ∧
   Z.of_nat (length [11; 12; 21; 22; 31; 32]) = Z.of_nat 3 * 2) ∧
  Gather 0 [11; 12; 21; 22; 31; 32] (Z.of_nat <$> seq 0 3) 2
  = Ok [11; 12; 21; 22; 31; 32].
Proof.
  assert (H : 0 ≤ 2 ∧
              Z.of_nat (length [11; 12; 21; 22; 31; 32]) < 2 ^ 64 ∧
              Z.of_nat (length [11; 12; 21; 22; 31; 32]) = Z.of_nat 3 * 2).
  { cbn. repeat split; lia. }
  split; [exact H|].
  destruct H as (H1 & H2 & H3).
  exact (Gather_all_rows 0 [11; 12; 21; 22; 31; 32] 2 3 H1 H2 H3).
Defined.


(** ** Feature information *)

Lemma bind_Done {A B} (f : A → checked B) (a : A) : Done a ≫= f = f a.
Proof. reflexivity. Qed.

Lemma bind_Done_inv {A B} (f : A → checked B) (m : checked A) (b : B) :
  m ≫= f = Done b → ∃ a, m = Done a ∧ f a = Done b.
Proof. destruct m as [a|e]; [eauto | discriminate]. Qed.

Lemma foldl_Fatal {A B} (f : A → B → checked A) e l :
  foldl (λ r x, r ≫= λ a, f a x) (Fatal e) l = Fatal e.
Proof. induction l as [|x l IH]; [done | exact IH]. Qed.

Lemma for_each_cons {A B} (f : A → B → checked A) a x l :
  for_each f a (x :: l) = f a x ≫= λ a', for_each f a' l.
Proof.
  unfold for_each. cbn [foldl]. rewrite bind_Done.
  destruct (f a x) as [a'|e]; [done | apply foldl_Fatal].
Qed.

Lemma feature_type_name_cases (elem : string) :
  feature_type_name elem
  ↔ elem = "int" ∨ elem = "float" ∨ elem = "i" ∨ elem = "q" ∨ elem = "c".
Proof.
  unfold feature_type_name. rewrite !elem_of_cons, elem_of_nil. tauto.
Qed.

(** The result of [LoadFeatureType]. *)
Lemma LoadFeatureType_result (type_names : list string)
    (types : list FeatureType) :
  LoadFeatureType type_names types
  = if decide (Forall feature_type_name type_names)
    then Done (type_of_name <$> type_names, bool_decide ("c" ∈ type_names))
    else Fatal FeatureTypeUnknown.
Proof.
  unfold LoadFeatureType. cbn zeta.
  match goal with |- for_each ?F _ _ = _ => set (body := F) end.
  assert (Hloop : ∀ types has_cat,
            for_each body (types, has_cat) type_names
            = if decide (Forall feature_type_name type_names)
              then Done (types ++ (type_of_name <$> type_names),
                         has_cat || bool_decide ("c" ∈ type_names))
              else Fatal FeatureTypeUnknown).
  { induction type_names as [|elem names IH]; intros ts has_cat.
    - rewrite decide_True by constructor. cbn.
      by rewrite app_nil_r, orb_false_r.
    - rewrite for_each_cons.
      assert (Hcons : ∀ t b,
                body (ts, has_cat) elem = Done (ts ++ [t], has_cat || b) →
                type_of_name elem = t →
                b = bool_decide (elem = "c") →
                feature_type_name elem →
                body (ts, has_cat) elem ≫= (λ a', for_each body a' names)
                = if decide (Forall feature_type_name (elem :: names))
                  then Done (ts ++ (type_of_name <$> elem :: names),
                             has_cat || bool_decide ("c" ∈ elem :: names))
                  else Fatal FeatureTypeUnknown).
      { intros t b Hbody Ht Hb Hname. rewrite Hbody, bind_Done, IH.
        destruct (decide (Forall feature_type_name names)) as [Hall|Hnot].
        - rewrite decide_True by by constructor.
          rewrite fmap_cons, Ht, <- app_assoc. cbn [app]. do 2 f_equal.
          rewrite <- orb_assoc. f_equal. subst b.
          destruct (decide (elem = "c")) as [->|Hne].
          + rewrite (bool_decide_eq_true_2 ("c" = "c")) by done.
            rewrite (bool_decide_eq_true_2 ("c" ∈ "c" :: names))
              by (apply elem_of_cons; by left).
            done.
          + rewrite (bool_decide_eq_false_2 (elem = "c")) by done.
            cbn [orb]. apply bool_decide_ext.
            rewrite elem_of_cons.
            split; [tauto | intros [?|?]; [congruence | done]].
        - rewrite decide_False; [done|].
          intros Hall. apply Hnot. by apply Forall_cons in Hall as [_ ?]. }
      destruct (decide (elem = "int")) as [->|?].
      { apply (Hcons kNumerical false); [by rewrite orb_false_r | done..|].
        apply feature_type_name_cases. tauto. }
      destruct (decide (elem = "float")) as [->|?].
      { apply (Hcons kNumerical false); [by rewrite orb_false_r | done..|].
        apply feature_type_name_cases. tauto. }
      destruct (decide (elem = "i")) as [->|?].
      { apply (Hcons kNumerical false); [by rewrite orb_false_r | done..|].
        apply feature_type_name_cases. tauto. }
      destruct (decide (elem = "q")) as [->|?].
      { apply (Hcons kNumerical false); [by rewrite orb_false_r | done..|].
        apply feature_type_name_cases. tauto. }
      destruct (decide (elem = "c")) as [->|?].
      { apply (Hcons kCategorical true); [by rewrite orb_true_r | done..|].
        apply feature_type_name_cases. tauto. }
      assert (Hbody : body (ts, has_cat) elem = Fatal FeatureTypeUnknown).
      { unfold body. cbn beta iota. by rewrite !decide_False by done. }
      rewrite Hbody.
      rewrite decide_False; [done|].
      intros [Hname _]%Forall_cons.
      apply feature_type_name_cases in Hname. tauto. }
  rewrite Hloop. by destruct (decide (Forall feature_type_name type_names)).
Qed.

(** X20. [LoadFeatureType] (data.cc:278-299) succeeds exactly when every
    name is one of [int], [float], [i], [q] and [c], and fails with the
    fatal error otherwise.  On success [*types] holds one type per name, in
    order, categorical for [c] and numerical for the other four, whatever
    it held before, and the returned flag tells whether some name is
    [c]. *)
Theorem LoadFeatureType_types (type_names : list string)
    (types : list FeatureType) :
  LoadFeatureType type_names types
  = if decide (Forall (λ elem, elem ∈ ["int"; "float"; "i"; "q"; "c"])
                      type_names)
    then Done ((λ elem, if decide (elem = "c") then kCategorical
                        else kNumerical) <$> type_names,
               bool_decide ("c" ∈ type_names))
    else Fatal FeatureTypeUnknown.
Proof. apply LoadFeatureType_result. Qed.


Lemma copy_then_resize (names out : list string) :
  list_inserts 0 names (resize (length names) EmptyString out) = names.
Proof.
  rewrite <- (app_nil_r (resize _ _ _)), list_inserts_0_r, app_nil_r;
    [done | by rewrite length_resize].
Qed.

(** [SetFeatureInfo] on data that is not split by columns, for an array
    that holds at least [size] strings. *)
Lemma SetFeatureInfo_row_split {Tensor : Type}
    (IsColumnSplit : MetaInfo Tensor → bool)
    (AllgatherStrings : list string → checked (list string)) (GetRank : Z)
    (key : string) (strs : list string) (size : Z) (this : MetaInfo Tensor) :
  IsColumnSplit this = false →
  size ≤ Z.of_nat (length strs) →
  SetFeatureInfo IsColumnSplit AllgatherStrings GetRank key (Some strs) size this
  = let names := take (Z.to_nat size) strs in
    if decide (size ≠ 0 ∧ num_col_ this ≠ 0 ∧ size ≠ num_col_ this) then
      Fatal FeatureInfoLength
    else if decide (key = "feature_type") then
      if decide (Forall feature_type_name names) then
        Done (mkMetaInfo (num_row_ this) (num_col_ this) (labels this)
                (weights_ this) (labels_lower_bound_ this)
                (labels_upper_bound_ this) (base_margin_ this)
                (group_ptr_ this) (feature_names this) names
                (type_of_name <$> names) (bool_decide ("c" ∈ names))
                (feature_weights this))
      else Fatal FeatureTypeUnknown
    else if decide (key = "feature_name") then
      Done (mkMetaInfo (num_row_ this) (num_col_ this) (labels this)
              (weights_ this) (labels_lower_bound_ this)
              (labels_upper_bound_ this) (base_margin_ this)
              (group_ptr_ this) names (feature_type_names this)
              (feature_types this) (has_categorical_ this)
              (feature_weights this))
    else Fatal FeatureInfoUnknown.
Proof.
  intros Hsplit Hsize. unfold SetFeatureInfo, copy_strings, gather_columns.
  cbn zeta. rewrite Hsplit. rewrite (decide_True (P := size ≤ _)) by done.
  destruct (decide (size ≠ 0 ∧ num_col_ this ≠ 0 ∧ false = false))
    as [(H0 & Hc & _)|Hno].
  - destruct (decide (size = num_col_ this)) as [Heq|Hne].
    + rewrite (decide_False (P := size ≠ 0 ∧ _ ∧ _)) by tauto.
      rewrite bind_Done.
      destruct (decide (key = "feature_type")); [|done].
      rewrite !bind_Done, LoadFeatureType_result.
      by destruct (decide (Forall feature_type_name _)).
    + by rewrite (decide_True (P := size ≠ 0 ∧ _ ∧ _)) by tauto.
  - rewrite (decide_False (P := size ≠ 0 ∧ _ ∧ _)) by tauto.
    rewrite bind_Done.
    destruct (decide (key = "feature_type")); [|done].
    rewrite !bind_Done, LoadFeatureType_result.
    by destruct (decide (Forall feature_type_name _)).
Qed.

(** X21. A successful [SetFeatureInfo] (data.cc:654-694) on data that is
    not split by columns is read back by [GetFeatureInfo]
    (data.cc:696-707): the same key returns the [size] strings that were
    set, whatever the output vector held, and any other field reads as
    before.  Setting [feature_type] also loads one feature type per name
    and the categorical flag; the number of columns is not changed. *)
Theorem SetFeatureInfo_then_GetFeatureInfo {Tensor : Type}
    (IsColumnSplit : MetaInfo Tensor → bool)
    (AllgatherStrings : list string → checked (list string)) (GetRank : Z)
    (key : string) (strs : list string) (size : Z)
    (this this' : MetaInfo Tensor) (out : list string) :
  IsColumnSplit this = false →
  0 ≤ size →
  SetFeatureInfo IsColumnSplit AllgatherStrings GetRank key (Some strs) size this
  = Done this' →
  let names := take (Z.to_nat size) strs in
  Z.of_nat (length names) = size ∧
  GetFeatureInfo key out this' = Done names ∧
  (∀ field, field ≠ key →
     GetFeatureInfo field out this' = GetFeatureInfo field out this) ∧
  (key = "feature_type" →
     feature_types this' = type_of_name <$> names ∧
     has_categorical_ this' = bool_decide ("c" ∈ names)) ∧
  num_col_ this' = num_col_ this.
Proof.
  intros Hsplit Hsize Hset names.
  assert (Hfit : size ≤ Z.of_nat (length strs)).
  { destruct (decide (size ≤ Z.of_nat (length strs))) as [|Hgt]; [done|].
    exfalso. revert Hset. unfold SetFeatureInfo, copy_strings. cbn zeta.
    rewrite Hsplit, (decide_False (P := size ≤ _)) by done.
    destruct (decide (_ ∧ _ ∧ _)) as [|]; [destruct (decide (size = _))|];
      cbn; try done; repeat (destruct (decide (key = _))); done. }
  rewrite SetFeatureInfo_row_split in Hset by done. cbn zeta in Hset.
  fold names in Hset.
  split; [unfold names; rewrite length_take; lia|].
  destruct (decide (_ ∧ _ ∧ _)); [done|].
  destruct (decide (key = "feature_type")) as [->|Hnt].
  - destruct (decide (Forall feature_type_name names)); [|done].
    injection Hset as <-. cbn. unfold GetFeatureInfo. cbn.
    rewrite copy_then_resize. repeat split; try done.
    intros field Hfield. by destruct (decide (field = "feature_type")).
  - destruct (decide (key = "feature_name")) as [->|Hnn]; [|done].
    injection Hset as <-. unfold GetFeatureInfo.
    cbn [feature_names feature_type_names num_col_].
    rewrite (decide_False (P := "feature_name" = "feature_type")) by done.
    rewrite (decide_True (P := "feature_name" = "feature_name")) by done.
    rewrite copy_then_resize.
    split; [done|]. split; [|done].
    intros field Hfield.
    destruct (decide (field = "feature_type")); [done|].
    by destruct (decide (field = "feature_name")).
Qed.

Lemma SetFeatureInfo_then_GetFeatureInfo_witness :
  ((λ _ : MetaInfo (list Z), false) meta_two_columns = false ∧
   0 ≤ 2 ∧
   SetFeatureInfo (λ _, false) (λ l, Done l) 0 "feature_type"
                  (Some ["q"; "c"; "int"]) 2 meta_two_columns
   = Done meta_two_types) ∧
  let names := take (Z.to_nat 2) ["q"; "c"; "int"] in
  Z.of_nat (length names) = 2 ∧
  GetFeatureInfo "feature_type" ["old"] meta_two_types = Done names ∧
  (∀ field, field ≠ "feature_type" →
     GetFeatureInfo field ["old"] meta_two_types
     = GetFeatureInfo field ["old"] meta_two_columns) ∧
  ("feature_type" = "feature_type" →
     feature_types meta_two_types = type_of_name <$> names ∧
     has_categorical_ meta_two_types = bool_decide ("c" ∈ names)) ∧
  num_col_ meta_two_types = num_col_ meta_two_columns.
Proof.
  assert (H : (λ _ : MetaInfo (list Z), false) meta_two_columns = false ∧
              0 ≤ 2 ∧
              SetFeatureInfo (λ _, false) (λ l, Done l) 0 "feature_type"
                             (Some ["q"; "c"; "int"]) 2 meta_two_columns
              = Done meta_two_types).
  { split; [reflexivity|]. split; [lia | reflexivity]. }
  split; [exact H|].
  destruct H as (H1 & H2 & H3).
  exact (SetFeatureInfo_then_GetFeatureInfo (λ _, false) (λ l, Done l) 0
           "feature_type" ["q"; "c"; "int"] 2 meta_two_columns
           meta_two_types ["old"] H1 H2 H3).
Defined.

(** X22. On data that is not split by columns, [SetFeatureInfo]
    (data.cc:654-694) with an array of at least [size] strings fails in
    exactly three cases: [size], the number of columns and their
    difference are all non-zero; the key is neither [feature_type] nor
    [feature_name]; or the key is [feature_type] and one of the [size]
    names is not a feature type name.  An empty list, and any list while
    the number of columns is still 0, pass the length check. *)
Theorem SetFeatureInfo_fails_iff {Tensor : Type}
    (IsColumnSplit : MetaInfo Tensor → bool)
    (AllgatherStrings : list string → checked (list string)) (GetRank : Z)
    (key : string) (strs : list string) (size : Z) (this : MetaInfo Tensor) :
  IsColumnSplit this = false →
  size ≤ Z.of_nat (length strs) →
  is_Fatal (SetFeatureInfo IsColumnSplit AllgatherStrings GetRank key
                           (Some strs) size this)
  ↔ (size ≠ 0 ∧ num_col_ this ≠ 0 ∧ size ≠ num_col_ this)
    ∨ (key ≠ "feature_type" ∧ key ≠ "feature_name")
    ∨ (key = "feature_type"
       ∧ ¬ Forall feature_type_name (take (Z.to_nat size) strs)).
Proof.
  intros Hsplit Hsize. rewrite SetFeatureInfo_row_split by done. cbn zeta.
  destruct (decide (_ ∧ _ ∧ _)) as [|Hlen]; [cbn; tauto|].
  destruct (decide (key = "feature_type")) as [->|Hnt].
  - destruct (decide (Forall feature_type_name _)); cbn; [|tauto].
    split; [done|]. intros [?|[[? _]|[_ ?]]]; done.
  - destruct (decide (key = "feature_name")) as [->|Hnn]; cbn; [|tauto].
    split; [done|]. intros [?|[[_ ?]|[? _]]]; done.
Qed.

Lemma SetFeatureInfo_fails_iff_witness :
  ((λ _ : MetaInfo (list Z), false) meta_two_columns = false ∧
   3 ≤ Z.of_nat (length ["a"; "b"; "c"])) ∧
  (is_Fatal (SetFeatureInfo (λ _, false) (λ l, Done l) 0 "feature_name"
                            (Some ["a"; "b"; "c"]) 3 meta_two_columns)
   ↔ (3 ≠ 0 ∧ num_col_ meta_two_columns ≠ 0 ∧ 3 ≠ num_col_ meta_two_columns)
     ∨ ("feature_name" ≠ "feature_type" ∧ "feature_name" ≠ "feature_name")
     ∨ ("feature_name" = "feature_type"
        ∧ ¬ Forall feature_type_name (take (Z.to_nat 3) ["a"; "b"; "c"]))).
Proof.
  assert (H : (λ _ : MetaInfo (list Z), false) meta_two_columns = false ∧
              3 ≤ Z.of_nat (length ["a"; "b"; "c"])).
  { split; [reflexivity | cbn; lia]. }
  split; [exact H|].
  destruct H as (H1 & H2).
  exact (SetFeatureInfo_fails_iff (λ _, false) (λ l, Done l) 0
           "feature_name" ["a"; "b"; "c"] 3 meta_two_columns H1 H2).
Defined.

(** X23. Whenever [SetFeatureInfo] (data.cc:654-694) succeeds, the key
    is one of the two known ones and the list stored for it has a
    consistent length.  With the data split by columns the gathered list
    has exactly [num_col_] entries.  Otherwise it has [size] entries, and
    [size] is 0, or the number of columns is 0, or the two are equal.
    After [feature_type] there is one feature type per stored name. *)
Theorem SetFeatureInfo_names_length {Tensor : Type}
    (IsColumnSplit : MetaInfo Tensor → bool)
    (AllgatherStrings : list string → checked (list string)) (GetRank : Z)
    (key : string) (info : option (list string)) (size : Z)
    (this this' : MetaInfo Tensor) :
  0 ≤ size →
  SetFeatureInfo IsColumnSplit AllgatherStrings GetRank key info size this
  = Done this' →
  (key = "feature_type" ∨ key = "feature_name") ∧
  let names := if decide (key = "feature_type")
               then feature_type_names this' else feature_names this' in
  (if IsColumnSplit this
   then Z.of_nat (length names) = num_col_ this
   else Z.of_nat (length names) = size
        ∧ (size = 0 ∨ num_col_ this = 0 ∨ size = num_col_ this)) ∧
  (key = "feature_type" → length (feature_types this') = length names).
Proof.
  intros Hsize Hset. unfold SetFeatureInfo in Hset. cbn zeta in Hset.
  apply bind_Done_inv in Hset as ([] & Hcheck & Hset).
  assert (Hcopy : ∀ names, copy_strings info size = Done names →
            Z.of_nat (length names) = size).
  { intros names. unfold copy_strings. destruct info as [strs|].
    - destruct (decide (size ≤ _)); [|done]. intros [= <-].
      rewrite length_take. lia.
    - destruct (decide (size = 0)) as [->|]; [|done]. by intros [= <-]. }
  assert (Hgather : ∀ inputs names,
            gather_columns AllgatherStrings (IsColumnSplit this)
                           (num_col_ this) inputs = Done names →
            if IsColumnSplit this
            then Z.of_nat (length names) = num_col_ this
            else names = inputs).
  { intros inputs names. unfold gather_columns.
    destruct (IsColumnSplit this); [|by intros [= <-]].
    intros (result & _ & Hres)%bind_Done_inv.
    destruct (decide (Z.of_nat _ = num_col_ this)); [|done].
    by injection Hres as <-. }
  assert (Hrow : IsColumnSplit this = false →
            size = 0 ∨ num_col_ this = 0 ∨ size = num_col_ this).
  { intros Hsplit. rewrite Hsplit in Hcheck.
    destruct (decide (_ ∧ _ ∧ _)) as [|Hno]; [|].
    - destruct (decide (size = num_col_ this)); [tauto | done].
    - destruct (decide (size = 0)); [tauto|].
      destruct (decide (num_col_ this = 0)); tauto. }
  destruct (decide (key = "feature_type")) as [->|Hnt].
  - split; [by left|]. cbn zeta.
    apply bind_Done_inv in Hset as (strs & Hstrs & Hset).
    apply bind_Done_inv in Hset as (names & Hnames & Hset).
    apply bind_Done_inv in Hset as ([types has_cat] & Hload & Hset).
    injection Hset as <-. cbn.
    apply Hcopy in Hstrs. apply Hgather in Hnames.
    rewrite LoadFeatureType_result in Hload.
    destruct (decide (Forall feature_type_name names)); [|done].
    injection Hload as <- <-. split; [|by rewrite length_fmap].
    destruct (IsColumnSplit this); [done | subst names; auto].
  - destruct (decide (key = "feature_name")) as [->|Hnn]; [|done].
    split; [by right|]. cbn zeta.
    apply bind_Done_inv in Hset as (strs & Hstrs & Hset).
    apply bind_Done_inv in Hset as (names & Hnames & Hset).
    injection Hset as <-. cbn.
    apply Hgather in Hnames. split; [|done].
    destruct (IsColumnSplit this); [done|].
    subst names. apply Hcopy in Hstrs. auto.
Qed.

Lemma SetFeatureInfo_names_length_witness :
  (0 ≤ 1 ∧
   SetFeatureInfo (λ _ : MetaInfo (list Z), true) (λ l, Done (l ++ l)) 0
                  "feature_name" (Some ["a"]) 1 meta_two_columns
   = Done meta_two_names) ∧
  ("feature_name" = "feature_type" ∨ "feature_name" = "feature_name") ∧
  let names := if decide ("feature_name" = "feature_type")
               then feature_type_names meta_two_names
               else feature_names meta_two_names in
  (if (λ _ : MetaInfo (list Z), true) meta_two_columns
   then Z.of_nat (length names) = num_col_ meta_two_columns
   else Z.of_nat (length names) = 1
        ∧ (1 = 0 ∨ num_col_ meta_two_columns = 0
           ∨ 1 = num_col_ meta_two_columns)) ∧
  ("feature_name" = "feature_type" →
   length (feature_types meta_two_names) = length names).
Proof.
  assert (H : 0 ≤ 1 ∧
              SetFeatureInfo (λ _ : MetaInfo (list Z), true)
                             (λ l, Done (l ++ l)) 0
                             "feature_name" (Some ["a"]) 1 meta_two_columns
              = Done meta_two_names).
  { split; [lia | reflexivity]. }
  split; [exact H|].
  destruct H as (H1 & H2).
  exact (SetFeatureInfo_names_length (λ _, true) (λ l, Done (l ++ l)) 0
           "feature_name" (Some ["a"]) 1 meta_two_columns meta_two_names
           H1 H2).
Defined.


(** ** Extend *)

(** The loop of [Extend] over the copied group pointers after [k]
    steps. *)
Lemma shift_group_ptr_prefix (this_back : Z) (group_ptr : list Z) (k : nat) :
  (k ≤ length group_ptr - 1)%nat →
  foldl (λ group_ptr i,
           <[i := wrap32 (vec_get group_ptr i + this_back)]> group_ptr)
        group_ptr (seq 1 k)
  = take 1 group_ptr
    ++ ((λ x, wrap32 (x + this_back)) <$> take k (drop 1 group_ptr))
    ++ drop (S k) group_ptr.
Proof.
  induction k as [|k IH]; intros Hk.
  - cbn [seq foldl]. rewrite take_0. cbn [fmap list_fmap app].
    by rewrite take_drop.
  - rewrite seq_S, foldl_app, IH by lia. cbn [foldl Nat.add].
    destruct (lookup_lt_is_Some_2 group_ptr (S k) ltac:(lia)) as [x Hx].
    assert (Hhead : length (take 1 group_ptr) = 1%nat)
      by (rewrite length_take; lia).
    assert (Hmid : length ((λ x, wrap32 (x + this_back))
                             <$> take k (drop 1 group_ptr)) = k)
      by (rewrite length_fmap, length_take, length_drop; lia).
    assert (Hget : vec_get (take 1 group_ptr
                            ++ ((λ x, wrap32 (x + this_back))
                                  <$> take k (drop 1 group_ptr))
                            ++ drop (S k) group_ptr) (S k) = x).
    { unfold vec_get.
      rewrite lookup_app_r by lia. rewrite lookup_app_r by lia.
      rewrite Hhead, Hmid, lookup_drop.
      replace (S k + (S k - 1 - k))%nat with (S k) by lia. by rewrite Hx. }
    rewrite Hget.
    rewrite (drop_S _ _ _ Hx).
    replace (S k) with (length (take 1 group_ptr) + (k + 0))%nat at 1
      by lia.
    rewrite insert_app_r.
    rewrite <- Hmid at 1. rewrite insert_app_r. cbn [insert list_insert].
    rewrite (take_S_r _ k x) by (rewrite lookup_drop; exact Hx).
    by rewrite fmap_app, <- app_assoc.
Qed.

Lemma shift_group_ptr_tail (this_back : Z) (group_ptr : list Z) :
  drop 1 (shift_group_ptr this_back group_ptr)
  = (λ x, wrap32 (x + this_back)) <$> drop 1 group_ptr.
Proof.
  unfold shift_group_ptr.
  rewrite shift_group_ptr_prefix by lia.
  destruct group_ptr as [|x0 group_ptr]; [done|].
  replace (length (x0 :: group_ptr) - 1)%nat with (length group_ptr)
    by (cbn [length]; lia).
  cbn [take drop app]. rewrite !drop_0, take_0, firstn_all, drop_all.
  by rewrite app_nil_r.
Qed.

(** What a successful [Extend] has checked and stored in the fields for
    the shape and the groups. *)
Lemma Extend_Done_inv {Tensor : Type}
    (Stack : Tensor → Tensor → checked Tensor)
    (CheckFeatureTypes : list FeatureType → list FeatureType → checked ())
    (IsCatOp : FeatureType → bool)
    (that : MetaInfo Tensor) (accumulate_rows check_column : bool)
    (this r : MetaInfo Tensor) :
  Extend Stack CheckFeatureTypes IsCatOp that accumulate_rows check_column this
  = Done r →
  (check_column = true →
   num_col_ this = 0 ∨ num_col_ this = num_col_ that) ∧
  num_row_ r = (if accumulate_rows
                then wrap64 (num_row_ this + num_row_ that)
                else num_row_ this) ∧
  num_col_ r = num_col_ that ∧
  (group_ptr_ this ≠ [] → group_ptr_ that ≠ []) ∧
  group_ptr_ r
  = match group_ptr_ this with
    | [] => group_ptr_ that
    | _ :: _ =>
        group_ptr_ this
        ++ ((λ x, wrap32 (x + default 0 (back (group_ptr_ this))))
              <$> drop 1 (group_ptr_ that))
    end.
Proof.
  unfold Extend. cbn zeta. intros Hext.
  apply bind_Done_inv in Hext as (num_col & Hcol & Hext).
  apply bind_Done_inv in Hext as (labels' & _ & Hext).
  apply bind_Done_inv in Hext as (base_margin & _ & Hext).
  apply bind_Done_inv in Hext as (group_ptr & Hgroup & Hext).
  apply bind_Done_inv in Hext as ([] & _ & Hext).
  apply bind_Done_inv in Hext as ([[type_names types] has_cat] & _ & Hext).
  injection Hext as <-. cbn.
  split.
  { intros ->. destruct (decide (num_col_ this ≠ 0)) as [|Hz].
    - destruct (decide (num_col_ this = num_col_ that)); [auto | done].
    - left. destruct (decide (num_col_ this = 0)); [done | tauto]. }
  split; [done|]. split; [done|].
  destruct (group_ptr_ this) as [|x0 gp] eqn:Hthis.
  - split; [done|]. by injection Hgroup as <-.
  - destruct (decide (length (group_ptr_ that) ≠ 0%nat)) as [Hlen|]; [|done].
    injection Hgroup as <-. split.
    + intros _ Hnil. by rewrite Hnil in Hlen.
    + by rewrite shift_group_ptr_tail.
Qed.

Lemma StronglySorted_le_head (x0 : Z) (l : list Z) :
  StronglySorted Z.le (x0 :: l) → Forall (λ x, x0 ≤ x) l.
Proof. intros [H _]%StronglySorted_cons. exact H. Qed.

Lemma StronglySorted_le_last (l : list Z) (b : Z) :
  StronglySorted Z.le l → last l = Some b → Forall (λ x, x ≤ b) l.
Proof.
  intros Hsorted Hlast.
  destruct (last_Some l b) as [(l' & ->) _]; [done|].
  apply Forall_app. split; [|by apply Forall_singleton].
  apply Forall_forall. intros x Hx.
  apply (StronglySorted_app_1_elem_of Z.le l' [b]); [done | done |].
  by apply list_elem_of_singleton.
Qed.

Lemma group_sizes_app (a s : list Z) (b : Z) :
  last a = Some b →
  group_sizes (a ++ s) = group_sizes a ++ zip_with Z.sub s (b :: s).
Proof.
  unfold group_sizes. revert b.
  induction a as [|x0 a IH]; intros b Hlast; [done|].
  destruct a as [|x1 a].
  - injection Hlast as <-. done.
  - rewrite last_cons_cons in Hlast. specialize (IH b Hlast).
    cbn [app drop zip_with] in IH |- *. rewrite ?drop_0 in IH |- *.
    f_equal. exact IH.
Qed.

Lemma group_sizes_shift (b : Z) (t : list Z) :
  zip_with Z.sub ((λ x, x + b) <$> t) (b :: ((λ x, x + b) <$> t))
  = group_sizes (0 :: t).
Proof.
  unfold group_sizes. cbn [drop]. rewrite drop_0.
  change (b :: ((λ x, x + b) <$> t)) with ((λ x, x + b) <$> (0 :: t)).
  generalize (0 :: t) as u. intros u. revert u.
  induction t as [|x t IH]; intros [|y u]; cbn; try done.
  f_equal; [lia | apply IH].
Qed.

(** X24. The shape after [MetaInfo::Extend] (data.cc:709-785).  When
    the call succeeds the number of columns is the one of [that], also
    without [check_column] and when the object had more columns; with
    [check_column] the two numbers were equal or the object had none.
    The number of rows grows by the rows of [that] (in 64 bits) exactly
    when [accumulate_rows] is set, and an object without group pointers
    takes those of [that]. *)
Theorem Extend_shape {Tensor : Type}
    (Stack : Tensor → Tensor → checked Tensor)
    (CheckFeatureTypes : list FeatureType → list FeatureType → checked ())
    (IsCatOp : FeatureType → bool)
    (that : MetaInfo Tensor) (accumulate_rows check_column : bool)
    (this r : MetaInfo Tensor) :
  Extend Stack CheckFeatureTypes IsCatOp that accumulate_rows check_column this
  = Done r →
  num_col_ r = num_col_ that ∧
  (check_column = true →
   num_col_ this = 0 ∨ num_col_ this = num_col_ that) ∧
  num_row_ r = (if accumulate_rows
                then wrap64 (num_row_ this + num_row_ that)
                else num_row_ this) ∧
  (group_ptr_ this = [] → group_ptr_ r = group_ptr_ that).
Proof.
  intros (Hcheck & Hrow & Hcol & _ & Hgroup)%Extend_Done_inv.
  repeat split; try done.
  intros Hnil. by rewrite Hnil in Hgroup.
Qed.

Lemma Extend_shape_witness :
  Extend stack_lists same_types is_cat meta_groups_4 true false meta_groups_2_1
  = Done meta_groups_2_1_4 ∧
  num_col_ meta_groups_2_1_4 = num_col_ meta_groups_4 ∧
  (false = true →
   num_col_ meta_groups_2_1 = 0
   ∨ num_col_ meta_groups_2_1 = num_col_ meta_groups_4) ∧
  num_row_ meta_groups_2_1_4
  = (if true then wrap64 (num_row_ meta_groups_2_1 + num_row_ meta_groups_4)
     else num_row_ meta_groups_2_1) ∧
  (group_ptr_ meta_groups_2_1 = [] →
   group_ptr_ meta_groups_2_1_4 = group_ptr_ meta_groups_4).
Proof.
  assert (H : Extend stack_lists same_types is_cat meta_groups_4 true false
                     meta_groups_2_1
              = Done meta_groups_2_1_4) by reflexivity.
  split; [exact H|].
  exact (Extend_shape stack_lists same_types is_cat meta_groups_4 true false
           meta_groups_2_1 meta_groups_2_1_4 H).
Defined.

(** X25. [MetaInfo::Extend] (data.cc:709-785) appends the groups of
    [that] behind the groups of the object.  For valid group pointers on
    both sides whose last values add up to less than 2^32, a successful
    call stores the pointers of the object followed by those of [that]
    without their leading 0, each moved up by the object's last pointer.
    The result is again valid, it ends at the sum of the two last
    pointers, and its group sizes are the sizes of the object's groups
    followed by the sizes of the groups of [that]. *)
Theorem Extend_appends_groups {Tensor : Type}
    (Stack : Tensor → Tensor → checked Tensor)
    (CheckFeatureTypes : list FeatureType → list FeatureType → checked ())
    (IsCatOp : FeatureType → bool)
    (that : MetaInfo Tensor) (accumulate_rows check_column : bool)
    (this r : MetaInfo Tensor) (b1 b2 : Z) :
  Extend Stack CheckFeatureTypes IsCatOp that accumulate_rows check_column this
  = Done r →
  valid_group_ptr (group_ptr_ this) →
  valid_group_ptr (group_ptr_ that) →
  back (group_ptr_ this) = Some b1 →
  back (group_ptr_ that) = Some b2 →
  b1 + b2 < 2 ^ 32 →
  group_ptr_ r
  = group_ptr_ this ++ ((λ x, x + b1) <$> drop 1 (group_ptr_ that)) ∧
  valid_group_ptr (group_ptr_ r) ∧
  back (group_ptr_ r) = Some (b1 + b2) ∧
  group_sizes (group_ptr_ r)
  = group_sizes (group_ptr_ this) ++ group_sizes (group_ptr_ that).
Proof.
  intros (_ & _ & _ & _ & Hgroup)%Extend_Done_inv
         [Hhead1 Hsorted1] [Hhead2 Hsorted2] Hback1 Hback2 Hfit.
  unfold back in *.
  destruct (group_ptr_ that) as [|z t] eqn:Hthat; [done|].
  injection Hhead2 as ->.
  pose proof (StronglySorted_le_head _ _ Hsorted2) as Hpos2.
  pose proof (StronglySorted_le_last _ _ Hsorted2 Hback2) as Hmax2.
  apply Forall_cons in Hmax2 as [Hb2 Hmax2].
  pose proof (StronglySorted_le_last _ _ Hsorted1 Hback1) as Hmax1.
  destruct (group_ptr_ this) as [|x0 a] eqn:Hthis; [done|].
  injection Hhead1 as ->.
  pose proof (StronglySorted_le_head _ _ Hsorted1) as Hpos1.
  assert (Hb1 : 0 ≤ b1) by by apply Forall_cons in Hmax1 as [? _].
  rewrite Hback1 in Hgroup. cbn [default drop] in Hgroup |- *.
  rewrite drop_0 in Hgroup |- *. change (id b1) with b1 in Hgroup.
  assert (Hshift : (λ x, wrap32 (x + b1)) <$> t = (λ x, x + b1) <$> t).
  { apply Forall_fmap_ext. rewrite Forall_forall in Hpos2, Hmax2 |- *.
    intros x Hx. specialize (Hpos2 x Hx). specialize (Hmax2 x Hx). cbn.
    unfold wrap32. apply Z.mod_small. lia. }
  rewrite Hshift in Hgroup. rewrite Hgroup.
  split; [done|].
  assert (Hsorted : StronglySorted Z.le ((λ x, x + b1) <$> t)).
  { apply StronglySorted_fmap with (R1 := Z.le);
      [|by apply StronglySorted_cons in Hsorted2 as [_ ?]].
    intros x y Hxy. lia. }
  split; [|split].
  - split; [done|].
    apply (StronglySorted_app_2 Z.le (0 :: a)); [| done | done].
    intros x1 x2 Hx1 [x [-> Hx]]%list_elem_of_fmap.
    rewrite Forall_forall in Hmax1, Hpos2.
    specialize (Hmax1 x1 Hx1). specialize (Hpos2 x Hx). lia.
  - destruct (decide (t = [])) as [->|Hne].
    + cbn [fmap list_fmap]. rewrite app_nil_r.
      cbn in Hback2. injection Hback2 as <-. by rewrite Z.add_0_r.
    + destruct (last_is_Some t) as [_ [y Hy]]; [done|].
      assert (Hy' : last (0 :: t) = Some y).
      { destruct t; [done|]. by rewrite last_cons_cons. }
      rewrite Hy' in Hback2. injection Hback2 as ->.
      destruct (last_Some t b2) as [(t' & ->) _]; [done|].
      rewrite fmap_app, app_assoc. cbn [fmap list_fmap].
      rewrite last_snoc. f_equal. lia.
  - rewrite (group_sizes_app (0 :: a) _ b1 Hback1). f_equal.
    apply group_sizes_shift.
Qed.

Lemma Extend_appends_groups_witness :
  (Extend stack_lists same_types is_cat meta_groups_4 true false
          meta_groups_2_1
   = Done meta_groups_2_1_4 ∧
   valid_group_ptr (group_ptr_ meta_groups_2_1) ∧
   valid_group_ptr (group_ptr_ meta_groups_4) ∧
   back (group_ptr_ meta_groups_2_1) = Some 3 ∧
   back (group_ptr_ meta_groups_4) = Some 4 ∧
   3 + 4 < 2 ^ 32) ∧
  group_ptr_ meta_groups_2_1_4
  = group_ptr_ meta_groups_2_1
    ++ ((λ x, x + 3) <$> drop 1 (group_ptr_ meta_groups_4)) ∧
  valid_group_ptr (group_ptr_ meta_groups_2_1_4) ∧
  back (group_ptr_ meta_groups_2_1_4) = Some (3 + 4) ∧
  group_sizes (group_ptr_ meta_groups_2_1_4)
  = group_sizes (group_ptr_ meta_groups_2_1)
    ++ group_sizes (group_ptr_ meta_groups_4).
Proof.
  assert (H : Extend stack_lists same_types is_cat meta_groups_4 true false
                     meta_groups_2_1
              = Done meta_groups_2_1_4 ∧
              valid_group_ptr (group_ptr_ meta_groups_2_1) ∧
              valid_group_ptr (group_ptr_ meta_groups_4) ∧
              back (group_ptr_ meta_groups_2_1) = Some 3 ∧
              back (group_ptr_ meta_groups_4) = Some 4 ∧
              3 + 4 < 2 ^ 32).
  { split; [reflexivity|]. unfold valid_group_ptr. cbn.
    repeat split; try lia; repeat constructor; lia. }
  split; [exact H|].
  destruct H as (H1 & H2 & H3 & H4 & H5 & H6).
  exact (Extend_appends_groups stack_lists same_types is_cat meta_groups_4
           true false meta_groups_2_1 meta_groups_2_1_4 3 4
           H1 H2 H3 H4 H5 H6).
Defined.

(** X26. [MetaInfo::Extend] (data.cc:709-785) never succeeds when the
    object has group pointers and [that] has none, whatever the other
    fields hold and whatever the functions it calls return. *)
Theorem Extend_ungrouped_fails {Tensor : Type}
    (Stack : Tensor → Tensor → checked Tensor)
    (CheckFeatureTypes : list FeatureType → list FeatureType → checked ())
    (IsCatOp : FeatureType → bool)
    (that : MetaInfo Tensor) (accumulate_rows check_column : bool)
    (this : MetaInfo Tensor) :
  group_ptr_ this ≠ [] →
  group_ptr_ that = [] →
  is_Fatal (Extend Stack CheckFeatureTypes IsCatOp that accumulate_rows
                   check_column this).
Proof.
  intros Hthis Hthat.
  destruct (Extend Stack CheckFeatureTypes IsCatOp that accumulate_rows
                   check_column this) as [r|e] eqn:Hext; [|done].
  apply Extend_Done_inv in Hext as (_ & _ & _ & Hne & _).
  by destruct (Hne Hthis).
Qed.

Lemma Extend_ungrouped_fails_witness :
  (group_ptr_ meta_groups_2_1 ≠ [] ∧ group_ptr_ meta_two_columns = []) ∧
  is_Fatal (Extend stack_lists same_types is_cat meta_two_columns true false
                   meta_groups_2_1).
Proof.
  assert (H : group_ptr_ meta_groups_2_1 ≠ []
              ∧ group_ptr_ meta_two_columns = []) by done.
  split; [exact H|].
  destruct H as (H1 & H2).
  exact (Extend_ungrouped_fails stack_lists same_types is_cat meta_two_columns
           true false meta_groups_2_1 H1 H2).
Defined.
